(** * launch_last_releases: latest release of every file found in a tree of ZIP archives

    A shallow embedding of [main.go] and a verification of the properties
    its specification states, and of further properties of the code (the
    last part of the file).  The program walks a directory, lists the
    entries of every [.zip] archive, groups the entries by name, keeps for
    every name the entry of the most recently modified archive and prints a
    fixed-width report.

    Conventions of the embedding.
    - A Go [string] is a sequence of bytes: [String.string], one [ascii] per
      byte; [len(s)] is [String.length].
    - A slice that is updated in place is a [list] accessed by index; an index
      out of range panics in Go and is [None] here.
    - Slice indices and lengths are [nat]: the program never computes a
      negative index, and the lengths involved are far below the 63 bits of a
      Go [int].
    - What the operating system and the archive decide (stat, the central
      directory, the order in which a Go map is iterated, write errors) is an
      explicit parameter. *)

From Stdlib Require Import ZArith String Ascii Lia ZifyNat DecimalString.
From stdpp Require Import gmap strings list fin_maps.

Open Scope string_scope.
Open Scope list_scope.
Open Scope nat_scope.

(** ** Results of fallible calls *)

Inductive result (A : Type) : Type :=
| Ok (a : A)
| Err (e : string).
Arguments Ok {A} a.
Arguments Err {A} e.

(** ** [time.Time] *)

(** A [time.Time] without monotonic clock reading, which is what [os.Stat]
    gives: seconds since the epoch and nanoseconds within the second. *)
Record Time : Type := mkTime { sec : Z; nsec : Z }.

Definition Before (t u : Time) : bool :=
  (sec t <? sec u)%Z || ((sec t =? sec u)%Z && (nsec t <? nsec u)%Z).

#[global] Instance Time_eq_dec : EqDecision Time.
Proof. solve_decision. Defined.

(** ** The data model *)

Record FileRecord : Type := mkFileRecord {
  Name : string;
  ModTime : Time;
  ArchivePath : string;
  ArchiveName : string;
  Size : Z
}.

#[global] Instance FileRecord_eq_dec : EqDecision FileRecord.
Proof. solve_decision. Defined.

(** ** [archive/zip]: the entries of a central directory *)

(** One [*zip.File].  [AttrDir] is the directory bit that [FileHeader.Mode]
    reads from the creator-specific external attributes; [Mode] also sets the
    bit when the name ends in a slash. *)
Record ZipFile : Type := mkZipFile {
  zName : string;
  zAttrDir : bool;
  zUncompressedSize : Z
}.

Fixpoint hasTrailingSlash (s : string) : bool :=
  match s with
  | EmptyString => false
  | String c EmptyString => Ascii.eqb c "/"%char
  | String _ rest => hasTrailingSlash rest
  end.

(** [f.FileInfo().IsDir()] *)
Definition IsDir (f : ZipFile) : bool := zAttrDir f || hasTrailingSlash (zName f).

(** ** What the program is run in: file system, clock zone, Go runtime *)

Record FileInfo : Type := mkFileInfo {
  fiIsDir : bool;
  fiModTime : Time
}.

(** One call of the function given to [filepath.Walk]. *)
Record WalkVisit : Type := mkWalkVisit {
  wPath : string;
  wInfo : FileInfo;
  wErr : option string
}.

Record World : Type := mkWorld {
  (** the visits [filepath.Walk] makes from a root, in order *)
  Walk : string -> list WalkVisit;
  (** [os.Stat] *)
  Stat : string -> result FileInfo;
  (** [zip.OpenReader]: the [File] slice of the reader *)
  OpenReader : string -> result (list ZipFile);
  (** [filepath.Ext], [strings.ToLower] and [filepath.Base] *)
  Ext : string -> string;
  ToLower : string -> string;
  Base : string -> string;
  (** [os.Create] *)
  Create : string -> option string;
  (** whether the k-th [WriteString] on the report file fails, and then
      after how many bytes of its string, and with which error *)
  WriteError : nat -> option (nat * string);
  (** [Time.Format("2006-01-02 15:04:05")] in the local zone *)
  FormatTime : Time -> string;
  (** the order in which [range] visits the resolution map, as a
      rearrangement of the map's entries *)
  MapOrder : list (string * FileRecord) -> list (string * FileRecord)
}.

(** ** ArchiveLocator *)

Definition isArchiveFile (w : World) (filename : string) : bool :=
  String.eqb (ToLower w (Ext w filename)) ".zip".

(** The walk stops at the first visit whose callback returns an error; the
    callback returns the error it was handed. *)
Fixpoint findArchiveFiles_walk (w : World) (visits : list WalkVisit)
    (archives : list string) : result (list string) :=
  match visits with
  | [] => Ok archives
  | v :: rest =>
      match wErr v with
      | Some e => Err e
      | None =>
          if negb (fiIsDir (wInfo v)) && isArchiveFile w (wPath v)
          then findArchiveFiles_walk w rest (archives ++ [wPath v])
          else findArchiveFiles_walk w rest archives
      end
  end.

Definition findArchiveFiles (w : World) (dir : string) : result (list string) :=
  findArchiveFiles_walk w (Walk w dir) [].

(** ** ArchiveInspector *)

(** The body of [for _, f := range r.File]. *)
Fixpoint extract_loop (w : World) (archivePath : string) (archiveInfo : FileInfo)
    (entries : list ZipFile) (files : list FileRecord) : list FileRecord :=
  match entries with
  | [] => files
  | f :: rest =>
      if IsDir f then extract_loop w archivePath archiveInfo rest files
      else extract_loop w archivePath archiveInfo rest
             (files ++ [ {| Name := zName f;
                            ModTime := fiModTime archiveInfo;
                            ArchivePath := archivePath;
                            ArchiveName := Base w archivePath;
                            Size := zUncompressedSize f |} ])
  end.

Definition extractFileInfoFromArchive (w : World) (archivePath : string)
    : result (list FileRecord) :=
  match Stat w archivePath with
  | Err e => Err e
  | Ok archiveInfo =>
      match OpenReader w archivePath with
      | Err e => Err e
      | Ok r => Ok (extract_loop w archivePath archiveInfo r [])
      end
  end.

(** ** Package [sort]: [sort.Slice]

    [determineLatestReleases] sorts with [sort.Slice] of Go's standard
    library, which since Go 1.19 is a pattern-defeating quicksort:
    [sort.Slice(x, less)] runs [pdqsort_func] on a [lessSwap] whose [Less]
    and [Swap] read and exchange the elements of [x] by index.  The
    functions below follow the library's [zsortfunc.go] one by one.  A
    computation is a state transformer over the slice that fails ([None])
    when Go would panic on an index, or when the fuel of a loop runs out;
    the fuel given is always enough (see [Slice_spec]). *)

Module sort.
Section lessSwap.

Context {A : Type} (less : A -> A -> bool).

Definition M (X : Type) : Type := list A -> option (X * list A).

Definition ret {X : Type} (x : X) : M X := fun data => Some (x, data).

Definition bind {X Y : Type} (m : M X) (k : X -> M Y) : M Y :=
  fun data => match m data with
              | Some (x, data') => k x data'
              | None => None
              end.

Definition panic {X : Type} : M X := fun _ => None.

Notation "'do' x <- m ; k" := (bind m (fun x => k))
  (at level 10, x name, m at level 100, k at level 200).
Notation "m ;; k" := (bind m (fun _ => k))
  (at level 100, k at level 200, right associativity).

(** [data.Less(i, j)] and [data.Swap(i, j)] *)
Definition Less (i j : nat) : M bool :=
  fun data => match data !! i, data !! j with
              | Some x, Some y => Some (less x y, data)
              | _, _ => None
              end.

Definition Swap (i j : nat) : M unit :=
  fun data => match data !! i, data !! j with
              | Some x, Some y => Some (tt, <[j := x]> (<[i := y]> data))
              | _, _ => None
              end.

(** *** [insertionSort_func] *)

(** [for j := i; j > a && data.Less(j, j-1); j-- { data.Swap(j, j-1) }] *)
Fixpoint insertionSort_shift (a j : nat) : M unit :=
  match j with
  | 0 => ret tt
  | S j' =>
      if a <? j then
        do c <- Less j j' ;
        if c then (Swap j j' ;; insertionSort_shift a j') else ret tt
      else ret tt
  end.

(** [for i := a + 1; i < b; i++ { ... }], [n] iterations to go *)
Fixpoint insertionSort_loop (n a i : nat) : M unit :=
  match n with
  | 0 => ret tt
  | S n' => insertionSort_shift a i ;; insertionSort_loop n' a (S i)
  end.

Definition insertionSort_func (a b : nat) : M unit :=
  insertionSort_loop (b - (a + 1)) a (a + 1).

(** *** [siftDown_func] and [heapSort_func] *)

Fixpoint siftDown_loop (fuel root hi first : nat) : M unit :=
  match fuel with
  | 0 => panic
  | S fuel' =>
      let child := 2 * root + 1 in
      if hi <=? child then ret tt
      else
        do c <- (if child + 1 <? hi
                 then Less (first + child) (first + child + 1)
                 else ret false) ;
        let child := if c then child + 1 else child in
        do c' <- Less (first + root) (first + child) ;
        if negb c' then ret tt
        else (Swap (first + root) (first + child) ;;
              siftDown_loop fuel' child hi first)
  end.

Definition siftDown_func (lo hi first : nat) : M unit :=
  siftDown_loop (S hi) lo hi first.

(** [for i := (hi - 1) / 2; i >= 0; i-- { siftDown_func(data, i, hi, first) }],
    with [n = i + 1] *)
Fixpoint heapSort_build (n hi first : nat) : M unit :=
  match n with
  | 0 => ret tt
  | S i => siftDown_func i hi first ;; heapSort_build i hi first
  end.

(** [for i := hi - 1; i >= 0; i-- { data.Swap(first, first+i); siftDown_func(data, lo, i, first) }] *)
Fixpoint heapSort_pop (n lo first : nat) : M unit :=
  match n with
  | 0 => ret tt
  | S i => Swap first (first + i) ;; siftDown_func lo i first ;; heapSort_pop i lo first
  end.

Definition heapSort_func (a b : nat) : M unit :=
  let first := a in
  let lo := 0 in
  let hi := b - a in
  heapSort_build ((hi - 1) / 2 + 1) hi first ;;
  heapSort_pop hi lo first.

(** *** [partition_func] *)

(** [for i <= j && data.Less(i, a) { i++ }] *)
Fixpoint partition_up (fuel a i j : nat) : M nat :=
  match fuel with
  | 0 => panic
  | S fuel' =>
      if i <=? j then
        do c <- Less i a ;
        if c then partition_up fuel' a (S i) j else ret i
      else ret i
  end.

(** [for i <= j && !data.Less(j, a) { j-- }]; here [i >= 1], so [j >= 1]
    whenever it is decremented *)
Fixpoint partition_down (fuel a i j : nat) : M nat :=
  match fuel with
  | 0 => panic
  | S fuel' =>
      if i <=? j then
        do c <- Less j a ;
        if negb c then partition_down fuel' a i (j - 1) else ret j
      else ret j
  end.

Fixpoint partition_loop (fuel a i j : nat) : M (nat * nat) :=
  match fuel with
  | 0 => panic
  | S fuel' =>
      do i <- partition_up (S (S j)) a i j ;
      do j <- partition_down (S (S j)) a i j ;
      if j <? i then ret (i, j)
      else (Swap i j ;; partition_loop fuel' a (S i) (j - 1))
  end.

Definition partition_func (a b pivot : nat) : M (nat * bool) :=
  Swap a pivot ;;
  let i := a + 1 in
  let j := b - 1 in
  do i <- partition_up (S (S j)) a i j ;
  do j <- partition_down (S (S j)) a i j ;
  if j <? i then (Swap j a ;; ret (j, true))
  else
    (Swap i j ;;
     do ij <- partition_loop (S b) a (S i) (j - 1) ;
     Swap (snd ij) a ;;
     ret (snd ij, false)).

(** *** [partitionEqual_func] *)

(** [for i <= j && !data.Less(a, i) { i++ }] *)
Fixpoint partitionEqual_up (fuel a i j : nat) : M nat :=
  match fuel with
  | 0 => panic
  | S fuel' =>
      if i <=? j then
        do c <- Less a i ;
        if negb c then partitionEqual_up fuel' a (S i) j else ret i
      else ret i
  end.

(** [for i <= j && data.Less(a, j) { j-- }] *)
Fixpoint partitionEqual_down (fuel a i j : nat) : M nat :=
  match fuel with
  | 0 => panic
  | S fuel' =>
      if i <=? j then
        do c <- Less a j ;
        if c then partitionEqual_down fuel' a i (j - 1) else ret j
      else ret j
  end.

Fixpoint partitionEqual_loop (fuel a i j : nat) : M nat :=
  match fuel with
  | 0 => panic
  | S fuel' =>
      do i <- partitionEqual_up (S (S j)) a i j ;
      do j <- partitionEqual_down (S (S j)) a i j ;
      if j <? i then ret i
      else (Swap i j ;; partitionEqual_loop fuel' a (S i) (j - 1))
  end.

Definition partitionEqual_func (a b pivot : nat) : M nat :=
  Swap a pivot ;;
  let i := a + 1 in
  let j := b - 1 in
  partitionEqual_loop (S b) a i j.

(** *** [partialInsertionSort_func] *)

Definition maxSteps : nat := 5.
Definition shortestShifting : nat := 50.

(** [for i < b && !data.Less(i, i-1) { i++ }] *)
Fixpoint partialInsertionSort_scan (fuel i b : nat) : M nat :=
  match fuel with
  | 0 => panic
  | S fuel' =>
      if i <? b then
        do c <- Less i (i - 1) ;
        if negb c then partialInsertionSort_scan fuel' (S i) b else ret i
      else ret i
  end.

(** [for j := i - 1; j >= 1; j-- { if !data.Less(j, j-1) { break }; data.Swap(j, j-1) }] *)
Fixpoint partialInsertionSort_left (j : nat) : M unit :=
  match j with
  | 0 => ret tt
  | S j' =>
      do c <- Less j j' ;
      if negb c then ret tt
      else (Swap j j' ;; partialInsertionSort_left j')
  end.

(** [for j := i + 1; j < b; j++ { if !data.Less(j, j-1) { break }; data.Swap(j, j-1) }] *)
Fixpoint partialInsertionSort_right (fuel j b : nat) : M unit :=
  match fuel with
  | 0 => panic
  | S fuel' =>
      if j <? b then
        do c <- Less j (j - 1) ;
        if negb c then ret tt
        else (Swap j (j - 1) ;; partialInsertionSort_right fuel' (S j) b)
      else ret tt
  end.

(** [for j := 0; j < maxSteps; j++ { ... }], [steps] iterations to go *)
Fixpoint partialInsertionSort_steps (steps a b i : nat) : M bool :=
  match steps with
  | 0 => ret false
  | S steps' =>
      do i <- partialInsertionSort_scan (S b) i b ;
      if i =? b then ret true
      else if b - a <? shortestShifting then ret false
      else
        (Swap i (i - 1) ;;
         (if 2 <=? i - a then partialInsertionSort_left (i - 1) else ret tt) ;;
         (if 2 <=? b - i then partialInsertionSort_right (S b) (i + 1) b else ret tt) ;;
         partialInsertionSort_steps steps' a b i)
  end.

Definition partialInsertionSort_func (a b : nat) : M bool :=
  partialInsertionSort_steps maxSteps a b (a + 1).

(** *** [breakPatterns_func] *)

(** [bits.Len(uint(n))] *)
Definition bits_Len (n : nat) : nat :=
  match n with
  | 0 => 0
  | _ => S (Nat.log2 n)
  end.

(** [xorshift.Next] on a [uint64].  Nothing proved below depends on the
    numbers drawn, only on the positions exchanged lying within the range. *)
Definition xorshift_Next (r : Z) : Z :=
  let r := Z.lxor r (Z.shiftl r 13 mod 2 ^ 64) in
  let r := Z.lxor r (Z.shiftr r 7) in
  let r := Z.lxor r (Z.shiftl r 17 mod 2 ^ 64) in
  r.

Definition nextPowerOfTwo (length : nat) : nat := 2 ^ bits_Len length.

(** [for i := 0; i < 3; i++ { ... }], [n] iterations to go *)
Fixpoint breakPatterns_loop (n i a length idx modulus : nat) (random : Z) : M unit :=
  match n with
  | 0 => ret tt
  | S n' =>
      let random := xorshift_Next random in
      let other := Z.to_nat (Z.land random (Z.of_nat modulus - 1)) in
      let other := if length <=? other then other - length else other in
      Swap (idx - 1 + i) (a + other) ;;
      breakPatterns_loop n' (S i) a length idx modulus random
  end.

Definition breakPatterns_func (a b : nat) : M unit :=
  let length := b - a in
  if 8 <=? length then
    let random := Z.of_nat length in
    let modulus := nextPowerOfTwo length in
    let idx := a + (length / 4) * 2 in
    breakPatterns_loop 3 0 a length idx modulus random
  else ret tt.

(** *** [choosePivot_func] *)

Inductive sortedHint : Type := unknownHint | increasingHint | decreasingHint.

Definition shortestNinther : nat := 50.
Definition maxSwaps : nat := 4 * 3.

(** The counter [*swaps] is threaded through. *)
Definition order2_func (a b swaps : nat) : M (nat * nat * nat) :=
  do c <- Less b a ;
  if c then ret (b, a, S swaps) else ret (a, b, swaps).

Definition median_func (a b c swaps : nat) : M (nat * nat) :=
  do r <- order2_func a b swaps ;
  let '(a, b, swaps) := r in
  do r <- order2_func b c swaps ;
  let '(b, c, swaps) := r in
  do r <- order2_func a b swaps ;
  let '(a, b, swaps) := r in
  ret (b, swaps).

Definition medianAdjacent_func (a swaps : nat) : M (nat * nat) :=
  median_func (a - 1) a (a + 1) swaps.

Definition choosePivot_func (a b : nat) : M (nat * sortedHint) :=
  let l := b - a in
  let swaps := 0 in
  let i := a + l / 4 * 1 in
  let j := a + l / 4 * 2 in
  let k := a + l / 4 * 3 in
  do r <- (if 8 <=? l then
             do r <- (if shortestNinther <=? l then
                        do ri <- medianAdjacent_func i swaps ;
                        do rj <- medianAdjacent_func j (snd ri) ;
                        do rk <- medianAdjacent_func k (snd rj) ;
                        ret (fst ri, fst rj, fst rk, snd rk)
                      else ret (i, j, k, swaps)) ;
             let '(i, j, k, swaps) := r in
             median_func i j k swaps
           else ret (j, swaps)) ;
  let '(j, swaps) := r in
  if swaps =? 0 then ret (j, increasingHint)
  else if swaps =? maxSwaps then ret (j, decreasingHint)
  else ret (j, unknownHint).

(** *** [reverseRange_func] *)

(** [for i < j { data.Swap(i, j); i++; j-- }] *)
Fixpoint reverseRange_loop (fuel i j : nat) : M unit :=
  match fuel with
  | 0 => panic
  | S fuel' =>
      if i <? j then (Swap i j ;; reverseRange_loop fuel' (S i) (j - 1))
      else ret tt
  end.

Definition reverseRange_func (a b : nat) : M unit :=
  let i := a in
  let j := b - 1 in
  reverseRange_loop (S b) i j.

(** *** [pdqsort_func] *)

Definition maxInsertion : nat := 12.

Definition is_increasing (h : sortedHint) : bool :=
  match h with increasingHint => true | _ => false end.

Definition is_decreasing (h : sortedHint) : bool :=
  match h with decreasingHint => true | _ => false end.

(** One unit of fuel is spent by every turn of the [for] loop and by every
    recursive call; [wasBalanced] and [wasPartitioned] are the loop's
    variables, [true] when the function is entered. *)
Fixpoint pdqsort_func (fuel a b limit : nat) (wasBalanced wasPartitioned : bool) : M unit :=
  match fuel with
  | 0 => panic
  | S fuel' =>
      let length := b - a in
      if length <=? maxInsertion then insertionSort_func a b
      else if limit =? 0 then heapSort_func a b
      else
        do limit <- (if negb wasBalanced
                     then (breakPatterns_func a b ;; ret (limit - 1))
                     else ret limit) ;
        do ph <- choosePivot_func a b ;
        do ph <- (if is_decreasing (snd ph)
                  then (reverseRange_func a b ;;
                        ret ((b - 1) - (fst ph - a), increasingHint))
                  else ret ph) ;
        let pivot := fst ph in
        let hint := snd ph in
        do done <- (if wasBalanced && wasPartitioned && is_increasing hint
                    then partialInsertionSort_func a b
                    else ret false) ;
        if done then ret tt
        else
          do dup <- (if 0 <? a
                     then (do c <- Less (a - 1) pivot ; ret (negb c))
                     else ret false) ;
          if dup then
            do mid <- partitionEqual_func a b pivot ;
            pdqsort_func fuel' mid b limit wasBalanced wasPartitioned
          else
            do r <- partition_func a b pivot ;
            let mid := fst r in
            let wasPartitioned := snd r in
            let leftLen := mid - a in
            let rightLen := b - mid in
            let balanceThreshold := length / 8 in
            if leftLen <? rightLen then
              let wasBalanced := balanceThreshold <=? leftLen in
              pdqsort_func fuel' a mid limit true true ;;
              pdqsort_func fuel' (mid + 1) b limit wasBalanced wasPartitioned
            else
              let wasBalanced := balanceThreshold <=? rightLen in
              pdqsort_func fuel' (mid + 1) b limit true true ;;
              pdqsort_func fuel' a mid limit wasBalanced wasPartitioned
  end.

(** [sort.Slice(x, less)]: the slice after the call, [None] for a panic. *)
Definition Slice (x : list A) : option (list A) :=
  let length := length x in
  let limit := bits_Len length in
  match pdqsort_func (S length) 0 length limit true true x with
  | Some (_, x') => Some x'
  | None => None
  end.

End lessSwap.
End sort.


(** ** LatestResolver *)

(** The [less] closure given to [sort.Slice]. *)
Definition byModTime (x y : FileRecord) : bool := Before (ModTime x) (ModTime y).

(** [for filename, versions := range allFiles], over the entries in the order
    the runtime visits them.  Sorting [versions] sorts the array the map's
    slice points to, so the grouping map changes too: the function returns
    the resolution map together with the grouping map as the call leaves it.
    [None] stands for a panic.  The sequences of different names share no
    array (see [group_append]); the result does not depend on the order of
    the visit (see [determineLatestReleases_order]). *)
Fixpoint determineLatestReleases_range (entries : list (string * list FileRecord))
    (latest : gmap string FileRecord) (allFiles : gmap string (list FileRecord))
    : option (gmap string FileRecord * gmap string (list FileRecord)) :=
  match entries with
  | [] => Some (latest, allFiles)
  | (filename, versions) :: rest =>
      if length versions =? 0 then determineLatestReleases_range rest latest allFiles
      else
        match sort.Slice byModTime versions with
        | None => None
        | Some versions' =>
            match versions' !! (length versions' - 1) with
            | None => None
            | Some r =>
                determineLatestReleases_range rest
                  (<[filename := r]> latest) (<[filename := versions']> allFiles)
            end
        end
  end.

Definition determineLatestReleases (allFiles : gmap string (list FileRecord))
    : option (gmap string FileRecord * gmap string (list FileRecord)) :=
  determineLatestReleases_range (map_to_list allFiles) ∅ allFiles.

(** ** ReportWriter *)

Definition nl : string := String (ascii_of_nat 10) EmptyString.

(** *** [utf8.RuneCountInString] *)

Definition byte (c : ascii) : nat := nat_of_ascii c.

(** The table [first]: [None] for an invalid leading byte ([xx]), otherwise
    the index of the accept range and the size of the sequence. *)
Definition utf8_first (c : nat) : option (nat * nat) :=
  if c <? 128 then Some (0, 1)
  else if c <? 194 then None
  else if c <? 224 then Some (0, 2)
  else if c =? 224 then Some (1, 3)
  else if c <? 237 then Some (0, 3)
  else if c =? 237 then Some (2, 3)
  else if c <? 240 then Some (0, 3)
  else if c =? 240 then Some (3, 4)
  else if c <? 244 then Some (0, 4)
  else if c =? 244 then Some (4, 4)
  else None.

Definition locb : nat := 128.
Definition hicb : nat := 191.

Definition acceptRanges (k : nat) : nat * nat :=
  match k with
  | 1 => (160, hicb)
  | 2 => (locb, 159)
  | 3 => (144, hicb)
  | 4 => (locb, 143)
  | _ => (locb, hicb)
  end.

(** The number of bytes the rune at the head of [s] takes. *)
Definition utf8_size (s : list nat) : nat :=
  match s with
  | [] => 0
  | c :: rest =>
      if c <? 128 then 1
      else
        match utf8_first c with
        | None => 1
        | Some (acc, size) =>
            if length s <? size then 1
            else
              let '(lo, hi) := acceptRanges acc in
              let c1 := nth 0 rest 0 in
              if (c1 <? lo) || (hi <? c1) then 1
              else if size =? 2 then 2
              else
                let c2 := nth 1 rest 0 in
                if (c2 <? locb) || (hicb <? c2) then 1
                else if size =? 3 then 3
                else
                  let c3 := nth 2 rest 0 in
                  if (c3 <? locb) || (hicb <? c3) then 1 else 4
        end
  end.

(** [for i := 0; i < ns; n++ { ... i += size }] *)
Fixpoint RuneCount_loop (fuel : nat) (s : list nat) : nat :=
  match fuel with
  | 0 => 0
  | S fuel' =>
      match s with
      | [] => 0
      | _ => S (RuneCount_loop fuel' (drop (utf8_size s) s))
      end
  end.

Definition RuneCountInString (s : string) : nat :=
  RuneCount_loop (String.length s) (List.map byte (list_ascii_of_string s)).

(** *** [fmt]: the verbs the report uses *)

Fixpoint spaces (n : nat) : string :=
  match n with
  | 0 => EmptyString
  | S n' => String " "%char (spaces n')
  end.

(** [%-Ns]: [padString] with the minus flag; the width counts runes. *)
Definition fmt_s_left (wid : nat) (s : string) : string :=
  s +:+ spaces (wid - RuneCountInString s).

Definition decimal (n : Z) : string := NilZero.string_of_int (Z.to_int n).

(** [%-Nd] *)
Definition fmt_d_left (wid : nat) (n : Z) : string :=
  fmt_s_left wid (decimal n).

(** [strings.Repeat] of a one-byte string *)
Fixpoint Repeat (c : ascii) (count : nat) : string :=
  match count with
  | 0 => EmptyString
  | S n => String c (Repeat c n)
  end.

(** *** [truncateString] *)

(** [s[:maxLen-3]] panics when [maxLen < 3] (and [len(s) > maxLen]). *)
Definition truncateString (s : string) (maxLen : Z) : option string :=
  if (Z.of_nat (String.length s) <=? maxLen)%Z then Some s
  else if (maxLen - 3 <? 0)%Z then None
  else Some (String.substring 0 (Z.to_nat (maxLen - 3)) s +:+ "...").

(** *** [writeResultsToFile] *)

Definition header : string :=
  fmt_s_left 50 "Файл" +:+ " " +:+ fmt_s_left 20 "Дата релиза" +:+ " " +:+
  fmt_s_left 10 "Размер" +:+ " " +:+ "Архив" +:+ nl.

Definition divider : string := Repeat "-"%char (String.length header) +:+ nl.

(** The first column of a data line: [%-50s] of [truncateString(record.Name, 50)]. *)
Definition nameField (record : FileRecord) : option string :=
  match truncateString (Name record) 50 with
  | Some s => Some (fmt_s_left 50 s)
  | None => None
  end.

Definition line (w : World) (record : FileRecord) : option string :=
  match nameField record with
  | Some name =>
      Some (name +:+ " " +:+ fmt_s_left 20 (FormatTime w (ModTime record)) +:+ " " +:+
            fmt_d_left 10 (Size record) +:+ " " +:+ ArchiveName record +:+ nl)
  | None => None
  end.

(** The report file: what has been written, and how many [WriteString]
    calls were made. *)
Record File : Type := mkFile { content : string; writes : nat }.

(** [file.WriteString(s)].  A write that fails may have written the first
    bytes of [s] all the same; [writeResultsToFile] drops the number of
    bytes written and keeps the error. *)
Definition WriteString (w : World) (file : File) (s : string) : File * option string :=
  match WriteError w (writes file) with
  | Some (n, e) =>
      (mkFile (content file +:+ String.substring 0 n s) (S (writes file)), Some e)
  | None => (mkFile (content file +:+ s) (S (writes file)), None)
  end.

Inductive written : Type :=
| Written (file : option File) (err : option string)
| Panicked.

(** [for _, record := range results] *)
Fixpoint writeResultsToFile_range (w : World) (rows : list (string * FileRecord))
    (file : File) : written :=
  match rows with
  | [] => Written (Some file) None
  | (_, record) :: rest =>
      match line w record with
      | None => Panicked
      | Some l =>
          match WriteString w file l with
          | (file, Some e) => Written (Some file) (Some e)
          | (file, None) => writeResultsToFile_range w rest file
          end
      end
  end.

Definition writeResultsToFile (w : World) (filename : string)
    (results : gmap string FileRecord) : written :=
  match Create w filename with
  | Some e => Written None (Some e)
  | None =>
      let file := mkFile "" 0 in
      match WriteString w file header with
      | (file, Some e) => Written (Some file) (Some e)
      | (file, None) =>
          match WriteString w file divider with
          | (file, Some e) => Written (Some file) (Some e)
          | (file, None) =>
              writeResultsToFile_range w (MapOrder w (map_to_list results)) file
          end
      end
  end.

(** ** Orchestrator *)

Definition archiveDir : string := "X:/NETDBS".
Definition outputFile : string := "./latest_releases.txt".

(** [allFiles[file.Name] = append(allFiles[file.Name], file)] *)
Definition group_append (allFiles : gmap string (list FileRecord)) (file : FileRecord)
    : gmap string (list FileRecord) :=
  <[Name file := default [] (allFiles !! Name file) ++ [file]]> allFiles.

(** [for _, archivePath := range archives]: the grouping map and the
    warnings logged. *)
Fixpoint main_collect (w : World) (archives : list string)
    (allFiles : gmap string (list FileRecord)) (warnings : list string)
    : gmap string (list FileRecord) * list string :=
  match archives with
  | [] => (allFiles, warnings)
  | archivePath :: rest =>
      match extractFileInfoFromArchive w archivePath with
      | Err e =>
          main_collect w rest allFiles
            (warnings ++ ["Ошибка обработки архива " +:+ archivePath +:+ ": " +:+ e])
      | Ok files =>
          main_collect w rest (fold_left group_append files allFiles) warnings
      end
  end.

Inductive status : Type :=
| Success
| Fatal (msg : string)
| Panic.

Record Run : Type := mkRun {
  exit : status;
  stdout : list string;
  warnings : list string;
  grouping : gmap string (list FileRecord);
  latestReleases : gmap string FileRecord;
  report : option File
}.

Definition main (w : World) : Run :=
  let out := ["Поиск архивов в директории: " +:+ archiveDir +:+ nl] in
  match findArchiveFiles w archiveDir with
  | Err e => mkRun (Fatal ("Ошибка поиска архивов: " +:+ e)) out [] ∅ ∅ None
  | Ok archives =>
      if length archives =? 0 then mkRun (Fatal "Архивы не найдены") out [] ∅ ∅ None
      else
        let out := (out ++ ["Найдено архивов: " +:+ decimal (Z.of_nat (length archives)) +:+ nl]) in
        let '(allFiles, warns) := main_collect w archives ∅ [] in
        match determineLatestReleases allFiles with
        | None => mkRun Panic out warns allFiles ∅ None
        | Some (latest, allFiles') =>
            match writeResultsToFile w outputFile latest with
            | Panicked => mkRun Panic out warns allFiles' latest None
            | Written file (Some e) =>
                mkRun (Fatal ("Ошибка записи результатов: " +:+ e)) out warns
                  allFiles' latest file
            | Written file None =>
                mkRun Success
                  (out ++ ["Результаты сохранены в файл: " +:+ outputFile +:+ nl;
                           "Обработано уникальных файлов: " +:+
                             decimal (Z.of_nat (size latest)) +:+ nl])
                  warns allFiles' latest file
            end
        end
  end.

(** ** [path/filepath] and [strings]: what [isArchiveFile] calls

    [filepath.Ext] depends on the operating system through
    [os.IsPathSeparator]; [strings.ToLower] handles a string of ASCII bytes
    itself and leaves any other string to [unicode.ToLower], which is a
    parameter here.  A [World] whose [Ext] and [ToLower] are these functions
    is what the program runs in. *)

(** [os.IsPathSeparator]: the slash, and on Windows the backslash too. *)
Definition IsPathSeparator (windows : bool) (c : ascii) : bool :=
  Ascii.eqb c "/" || (windows && Ascii.eqb c "\").

(** [for i := len(path) - 1; i >= 0 && !os.IsPathSeparator(path[i]); i-- {
       if path[i] == '.' { return path[i:] } }
     return ""],
    with [n = i + 1]; [None] for an index out of range. *)
Fixpoint Ext_loop (windows : bool) (path : string) (n : nat) : option string :=
  match n with
  | 0 => Some ""
  | S i =>
      match String.get i path with
      | None => None
      | Some c =>
          if IsPathSeparator windows c then Some ""
          else if Ascii.eqb c "." then Some (String.substring i (String.length path - i) path)
          else Ext_loop windows path i
      end
  end.

Definition filepath_Ext (windows : bool) (path : string) : option string :=
  Ext_loop windows path (String.length path).

(** ['A' <= c && c <= 'Z'] *)
Definition isUpper (c : ascii) : bool := (65 <=? byte c) && (byte c <=? 90).

(** The first loop of [strings.ToLower]: the flags [isASCII] and
    [hasUpper]; the loop ends at the first byte outside ASCII. *)
Fixpoint ToLower_scan (s : string) (hasUpper : bool) : bool * bool :=
  match s with
  | EmptyString => (true, hasUpper)
  | String c rest =>
      if 128 <=? byte c then (false, hasUpper)
      else ToLower_scan rest (hasUpper || isUpper c)
  end.

(** The second loop: the builder [b] and the position [pos] up to which
    [s] was copied; [rest] is [s[i:]]. *)
Fixpoint ToLower_build (s rest : string) (i : nat) (b : string) (pos : nat)
    : string * nat :=
  match rest with
  | EmptyString => (b, pos)
  | String c rest' =>
      if isUpper c then
        let c := ascii_of_nat (byte c + (byte "a" - byte "A")) in
        let b := if pos <? i then b +:+ String.substring pos (i - pos) s else b in
        let b := b +:+ String c "" in
        ToLower_build s rest' (S i) b (S i)
      else ToLower_build s rest' (S i) b pos
  end.

Definition strings_ToLower (unicodeLower : string -> string) (s : string) : string :=
  let '(isASCII, hasUpper) := ToLower_scan s false in
  if isASCII then
    if negb hasUpper then s
    else
      let '(b, pos) := ToLower_build s s 0 "" 0 in
      if pos <? String.length s
      then b +:+ String.substring pos (String.length s - pos) s
      else b
  else unicodeLower s.

(** * The vocabulary of the claims, and example inputs *)

(** ** LatestResolver *)

(** The slice [versions] after [sort.Slice], and the element the resolver
    takes from it. *)
Definition sorted_versions (versions : list FileRecord) : list FileRecord :=
  default versions (sort.Slice byModTime versions).

Definition newest (versions : list FileRecord) : option FileRecord :=
  last (sorted_versions versions).

(** *** Example inputs *)

Definition at_time (n : Z) : Time := mkTime n 0.

(** A record of the file [name] found in [archive], whose modification time
    is [n] seconds. *)
Definition release (name archive : string) (n size : Z) : FileRecord :=
  mkFileRecord name (at_time n) ("X:/NETDBS/" +:+ archive) archive size.

(** Thirteen archives hold [lib.dll]; the first and the fifth share the
    greatest modification time. *)
Definition thirteen_versions : list FileRecord :=
  [ release "lib.dll" "a01.zip" 9 100; release "lib.dll" "a02.zip" 1 100;
    release "lib.dll" "a03.zip" 2 100; release "lib.dll" "a04.zip" 3 100;
    release "lib.dll" "a05.zip" 9 100; release "lib.dll" "a06.zip" 5 100;
    release "lib.dll" "a07.zip" 6 100; release "lib.dll" "a08.zip" 7 100;
    release "lib.dll" "a09.zip" 8 100; release "lib.dll" "a10.zip" 0 100;
    release "lib.dll" "a11.zip" 0 100; release "lib.dll" "a12.zip" 0 100;
    release "lib.dll" "a13.zip" 0 100 ].

Definition thirteen_archives : gmap string (list FileRecord) :=
  {[ "lib.dll" := thirteen_versions ]}.

(** Three archives hold [lib.dll], the last two with the same time; one
    holds [readme.txt]. *)
Definition three_versions : list FileRecord :=
  [ release "lib.dll" "a.zip" 1 100; release "lib.dll" "b.zip" 2 200;
    release "lib.dll" "c.zip" 2 300 ].

Definition three_archives : gmap string (list FileRecord) :=
  {[ "lib.dll" := three_versions; "readme.txt" := [release "readme.txt" "b.zip" 2 10] ]}.

(** [m] is, of the records of [versions] with the greatest modification
    time, the one that comes last. *)
Definition last_of_newest (versions : list FileRecord) (m : FileRecord) : Prop :=
  exists l1 l2, versions = l1 ++ m :: l2 /\
    Forall (fun x => Before (ModTime m) (ModTime x) = false) l1 /\
    Forall (fun x => Before (ModTime x) (ModTime m) = true) l2.

(** The tie-break as the specification states it. *)
Definition stable_tie_break : Prop :=
  forall (allFiles : gmap string (list FileRecord)) name versions m x,
    allFiles !! name = Some versions ->
    last_of_newest versions m ->
    x ∈ versions -> x <> m -> ModTime x = ModTime m ->
    exists latest allFiles',
      determineLatestReleases allFiles = Some (latest, allFiles') /\
      latest !! name = Some m.

Definition two_archives : gmap string (list FileRecord) :=
  {[ "lib.dll" := [release "lib.dll" "b.zip" 2 200; release "lib.dll" "a.zip" 1 100];
     "readme.txt" := [release "readme.txt" "b.zip" 2 10] ]}.

(** ** ArchiveInspector *)

(** The record made of the entry [f] of the archive at [archivePath]. *)
Definition record_of (w : World) (archivePath : string) (archiveInfo : FileInfo)
    (f : ZipFile) : FileRecord :=
  {| Name := zName f;
     ModTime := fiModTime archiveInfo;
     ArchivePath := archivePath;
     ArchiveName := Base w archivePath;
     Size := zUncompressedSize f |}.

(** *** An example tree: three archives, the third one corrupt *)

Fixpoint table {A : Type} (rows : list (string * A)) (other : A) (key : string) : A :=
  match rows with
  | [] => other
  | (k, v) :: rest => if String.eqb key k then v else table rest other key
  end.

Definition visit (path : string) (isDir : bool) : WalkVisit :=
  mkWalkVisit path (mkFileInfo isDir (at_time 0)) None.

Definition example_world : World := {|
  Walk := table
    [("X:/NETDBS", [visit "X:/NETDBS" true; visit "X:/NETDBS/a.zip" false;
                    visit "X:/NETDBS/b.ZIP" false; visit "X:/NETDBS/c.zip" false;
                    visit "X:/NETDBS/notes.txt" false])] [];
  Stat := table
    [("X:/NETDBS/a.zip", Ok (mkFileInfo false (at_time 1)));
     ("X:/NETDBS/b.ZIP", Ok (mkFileInfo false (at_time 2)));
     ("X:/NETDBS/c.zip", Ok (mkFileInfo false (at_time 3)));
     ("X:/OTHER/e.zip", Ok (mkFileInfo false (at_time 4)))]
    (Err "The system cannot find the file specified.");
  OpenReader := table
    [("X:/NETDBS/a.zip", Ok [mkZipFile "lib.dll" false 100]);
     ("X:/NETDBS/b.ZIP", Ok [mkZipFile "docs/" false 0; mkZipFile "bin" true 0;
                             mkZipFile "lib.dll" false 200;
                             mkZipFile "docs/readme.txt" false 10]);
     ("X:/OTHER/e.zip", Ok [mkZipFile "" false 7])]
    (Err "zip: not a valid zip file");
  Ext := table
    [("X:/NETDBS/a.zip", ".zip"); ("X:/NETDBS/b.ZIP", ".ZIP");
     ("X:/NETDBS/c.zip", ".zip"); ("X:/NETDBS/notes.txt", ".txt")] "";
  ToLower := fun s => table [(".ZIP", ".zip")] s s;
  Base := table
    [("X:/NETDBS/a.zip", "a.zip"); ("X:/NETDBS/b.ZIP", "b.ZIP");
     ("X:/NETDBS/c.zip", "c.zip"); ("X:/OTHER/e.zip", "e.zip")] "";
  Create := fun _ => None;
  WriteError := fun _ => None;
  FormatTime := fun t => "1970-01-01 00:00:0" +:+ decimal (sec t);
  MapOrder := fun l => l
|}.

(** ** ReportWriter *)

(** A string of ASCII bytes only. *)
Definition ascii_only (s : string) : Prop :=
  Forall (fun c => byte c < 128) (list_ascii_of_string s).

(** The name of the example: one two-byte letter, then fifty [a]. *)
Definition accented_name : string := "é" +:+ Repeat "a"%char 50.

Fixpoint ends_with_ellipsis (s : string) : bool :=
  match s with
  | EmptyString => false
  | String c rest => String.eqb s "..." || ends_with_ellipsis rest
  end.

(** The data lines of the rows, one after the other. *)
Fixpoint body_of (w : World) (rows : list (string * FileRecord)) : string :=
  match rows with
  | [] => ""
  | (_, record) :: rest => default "" (line w record) +:+ body_of w rest
  end.

(** ** Orchestrator *)

(** The grouping map has the record [r], under its name. *)
Definition holds (allFiles : gmap string (list FileRecord)) (r : FileRecord) : Prop :=
  exists versions, allFiles !! Name r = Some versions /\ r ∈ versions.

Definition warning (archivePath e : string) : string :=
  "Ошибка обработки архива " +:+ archivePath +:+ ": " +:+ e.

(** The claim C9 of the specification: the run succeeds, and every record of
    every archive that was inspected is in the grouping map and in the
    report. *)
Definition every_record_reported (w : World) : Prop :=
  forall archives,
    findArchiveFiles w archiveDir = Ok archives ->
    (exists p files, p ∈ archives /\ extractFileInfoFromArchive w p = Ok files) ->
    exit (main w) = Success /\
    forall p files r, p ∈ archives -> extractFileInfoFromArchive w p = Ok files ->
      r ∈ files ->
      holds (grouping (main w)) r /\ latestReleases (main w) !! Name r = Some r.

(** The example with a report file that cannot be created. *)
Definition read_only_world : World := {|
  Walk := Walk example_world;
  Stat := Stat example_world;
  OpenReader := OpenReader example_world;
  Ext := Ext example_world;
  ToLower := ToLower example_world;
  Base := Base example_world;
  Create := fun _ => Some "Access is denied.";
  WriteError := WriteError example_world;
  FormatTime := FormatTime example_world;
  MapOrder := MapOrder example_world
|}.

(** The report shows the record [chosen]: its line is part of the file. *)
Definition row_in_report (w : World) (run : Run) (chosen : FileRecord) : Prop :=
  exists file l before after,
    report run = Some file /\ line w chosen = Some l /\
    content file = header +:+ divider +:+ before +:+ l +:+ after.

(** * The vocabulary of the further properties, and more example inputs *)

(** ** ArchiveLocator *)

(** The visit makes its path an archive of the list: a file, not a
    directory, with the extension of an archive. *)
Definition is_archive_visit (w : World) (v : WalkVisit) : bool :=
  negb (fiIsDir (wInfo v)) && isArchiveFile w (wPath v).

(** A letter of [A-Z] as the letter of [a-z], any other byte as it is. *)
Definition lower_byte (c : ascii) : ascii :=
  if isUpper c then ascii_of_nat (byte c + 32) else c.

Fixpoint lower_string (s : string) : string :=
  match s with
  | EmptyString => EmptyString
  | String c rest => String (lower_byte c) (lower_string rest)
  end.

(** The example on Windows, with the library's own [filepath.Ext] and
    [strings.ToLower]. *)
Definition windows_world : World := {|
  Walk := Walk example_world;
  Stat := Stat example_world;
  OpenReader := OpenReader example_world;
  Ext := fun path => default "" (filepath_Ext true path);
  ToLower := strings_ToLower (fun s => s);
  Base := Base example_world;
  Create := Create example_world;
  WriteError := WriteError example_world;
  FormatTime := FormatTime example_world;
  MapOrder := MapOrder example_world
|}.

(** The example tree, with a directory that cannot be read after the first
    archive was found. *)
Definition unreadable_world : World := {|
  Walk := table
    [("X:/NETDBS", [visit "X:/NETDBS" true; visit "X:/NETDBS/a.zip" false;
                    mkWalkVisit "X:/NETDBS/private" (mkFileInfo true (at_time 0))
                      (Some "open X:/NETDBS/private: Access is denied.");
                    visit "X:/NETDBS/b.ZIP" false])] [];
  Stat := Stat example_world;
  OpenReader := OpenReader example_world;
  Ext := Ext example_world;
  ToLower := ToLower example_world;
  Base := Base example_world;
  Create := Create example_world;
  WriteError := WriteError example_world;
  FormatTime := FormatTime example_world;
  MapOrder := MapOrder example_world
|}.

(** A tree without archives: a text file, and a directory whose name ends
    in [.zip]. *)
Definition no_archive_world : World := {|
  Walk := table
    [("X:/NETDBS", [visit "X:/NETDBS" true; visit "X:/NETDBS/notes.txt" false;
                    visit "X:/NETDBS/c.zip" true])] [];
  Stat := Stat example_world;
  OpenReader := OpenReader example_world;
  Ext := Ext example_world;
  ToLower := ToLower example_world;
  Base := Base example_world;
  Create := Create example_world;
  WriteError := WriteError example_world;
  FormatTime := FormatTime example_world;
  MapOrder := MapOrder example_world
|}.

(** ** LatestResolver *)

(** Ascending order of modification times, as [sort.Slice] leaves a
    sequence: no record is older than a record before it. *)
Definition ascending (versions : list FileRecord) : Prop :=
  forall i j x y, i < j -> versions !! i = Some x -> versions !! j = Some y ->
    Before (ModTime y) (ModTime x) = false.

(** Fourteen archives hold [lib.dll]; the newest is the second. *)
Definition fourteen_versions : list FileRecord :=
  release "lib.dll" "a00.zip" 4 100 ::
  release "lib.dll" "a14.zip" 10 100 :: drop 1 thirteen_versions.

(** ** ReportWriter *)

(** The strings [writeResultsToFile] hands to [WriteString], in order: the
    header, the divider, and the line of every row. *)
Definition report_pieces (w : World) (results : gmap string FileRecord) : list string :=
  header :: divider ::
  ((fun row : string * FileRecord => default "" (line w row.2)) <$>
     MapOrder w (map_to_list results)).

(** The strings of a list, one after the other. *)
Definition joined (pieces : list string) : string := foldr String.append "" pieces.

Definition example_results : gmap string FileRecord :=
  {[ "lib.dll" := release "lib.dll" "c.zip" 2 300;
     "readme.txt" := release "readme.txt" "b.zip" 2 10 ]}.

(** The example with a disk that is full after the header, the divider,
    one line and the first 17 bytes of the next. *)
Definition full_disk_world : World := {|
  Walk := Walk example_world;
  Stat := Stat example_world;
  OpenReader := OpenReader example_world;
  Ext := Ext example_world;
  ToLower := ToLower example_world;
  Base := Base example_world;
  Create := Create example_world;
  WriteError := fun k =>
    if 3 <=? k then Some (17, "There is not enough space on the disk.") else None;
  FormatTime := FormatTime example_world;
  MapOrder := MapOrder example_world
|}.

(** ** Orchestrator *)

(** The records of the archives that could be inspected, in the order of
    discovery: archive after archive, and within an archive in the order of
    its central directory. *)
Definition inspected (w : World) (archives : list string) : list FileRecord :=
  archives ≫= (fun p => match extractFileInfoFromArchive w p with
                         | Ok files => files
                         | Err _ => []
                         end).

(** The warning an archive costs, if any. *)
Definition warning_of (w : World) (archivePath : string) : option string :=
  match extractFileInfoFromArchive w archivePath with
  | Ok _ => None
  | Err e => Some (warning archivePath e)
  end.

(** The sequence of a name after the records [vs] of that name were
    appended to it one by one. *)
Definition extended (l : option (list FileRecord)) (vs : list FileRecord)
    : option (list FileRecord) :=
  if decide (vs = []) then l else Some (default [] l ++ vs).

(** The names of the records of a list. *)
Definition names_of (records : list FileRecord) : gset string :=
  list_to_set (Name <$> records).

(** The example tree with archives that are all corrupt. *)
Definition corrupt_world : World := {|
  Walk := Walk example_world;
  Stat := Stat example_world;
  OpenReader := fun _ => Err "zip: not a valid zip file";
  Ext := Ext example_world;
  ToLower := ToLower example_world;
  Base := Base example_world;
  Create := Create example_world;
  WriteError := WriteError example_world;
  FormatTime := FormatTime example_world;
  MapOrder := MapOrder example_world
|}.

(** * Verification *)

Ltac Zify.zify_post_hook ::= Z.to_euclidean_division_equations.

(** ** Package [sort]: [sort.Slice] returns a sorted rearrangement

    Every function of the package gets a specification in the style of a
    weakest precondition; [pdqsort_func_spec] puts them together,
    [Slice_spec] states the result, [Slice_sorted_id] that a slice already in
    order is left alone, and [Slice_small] what happens to equal elements in
    a slice of at most [maxInsertion] elements. *)

Section sort_theory.

Context {A : Type} (less : A -> A -> bool).

Abbreviation M := (@sort.M A).
Abbreviation Less := (sort.Less less).
Abbreviation Swap := (@sort.Swap A).

(** [ok m d Q]: the computation [m] run on the slice [d] does not fail, and
    its result and final slice satisfy [Q]. *)
Definition ok {X : Type} (m : M X) (d : list A) (Q : X -> list A -> Prop) : Prop :=
  exists x d', m d = Some (x, d') /\ Q x d'.

(** [swaps a b d d']: [d'] is [d] after exchanges of elements at positions
    within [a, b). *)
Inductive swaps (a b : nat) : list A -> list A -> Prop :=
| swaps_refl d : swaps a b d d
| swaps_step d i j x y d' :
    a <= i < b -> a <= j < b -> d !! i = Some x -> d !! j = Some y ->
    swaps a b (<[j := x]> (<[i := y]> d)) d' -> swaps a b d d'.

(** The order [less] must be: irreflexive, transitive, and with a transitive
    complement (a strict weak order), as [sort.Slice] asks. *)
Class StrictWeak : Prop := {
  less_irrefl : forall x, less x x = false;
  less_trans : forall x y z, less x y = true -> less y z = true -> less x z = true;
  less_ntrans : forall x y z, less x y = false -> less y z = false -> less x z = false
}.

Context `{SW : StrictWeak}.

(** [d] is in ascending order on the positions [a, b). *)
Definition sorted_range (a b : nat) (d : list A) : Prop :=
  forall i j x y, a <= i -> i < j -> j < b ->
    d !! i = Some x -> d !! j = Some y -> less y x = false.

(** The state of a partition around the pivot [p] kept at position [a]:
    positions in (a, i) hold elements below [p], positions in (j, b) hold
    elements not below [p]. *)
Definition partitioning (a b i j : nat) (p : A) (d : list A) : Prop :=
  d !! a = Some p /\
  (forall k x, a < k < i -> d !! k = Some x -> less x p = true) /\
  (forall k x, j < k < b -> d !! k = Some x -> less x p = false).

(** What a partition of [a, b) around [p] leaves: [p] at [mid], smaller
    elements before it, the others after it. *)
Definition partitioned (a b mid : nat) (p : A) (d' : list A) : Prop :=
  a <= mid < b /\ d' !! mid = Some p /\
  (forall k x, a <= k < mid -> d' !! k = Some x -> less x p = true) /\
  (forall k x, mid < k < b -> d' !! k = Some x -> less x p = false).

(** Positions in (a, i) hold elements not above [p], positions in (j, b)
    hold elements above [p]. *)
Definition partitioningEqual (a b i j : nat) (p : A) (d : list A) : Prop :=
  d !! a = Some p /\
  (forall k x, a < k < i -> d !! k = Some x -> less p x = false) /\
  (forall k x, j < k < b -> d !! k = Some x -> less p x = true).

(** What [partitionEqual_func] leaves: elements not above [p] on [a, mid),
    elements above [p] on [mid, b). *)
Definition partitionedEqual (a b mid : nat) (p : A) (d' : list A) : Prop :=
  a < mid <= b /\
  (forall k x, a <= k < mid -> d' !! k = Some x -> less p x = false) /\
  (forall k x, mid <= k < b -> d' !! k = Some x -> less p x = true).

(** Every element of [a, b) is not below the element just before [a]. *)
Definition bounded_below (a b : nat) (d : list A) : Prop :=
  forall k x y, 0 < a -> a <= k < b ->
    d !! (a - 1) = Some y -> d !! k = Some x -> less x y = false.

(** The node [k] of the heap laid out from position [first] is not below
    its children (those among the first [hi] nodes). *)
Definition heap_ok (first hi : nat) (d : list A) (k : nat) : Prop :=
  forall c x y, c = 2 * k + 1 \/ c = 2 * k + 2 -> c < hi ->
    d !! (first + k) = Some x -> d !! (first + c) = Some y -> less x y = false.

Definition heap_from (first lo hi : nat) (d : list A) : Prop :=
  forall k, lo <= k -> heap_ok first hi d k.

(** Every element at a position of [a, b) satisfies [P]. *)
Definition range_Forall (P : A -> Prop) (a b : nat) (d : list A) : Prop :=
  forall k x, a <= k < b -> d !! k = Some x -> P x.

(** The whole slice is in ascending order. *)
Definition sorted (x : list A) : Prop := sorted_range 0 (length x) x.

(** Up to [maxInsertion] elements the sort is an insertion sort, which
    keeps equal elements in their order: the last place goes to the last of
    the greatest elements, [lastmax]. *)

(** The greater of [m] and a later element [y]; the later one on a tie. *)
Definition later_max (m y : A) : A := if less y m then m else y.

Definition lastmax (l : list A) : option A :=
  match l with
  | [] => None
  | x :: l' => Some (fold_left later_max l' x)
  end.

(** *** The calculus of [ok] and [swaps] *)

Lemma ok_ret {X : Type} (x : X) d (Q : X -> list A -> Prop) :
  Q x d -> ok (sort.ret x) d Q.
Proof. intros H. exists x, d. split; [reflexivity | exact H]. Qed.

Lemma ok_bind {X Y : Type} (m : M X) (k : X -> M Y) d (Q : Y -> list A -> Prop) :
  ok m d (fun x d' => ok (k x) d' Q) -> ok (sort.bind m k) d Q.
Proof.
  intros (x & d' & Hm & y & d'' & Hk & HQ).
  exists y, d''. split; [| exact HQ]. unfold sort.bind. rewrite Hm. exact Hk.
Qed.

Lemma bind_Some {X Y : Type} (m : M X) (k : X -> M Y) d x d' :
  m d = Some (x, d') -> sort.bind m k d = k x d'.
Proof. intros H. unfold sort.bind. rewrite H. reflexivity. Qed.

Lemma ok_mono {X : Type} (m : M X) d (Q Q' : X -> list A -> Prop) :
  ok m d Q -> (forall x d', Q x d' -> Q' x d') -> ok m d Q'.
Proof. intros (x & d' & Hm & HQ) H. exists x, d'. auto. Qed.

Lemma ok_Less i j d x y (Q : bool -> list A -> Prop) :
  d !! i = Some x -> d !! j = Some y -> Q (less x y) d -> ok (Less i j) d Q.
Proof.
  intros Hi Hj HQ. exists (less x y), d. split; [| exact HQ].
  unfold sort.Less. rewrite Hi, Hj. reflexivity.
Qed.

Lemma ok_Swap i j d x y (Q : unit -> list A -> Prop) :
  d !! i = Some x -> d !! j = Some y -> Q tt (<[j := x]> (<[i := y]> d)) ->
  ok (Swap i j) d Q.
Proof.
  intros Hi Hj HQ. exists tt, (<[j := x]> (<[i := y]> d)). split; [| exact HQ].
  unfold sort.Swap. rewrite Hi, Hj. reflexivity.
Qed.

Lemma swaps_trans a b d1 d2 d3 : swaps a b d1 d2 -> swaps a b d2 d3 -> swaps a b d1 d3.
Proof.
  induction 1 as [| d i j x y d' Hi Hj Hx Hy _ IH]; intros H3; [exact H3 |].
  apply (swaps_step a b d i j x y); auto.
Qed.

Lemma swaps_one a b d i j x y :
  a <= i < b -> a <= j < b -> d !! i = Some x -> d !! j = Some y ->
  swaps a b d (<[j := x]> (<[i := y]> d)).
Proof. intros. apply (swaps_step a b d i j x y); auto. apply swaps_refl. Qed.

Lemma swaps_mono a b a' b' d d' :
  a' <= a -> b <= b' -> swaps a b d d' -> swaps a' b' d d'.
Proof.
  intros Ha Hb. induction 1 as [| d i j x y d' Hi Hj Hx Hy _ IH]; [apply swaps_refl |].
  apply (swaps_step a' b' d i j x y); auto; lia.
Qed.

Lemma swaps_length a b d d' : swaps a b d d' -> length d' = length d.
Proof.
  induction 1 as [| d i j x y d' Hi Hj Hx Hy _ IH]; [reflexivity |].
  rewrite IH, !length_insert. reflexivity.
Qed.

Lemma swaps_outside a b d d' k :
  swaps a b d d' -> k < a \/ b <= k -> d' !! k = d !! k.
Proof.
  induction 1 as [| d i j x y d' Hi Hj Hx Hy _ IH]; intros Hk; [reflexivity |].
  rewrite IH by exact Hk.
  rewrite !list_lookup_insert_ne by lia. reflexivity.
Qed.

Lemma swap_lookup (d : list A) i j x y k :
  d !! i = Some x -> d !! j = Some y ->
  <[j := x]> (<[i := y]> d) !! k =
    if decide (k = j) then Some x else if decide (k = i) then Some y else d !! k.
Proof.
  intros Hi Hj.
  pose proof (lookup_lt_Some _ _ _ Hi). pose proof (lookup_lt_Some _ _ _ Hj).
  destruct (decide (k = j)) as [-> | Hkj].
  - rewrite list_lookup_insert_eq by (rewrite length_insert; lia). reflexivity.
  - rewrite list_lookup_insert_ne by congruence.
    destruct (decide (k = i)) as [-> | Hki].
    + rewrite list_lookup_insert_eq by lia. reflexivity.
    + rewrite list_lookup_insert_ne by congruence. reflexivity.
Qed.

Lemma insert_head_Permutation (d : list A) j y z :
  d !! j = Some y -> y :: <[j := z]> d ≡ₚ z :: d.
Proof.
  intros Hj. pose proof (lookup_lt_Some _ _ _ Hj) as Hlt.
  rewrite insert_take_drop by exact Hlt.
  rewrite <- (take_drop_middle d j y Hj) at 3.
  rewrite <- !Permutation_middle. apply perm_swap.
Qed.

Lemma swap_Permutation (d : list A) i j x y :
  d !! i = Some x -> d !! j = Some y -> <[j := x]> (<[i := y]> d) ≡ₚ d.
Proof.
  revert i j. induction d as [| z d IH]; intros i j Hi Hj; [discriminate |].
  destruct i as [| i], j as [| j]; simpl in *.
  - injection Hi as ->. injection Hj as ->. reflexivity.
  - injection Hi as ->. apply insert_head_Permutation. exact Hj.
  - injection Hj as ->. apply insert_head_Permutation. exact Hi.
  - constructor. apply IH; assumption.
Qed.

Lemma swaps_Permutation a b d d' : swaps a b d d' -> d ≡ₚ d'.
Proof.
  induction 1 as [| d i j x y d' Hi Hj Hx Hy _ IH]; [reflexivity |].
  rewrite <- IH. symmetry. apply swap_Permutation; assumption.
Qed.

(** An element found in the range after the exchanges was in the range
    before. *)
Lemma swaps_elem a b d d' k y :
  swaps a b d d' -> a <= k < b -> d' !! k = Some y ->
  exists k', a <= k' < b /\ d !! k' = Some y.
Proof.
  induction 1 as [| d i j x0 y0 d' Hi Hj Hx Hy _ IH]; intros Hk Hy'; [eauto |].
  destruct (IH Hk Hy') as (k' & Hk' & Hl).
  rewrite (swap_lookup d i j x0 y0 k' Hx Hy) in Hl.
  destruct (decide (k' = j)) as [-> | ?].
  - injection Hl as <-. eauto.
  - destruct (decide (k' = i)) as [-> | ?]; [injection Hl as <- |]; eauto.
Qed.

Lemma ok_Less_lt i j d (Q : bool -> list A -> Prop) :
  i < length d -> j < length d ->
  (forall x y, d !! i = Some x -> d !! j = Some y -> Q (less x y) d) ->
  ok (Less i j) d Q.
Proof.
  intros Hi Hj HQ.
  destruct (lookup_lt_is_Some_2 d i Hi) as [x Hx].
  destruct (lookup_lt_is_Some_2 d j Hj) as [y Hy].
  apply (ok_Less i j d x y); auto.
Qed.

Lemma ok_Swap_lt i j d (Q : unit -> list A -> Prop) :
  i < length d -> j < length d ->
  (forall x y, d !! i = Some x -> d !! j = Some y -> Q tt (<[j := x]> (<[i := y]> d))) ->
  ok (Swap i j) d Q.
Proof.
  intros Hi Hj HQ.
  destruct (lookup_lt_is_Some_2 d i Hi) as [x Hx].
  destruct (lookup_lt_is_Some_2 d j Hj) as [y Hy].
  apply (ok_Swap i j d x y); auto.
Qed.

(** *** [insertionSort_func] *)

Lemma less_asym x y : less x y = true -> less y x = false.
Proof.
  intros H. destruct (less y x) eqn:E; [| reflexivity].
  rewrite <- (less_irrefl x). symmetry. eapply less_trans; eauto.
Qed.

(** [less x y] and not [less z y] give [less x z]. *)
Lemma less_below x y z : less x y = true -> less z y = false -> less x z = true.
Proof.
  intros H1 H2. destruct (less x z) eqn:E; [reflexivity |].
  rewrite (less_ntrans x z y E H2) in H1. discriminate.
Qed.

(** not [less y x] and [less y z] give [less x z]. *)
Lemma less_above x y z : less y x = false -> less y z = true -> less x z = true.
Proof.
  intros H1 H2. destruct (less x z) eqn:E; [reflexivity |].
  rewrite (less_ntrans y x z H1 E) in H2. discriminate.
Qed.

Lemma insertionSort_shift_spec a i j d :
  a <= j <= i -> i < length d ->
  sorted_range a j d ->
  sorted_range (S j) (S i) d ->
  (forall p q x y, a <= p < j -> j < q <= i ->
     d !! p = Some x -> d !! q = Some y -> less y x = false) ->
  (forall q x y, j < q <= i -> d !! j = Some x -> d !! q = Some y -> less x y = true) ->
  ok (sort.insertionSort_shift less a j) d
     (fun _ d' => swaps a (S j) d d' /\ sorted_range a (S i) d').
Proof.
  revert d. induction j as [| j' IH]; intros d Hj Hi Hl Hr Hc Hx.
  - apply ok_ret. split; [apply swaps_refl |].
    intros p q x y Hp Hpq Hq Ex Ey.
    destruct (decide (p = 0)) as [-> | Hp0].
    + apply less_asym. apply (Hx q x y); auto; lia.
    + apply (Hr p q x y); auto; lia.
  - simpl. destruct (Nat.ltb_spec a (S j')) as [Ha | Ha].
    + apply ok_bind. apply ok_Less_lt; [lia | lia |]. intros x w Ex Ew.
      destruct (less x w) eqn:Ec.
      * apply ok_bind. apply (ok_Swap (S j') j' d x w); auto.
        set (d1 := <[j' := x]> (<[S j' := w]> d)).
        assert (Hd1 : forall k, d1 !! k =
                  if decide (k = j') then Some x
                  else if decide (k = S j') then Some w else d !! k)
          by (intros k; apply swap_lookup; assumption).
        eapply ok_mono.
        { apply (IH d1).
          - lia.
          - unfold d1. rewrite !length_insert. lia.
          - intros p q u v Hp Hpq Hq Eu Ev. rewrite Hd1 in Eu, Ev.
            repeat case_decide; try lia. apply (Hl p q u v); auto; lia.
          - intros p q u v Hp Hpq Hq Eu Ev. rewrite Hd1 in Eu, Ev.
            repeat case_decide; try lia.
            + injection Eu as <-. apply (Hc j' q w v); auto; lia.
            + apply (Hr p q u v); auto; lia.
          - intros p q u v Hp Hq Eu Ev. rewrite Hd1 in Eu, Ev.
            repeat case_decide; try lia.
            + injection Ev as <-. apply (Hl p j' u w); auto; lia.
            + apply (Hc p q u v); auto; lia.
          - intros q u v Hq Eu Ev. rewrite Hd1 in Eu, Ev.
            repeat case_decide; try lia.
            + injection Eu as <-. injection Ev as <-. exact Ec.
            + injection Eu as <-. apply (Hx q x v); auto; lia. }
        intros _ d' [Hs Hsorted]. split; [| exact Hsorted].
        apply (swaps_step a (S (S j')) d (S j') j' x w); auto; try lia.
        apply (swaps_mono a (S j')); auto.
      * apply ok_ret. split; [apply swaps_refl |].
        intros p q u v Hp Hpq Hq Eu Ev.
        destruct (Nat.lt_trichotomy q (S j')) as [Hq' | [-> | Hq']].
        -- apply (Hl p q u v); auto.
        -- assert (v = x) as -> by congruence.
           destruct (decide (p = j')) as [-> | Hpj].
           ++ assert (u = w) as -> by congruence. exact Ec.
           ++ apply (less_ntrans x w u Ec). apply (Hl p j' u w); auto; lia.
        -- destruct (Nat.lt_trichotomy p (S j')) as [Hp' | [-> | Hp']].
           ++ apply (Hc p q u v); auto; lia.
           ++ apply less_asym. apply (Hx q u v); auto; lia.
           ++ apply (Hr p q u v); auto; lia.
    + apply ok_ret. split; [apply swaps_refl |].
      intros p q u v Hp Hpq Hq Eu Ev.
      destruct (decide (p = S j')) as [-> | Hpj].
      * apply less_asym. apply (Hx q u v); auto; lia.
      * apply (Hr p q u v); auto; lia.
Qed.

Lemma insertionSort_loop_spec n a i d :
  a < i -> i + n <= length d -> sorted_range a i d ->
  ok (sort.insertionSort_loop less n a i) d
     (fun _ d' => swaps a (i + n) d d' /\ sorted_range a (i + n) d').
Proof.
  revert i d. induction n as [| n IH]; intros i d Ha Hlen Hs.
  - apply ok_ret. rewrite Nat.add_0_r. split; [apply swaps_refl | exact Hs].
  - simpl. apply ok_bind.
    eapply ok_mono.
    { apply (insertionSort_shift_spec a i i d); auto; try lia.
      all: unfold sorted_range; intros; lia. }
    intros _ d1 [Hsw Hsorted].
    pose proof (swaps_length _ _ _ _ Hsw) as Hlen1.
    eapply ok_mono.
    { apply (IH (S i) d1); auto; lia. }
    intros _ d' [Hsw' Hsorted'].
    replace (i + S n) with (S i + n) by lia. split; [| exact Hsorted'].
    eapply swaps_trans; [| exact Hsw'].
    apply (swaps_mono a (S i)); auto; lia.
Qed.

Lemma insertionSort_func_spec a b d :
  a <= b <= length d ->
  ok (sort.insertionSort_func less a b) d
     (fun _ d' => swaps a b d d' /\ sorted_range a b d').
Proof.
  intros Hab. unfold sort.insertionSort_func.
  destruct (decide (b <= a + 1)) as [Hsmall | Hbig].
  - replace (b - (a + 1)) with 0 by lia. apply ok_ret.
    split; [apply swaps_refl |]. intros i j x y Hi Hij Hj. lia.
  - eapply ok_mono.
    { apply (insertionSort_loop_spec (b - (a + 1)) a (a + 1) d); try lia.
      all: unfold sorted_range; intros; lia. }
    intros u d'. simpl. replace (a + 1 + (b - (a + 1))) with b by lia. auto.
Qed.

(** *** [partition_func] *)

Lemma partition_up_spec fuel a i j d p :
  d !! a = Some p -> i <= j + 1 -> j < length d -> j + 1 - i < fuel ->
  ok (sort.partition_up less fuel a i j) d
     (fun i' d' => d' = d /\ i <= i' <= j + 1 /\
        (forall k x, i <= k < i' -> d !! k = Some x -> less x p = true) /\
        (i' <= j -> exists x, d !! i' = Some x /\ less x p = false)).
Proof.
  intros Hp. revert i. induction fuel as [| fuel IH]; intros i Hi Hj Hf; [lia |].
  simpl. destruct (Nat.leb_spec i j) as [Hij | Hij].
  - apply ok_bind. apply ok_Less_lt; [lia | eapply lookup_lt_Some; eauto |].
    intros x p' Ex Ep. assert (p' = p) as -> by congruence.
    destruct (less x p) eqn:Ec.
    + eapply ok_mono; [apply (IH (S i)); lia |].
      intros i' d' (-> & Hi' & Hlt & Hstop).
      split; [reflexivity | split; [lia | split; [| exact Hstop]]].
      intros k y Hk Ey. destruct (decide (k = i)) as [-> | Hne].
      * congruence.
      * apply (Hlt k y); auto; lia.
    + apply ok_ret. split; [reflexivity | split; [lia | split]].
      * intros k y Hk. lia.
      * intros _. eauto.
  - apply ok_ret. split; [reflexivity | split; [lia | split]].
    + intros k y Hk. lia.
    + intros Hc. lia.
Qed.

Lemma partition_down_spec fuel a i j d p :
  d !! a = Some p -> 1 <= i -> i <= j + 1 -> j < length d -> j + 1 - i < fuel ->
  ok (sort.partition_down less fuel a i j) d
     (fun j' d' => d' = d /\ i <= j' + 1 /\ j' <= j /\
        (forall k x, j' < k <= j -> d !! k = Some x -> less x p = false) /\
        (i <= j' -> exists x, d !! j' = Some x /\ less x p = true)).
Proof.
  intros Hp Hi1. revert j. induction fuel as [| fuel IH]; intros j Hi Hj Hf; [lia |].
  simpl. destruct (Nat.leb_spec i j) as [Hij | Hij].
  - apply ok_bind. apply ok_Less_lt; [lia | eapply lookup_lt_Some; eauto |].
    intros x p' Ex Ep. assert (p' = p) as -> by congruence.
    destruct (less x p) eqn:Ec; simpl.
    + apply ok_ret. split; [reflexivity | split; [lia | split; [lia | split]]].
      * intros k y Hk. lia.
      * intros _. eauto.
    + eapply ok_mono; [apply (IH (j - 1)); lia |].
      intros j' d' (-> & Hj' & Hle & Hge & Hstop).
      split; [reflexivity | split; [lia | split; [lia | split; [| exact Hstop]]]].
      intros k y Hk Ey. destruct (decide (k = j)) as [-> | Hne].
      * congruence.
      * apply (Hge k y); auto; lia.
  - apply ok_ret. split; [reflexivity | split; [lia | split; [lia | split]]].
    + intros k y Hk. lia.
    + intros Hc. lia.
Qed.

Lemma partition_loop_spec fuel a b i j d p :
  a < i -> i <= j + 1 -> j < b <= length d -> partitioning a b i j p d ->
  j + 1 - i < fuel ->
  ok (sort.partition_loop less fuel a i j) d
     (fun ij d' => swaps (S a) b d d' /\ snd ij + 1 = fst ij /\ a <= snd ij < b /\
        partitioning a b (fst ij) (snd ij) p d').
Proof.
  revert i j d. induction fuel as [| fuel IH]; intros i j d Ha Hi Hj HP Hf; [lia |].
  destruct HP as (Hp & Hlo & Hhi).
  cbn [sort.partition_loop]. apply ok_bind.
  eapply ok_mono; [apply (partition_up_spec _ a i j d p); auto; lia |].
  intros i1 d1 (-> & Hi1 & Hup & Hstop1).
  apply ok_bind.
  eapply ok_mono; [apply (partition_down_spec _ a i1 j d p); auto; lia |].
  intros j1 d1 (-> & Hj1 & Hj1' & Hdown & Hstop2).
  destruct (Nat.ltb_spec j1 i1) as [Hbrk | Hcont].
  - apply ok_ret. simpl. split; [apply swaps_refl |]. repeat split; try lia; auto.
    + intros k x Hk Ex. destruct (decide (k < i)).
      * apply (Hlo k x); auto; lia.
      * apply (Hup k x); auto; lia.
    + intros k x Hk Ex. destruct (decide (j < k)).
      * apply (Hhi k x); auto; lia.
      * apply (Hdown k x); auto; lia.
  - destruct (Hstop1 ltac:(lia)) as (x1 & Ex1 & Hx1).
    destruct (Hstop2 Hcont) as (y1 & Ey1 & Hy1).
    assert (i1 <> j1) by (intros ->; congruence).
    apply ok_bind. apply (ok_Swap i1 j1 d x1 y1); auto.
    set (d2 := <[j1 := x1]> (<[i1 := y1]> d)).
    assert (Hd2 : forall k, d2 !! k =
              if decide (k = j1) then Some x1
              else if decide (k = i1) then Some y1 else d !! k)
      by (intros k; apply swap_lookup; assumption).
    eapply ok_mono.
    { apply (IH (S i1) (j1 - 1) d2); try lia.
      - unfold d2. rewrite !length_insert. lia.
      - repeat split.
        + rewrite Hd2. repeat case_decide; try lia. exact Hp.
        + intros k x Hk Ex. rewrite Hd2 in Ex. repeat case_decide; try lia.
          * congruence.
          * destruct (decide (k < i)).
            -- apply (Hlo k x); auto; lia.
            -- apply (Hup k x); auto; lia.
        + intros k x Hk Ex. rewrite Hd2 in Ex. repeat case_decide; try lia.
          * congruence.
          * destruct (decide (j < k)).
            -- apply (Hhi k x); auto; lia.
            -- apply (Hdown k x); auto; lia. }
    intros ij d' (Hsw & Hij & Hb & HP'). split; [| auto].
    apply (swaps_step (S a) b d i1 j1 x1 y1); auto; lia.
Qed.

Lemma partition_func_spec a b pivot d p :
  a <= pivot < b -> b <= length d -> d !! pivot = Some p ->
  ok (sort.partition_func less a b pivot) d
     (fun r d' => swaps a b d d' /\ partitioned a b (fst r) p d').
Proof.
  intros Hpiv Hb Ep. unfold sort.partition_func.
  destruct (lookup_lt_is_Some_2 d a ltac:(lia)) as [xa Exa].
  apply ok_bind. apply (ok_Swap a pivot d xa p); auto.
  set (d0 := <[pivot := xa]> (<[a := p]> d)).
  assert (Hd0 : forall k, d0 !! k =
            if decide (k = pivot) then Some xa
            else if decide (k = a) then Some p else d !! k)
    by (intros k; apply swap_lookup; assumption).
  assert (Hsw0 : swaps a b d d0) by (apply swaps_one; auto; lia).
  assert (Hlen0 : length d0 = length d) by (unfold d0; rewrite !length_insert; lia).
  assert (Hp0 : d0 !! a = Some p).
  { rewrite Hd0. repeat case_decide; subst; congruence. }
  clearbody d0. clear Hd0.
  (* the pending finish: exchange the pivot with position [j] *)
  assert (Hfinish : forall j d1 flag,
    swaps (S a) b d0 d1 -> a <= j < b -> partitioning a b (j + 1) j p d1 ->
    ok (sort.bind (Swap j a) (fun _ => sort.ret (j, flag))) d1
       (fun (r : nat * bool) d' => swaps a b d d' /\ partitioned a b (fst r) p d')).
  { unfold partitioned. intros j d1 flag Hsw1 Hj (Hp1 & Hlo & Hhi).
    pose proof (swaps_length _ _ _ _ Hsw1) as Hlen1.
    destruct (lookup_lt_is_Some_2 d1 j ltac:(lia)) as [xj Exj].
    apply ok_bind. apply (ok_Swap j a d1 xj p); auto.
    set (d2 := <[a := xj]> (<[j := p]> d1)).
    assert (Hd2 : forall k, d2 !! k =
              if decide (k = a) then Some xj
              else if decide (k = j) then Some p else d1 !! k)
      by (intros k; apply swap_lookup; assumption).
    apply ok_ret. simpl. split; [| split; [lia | split; [| split]]].
    - eapply swaps_trans; [exact Hsw0 |].
      eapply swaps_trans; [apply (swaps_mono (S a) b); eauto |].
      apply swaps_one; auto; lia.
    - rewrite Hd2. repeat case_decide; try lia; congruence.
    - intros k x Hk Ex. rewrite Hd2 in Ex. repeat case_decide; try lia.
      + injection Ex as <-. apply (Hlo j xj); auto; lia.
      + apply (Hlo k x); auto; lia.
    - intros k x Hk Ex. rewrite Hd2 in Ex. repeat case_decide; try lia.
      apply (Hhi k x); auto; lia. }
  apply ok_bind.
  eapply ok_mono; [apply (partition_up_spec _ a (a + 1) (b - 1) d0 p); auto; lia |].
  intros i1 d1 (-> & Hi1 & Hup & Hstop1).
  apply ok_bind.
  eapply ok_mono; [apply (partition_down_spec _ a i1 (b - 1) d0 p); auto; lia |].
  intros j1 d1 (-> & Hj1 & Hj1' & Hdown & Hstop2).
  destruct (Nat.ltb_spec j1 i1) as [Hbrk | Hcont].
  - apply Hfinish; [apply swaps_refl | lia |].
    repeat split; auto.
    + intros k x Hk Ex. apply (Hup k x); auto; lia.
    + intros k x Hk Ex. apply (Hdown k x); auto; lia.
  - destruct (Hstop1 ltac:(lia)) as (x1 & Ex1 & Hx1).
    destruct (Hstop2 Hcont) as (y1 & Ey1 & Hy1).
    assert (i1 <> j1) by (intros ->; congruence).
    apply ok_bind. apply (ok_Swap i1 j1 d0 x1 y1); auto.
    set (d2 := <[j1 := x1]> (<[i1 := y1]> d0)).
    assert (Hd2 : forall k, d2 !! k =
              if decide (k = j1) then Some x1
              else if decide (k = i1) then Some y1 else d0 !! k)
      by (intros k; apply swap_lookup; assumption).
    apply ok_bind.
    eapply ok_mono.
    { apply (partition_loop_spec _ a b (S i1) (j1 - 1) d2 p); try lia.
      - unfold d2. rewrite !length_insert. lia.
      - repeat split.
        + rewrite Hd2. repeat case_decide; try lia. exact Hp0.
        + intros k x Hk Ex. rewrite Hd2 in Ex. repeat case_decide; try lia.
          * congruence.
          * apply (Hup k x); auto; lia.
        + intros k x Hk Ex. rewrite Hd2 in Ex. repeat case_decide; try lia.
          * congruence.
          * apply (Hdown k x); auto; lia. }
    intros [i' j'] d' (Hsw & Hij & Hbnd & HP'). simpl in *.
    apply Hfinish; [| lia | rewrite Hij; exact HP'].
    apply (swaps_step (S a) b d0 i1 j1 x1 y1); auto; lia.
Qed.

(** *** [partitionEqual_func] *)

Lemma partitionEqual_up_spec fuel a i j d p :
  d !! a = Some p -> i <= j + 1 -> j < length d -> j + 1 - i < fuel ->
  ok (sort.partitionEqual_up less fuel a i j) d
     (fun i' d' => d' = d /\ i <= i' <= j + 1 /\
        (forall k x, i <= k < i' -> d !! k = Some x -> less p x = false) /\
        (i' <= j -> exists x, d !! i' = Some x /\ less p x = true)).
Proof.
  intros Hp. revert i. induction fuel as [| fuel IH]; intros i Hi Hj Hf; [lia |].
  simpl. destruct (Nat.leb_spec i j) as [Hij | Hij].
  - apply ok_bind. apply ok_Less_lt; [eapply lookup_lt_Some; eauto | lia |].
    intros p' x Ep Ex. assert (p' = p) as -> by congruence.
    destruct (less p x) eqn:Ec; simpl.
    + apply ok_ret. split; [reflexivity | split; [lia | split]].
      * intros k y Hk. lia.
      * intros _. eauto.
    + eapply ok_mono; [apply (IH (S i)); lia |].
      intros i' d' (-> & Hi' & Hlt & Hstop).
      split; [reflexivity | split; [lia | split; [| exact Hstop]]].
      intros k y Hk Ey. destruct (decide (k = i)) as [-> | Hne].
      * congruence.
      * apply (Hlt k y); auto; lia.
  - apply ok_ret. split; [reflexivity | split; [lia | split]].
    + intros k y Hk. lia.
    + intros Hc. lia.
Qed.

Lemma partitionEqual_down_spec fuel a i j d p :
  d !! a = Some p -> 1 <= i -> i <= j + 1 -> j < length d -> j + 1 - i < fuel ->
  ok (sort.partitionEqual_down less fuel a i j) d
     (fun j' d' => d' = d /\ i <= j' + 1 /\ j' <= j /\
        (forall k x, j' < k <= j -> d !! k = Some x -> less p x = true) /\
        (i <= j' -> exists x, d !! j' = Some x /\ less p x = false)).
Proof.
  intros Hp Hi1. revert j. induction fuel as [| fuel IH]; intros j Hi Hj Hf; [lia |].
  simpl. destruct (Nat.leb_spec i j) as [Hij | Hij].
  - apply ok_bind. apply ok_Less_lt; [eapply lookup_lt_Some; eauto | lia |].
    intros p' x Ep Ex. assert (p' = p) as -> by congruence.
    destruct (less p x) eqn:Ec; simpl.
    + eapply ok_mono; [apply (IH (j - 1)); lia |].
      intros j' d' (-> & Hj' & Hle & Hge & Hstop).
      split; [reflexivity | split; [lia | split; [lia | split; [| exact Hstop]]]].
      intros k y Hk Ey. destruct (decide (k = j)) as [-> | Hne].
      * congruence.
      * apply (Hge k y); auto; lia.
    + apply ok_ret. split; [reflexivity | split; [lia | split; [lia | split]]].
      * intros k y Hk. lia.
      * intros _. eauto.
  - apply ok_ret. split; [reflexivity | split; [lia | split; [lia | split]]].
    + intros k y Hk. lia.
    + intros Hc. lia.
Qed.

Lemma partitionEqual_loop_spec fuel a b i j d p :
  a < i -> i <= j + 1 -> j < b <= length d -> partitioningEqual a b i j p d ->
  j + 1 - i < fuel ->
  ok (sort.partitionEqual_loop less fuel a i j) d
     (fun mid d' => swaps (S a) b d d' /\ a < mid <= b /\
        partitioningEqual a b mid (mid - 1) p d').
Proof.
  revert i j d. induction fuel as [| fuel IH]; intros i j d Ha Hi Hj HP Hf; [lia |].
  destruct HP as (Hp & Hlo & Hhi).
  cbn [sort.partitionEqual_loop]. apply ok_bind.
  eapply ok_mono; [apply (partitionEqual_up_spec _ a i j d p); auto; lia |].
  intros i1 d1 (-> & Hi1 & Hup & Hstop1).
  apply ok_bind.
  eapply ok_mono; [apply (partitionEqual_down_spec _ a i1 j d p); auto; lia |].
  intros j1 d1 (-> & Hj1 & Hj1' & Hdown & Hstop2).
  destruct (Nat.ltb_spec j1 i1) as [Hbrk | Hcont].
  - apply ok_ret. split; [apply swaps_refl |]. split; [lia |].
    split; [exact Hp | split].
    + intros k x Hk Ex. destruct (decide (k < i)).
      * apply (Hlo k x); auto; lia.
      * apply (Hup k x); auto; lia.
    + intros k x Hk Ex. destruct (decide (j < k)).
      * apply (Hhi k x); auto; lia.
      * apply (Hdown k x); auto; lia.
  - destruct (Hstop1 ltac:(lia)) as (x1 & Ex1 & Hx1).
    destruct (Hstop2 Hcont) as (y1 & Ey1 & Hy1).
    assert (i1 <> j1) by (intros ->; congruence).
    apply ok_bind. apply (ok_Swap i1 j1 d x1 y1); auto.
    set (d2 := <[j1 := x1]> (<[i1 := y1]> d)).
    assert (Hd2 : forall k, d2 !! k =
              if decide (k = j1) then Some x1
              else if decide (k = i1) then Some y1 else d !! k)
      by (intros k; apply swap_lookup; assumption).
    eapply ok_mono.
    { apply (IH (S i1) (j1 - 1) d2); try lia.
      - unfold d2. rewrite !length_insert. lia.
      - split; [| split].
        + rewrite Hd2. repeat case_decide; try lia. exact Hp.
        + intros k x Hk Ex. rewrite Hd2 in Ex. repeat case_decide; try lia.
          * congruence.
          * destruct (decide (k < i)).
            -- apply (Hlo k x); auto; lia.
            -- apply (Hup k x); auto; lia.
        + intros k x Hk Ex. rewrite Hd2 in Ex. repeat case_decide; try lia.
          * congruence.
          * destruct (decide (j < k)).
            -- apply (Hhi k x); auto; lia.
            -- apply (Hdown k x); auto; lia. }
    intros mid d' (Hsw & Hmid & HP'). split; [| auto].
    apply (swaps_step (S a) b d i1 j1 x1 y1); auto; lia.
Qed.

Lemma partitionEqual_func_spec a b pivot d p :
  a <= pivot < b -> b <= length d -> d !! pivot = Some p ->
  ok (sort.partitionEqual_func less a b pivot) d
     (fun mid d' => swaps a b d d' /\ partitionedEqual a b mid p d').
Proof.
  intros Hpiv Hb Ep. unfold sort.partitionEqual_func.
  destruct (lookup_lt_is_Some_2 d a ltac:(lia)) as [xa Exa].
  apply ok_bind. apply (ok_Swap a pivot d xa p); auto.
  set (d0 := <[pivot := xa]> (<[a := p]> d)).
  assert (Hd0 : forall k, d0 !! k =
            if decide (k = pivot) then Some xa
            else if decide (k = a) then Some p else d !! k)
    by (intros k; apply swap_lookup; assumption).
  assert (Hsw0 : swaps a b d d0) by (apply swaps_one; auto; lia).
  assert (Hlen0 : length d0 = length d) by (unfold d0; rewrite !length_insert; lia).
  assert (Hp0 : d0 !! a = Some p).
  { rewrite Hd0. repeat case_decide; subst; congruence. }
  clearbody d0. clear Hd0.
  eapply ok_mono.
  { apply (partitionEqual_loop_spec _ a b (a + 1) (b - 1) d0 p); try lia.
    split; [exact Hp0 | split]; intros k x Hk; lia. }
  intros mid d' (Hsw & Hmid & Hp' & Hlo & Hhi). split.
  - eapply swaps_trans; [exact Hsw0 |]. apply (swaps_mono (S a) b); auto.
  - split; [lia | split].
    + intros k x Hk Ex. destruct (decide (k = a)) as [-> | Hne].
      * assert (x = p) as -> by congruence. apply less_irrefl.
      * apply (Hlo k x); auto; lia.
    + intros k x Hk Ex. apply (Hhi k x); auto; lia.
Qed.

(** *** [reverseRange_func], [breakPatterns_func], [choosePivot_func] *)

Lemma ok_and {X : Type} (m : M X) d (Q1 Q2 : X -> list A -> Prop) :
  ok m d Q1 -> ok m d Q2 -> ok m d (fun x d' => Q1 x d' /\ Q2 x d').
Proof.
  intros (x & d' & Hm & H1) (x' & d'' & Hm' & H2).
  rewrite Hm in Hm'. injection Hm' as <- <-. exists x, d'. auto.
Qed.

Lemma reverseRange_loop_spec fuel a b i j d :
  a <= i -> j < b <= length d -> j - i < fuel ->
  ok (sort.reverseRange_loop fuel i j) d (fun _ d' => swaps a b d d').
Proof.
  revert i j d. induction fuel as [| fuel IH]; intros i j d Hi Hj Hf; [lia |].
  simpl. destruct (Nat.ltb_spec i j) as [Hij | Hij].
  - apply ok_bind. apply ok_Swap_lt; [lia | lia |]. intros x y Ex Ey.
    eapply ok_mono.
    { apply (IH (S i) (j - 1)); try lia. rewrite !length_insert. lia. }
    intros u d' Hsw. apply (swaps_step a b d i j x y); auto; lia.
  - apply ok_ret. apply swaps_refl.
Qed.

Lemma reverseRange_func_spec a b d :
  a < b <= length d ->
  ok (sort.reverseRange_func a b) d (fun _ d' => swaps a b d d').
Proof.
  intros Hab. unfold sort.reverseRange_func.
  apply (reverseRange_loop_spec _ a b); lia.
Qed.

Lemma bits_Len_spec n : 0 < n -> n < 2 ^ sort.bits_Len n <= 2 * n.
Proof.
  intros Hn. unfold sort.bits_Len. destruct n as [| n]; [lia |].
  pose proof (Nat.log2_spec (S n) Hn) as H. rewrite Nat.pow_succ_r' in *. lia.
Qed.

Lemma mask_lt (r : Z) (k : nat) :
  Z.to_nat (Z.land r (Z.of_nat (2 ^ k) - 1)) < 2 ^ k.
Proof.
  assert (Hpow : Z.of_nat (2 ^ k) = (2 ^ Z.of_nat k)%Z).
  { rewrite Nat2Z.inj_pow. reflexivity. }
  rewrite Hpow. replace (2 ^ Z.of_nat k - 1)%Z with (Z.ones (Z.of_nat k)).
  - rewrite Z.land_ones by lia.
    pose proof (Z.mod_pos_bound r (2 ^ Z.of_nat k) ltac:(lia)). lia.
  - rewrite Z.ones_equiv. lia.
Qed.

Lemma breakPatterns_loop_spec n i a b idx k random d :
  a < b <= length d -> 2 ^ k <= 2 * (b - a) ->
  a <= idx - 1 + i -> idx - 1 + i + n <= b ->
  ok (sort.breakPatterns_loop n i a (b - a) idx (2 ^ k) random) d
     (fun _ d' => swaps a b d d').
Proof.
  revert i random d. induction n as [| n IH]; intros i random d Hab Hk Hlo Hhi.
  - apply ok_ret. apply swaps_refl.
  - cbn [sort.breakPatterns_loop].
    set (r := sort.xorshift_Next random).
    pose proof (mask_lt r k) as Hmask.
    set (other := Z.to_nat (Z.land r (Z.of_nat (2 ^ k) - 1))) in *.
    set (other' := if b - a <=? other then other - (b - a) else other).
    assert (Hother : other' < b - a).
    { unfold other'. destruct (Nat.leb_spec (b - a) other); lia. }
    apply ok_bind. apply ok_Swap_lt; [lia | lia |]. intros x y Ex Ey.
    eapply ok_mono.
    { apply (IH (S i)); try lia. rewrite !length_insert. lia. }
    intros u d' Hsw.
    apply (swaps_step a b d (idx - 1 + i) (a + other') x y); auto; lia.
Qed.

Lemma breakPatterns_func_spec a b d :
  a <= b <= length d ->
  ok (sort.breakPatterns_func a b) d (fun _ d' => swaps a b d d').
Proof.
  intros Hab. unfold sort.breakPatterns_func.
  destruct (Nat.leb_spec 8 (b - a)) as [H8 | H8].
  - pose proof (bits_Len_spec (b - a) ltac:(lia)) as Hbits.
    unfold sort.nextPowerOfTwo.
    apply breakPatterns_loop_spec; lia.
  - apply ok_ret. apply swaps_refl.
Qed.

(** [order2_func], [median_func]: the slice is only read, and the index
    returned is one of those given. *)
Lemma order2_func_spec x y swaps d :
  x < length d -> y < length d ->
  ok (sort.order2_func less x y swaps) d
     (fun r d' => d' = d /\
        ((fst (fst r) = x /\ snd (fst r) = y) \/ (fst (fst r) = y /\ snd (fst r) = x))).
Proof.
  intros Hx Hy. unfold sort.order2_func.
  apply ok_bind. apply ok_Less_lt; auto. intros u v Eu Ev.
  destruct (less u v); apply ok_ret; simpl; auto.
Qed.

Lemma median_func_spec x y z swaps d :
  x < length d -> y < length d -> z < length d ->
  ok (sort.median_func less x y z swaps) d
     (fun r d' => d' = d /\ (fst r = x \/ fst r = y \/ fst r = z)).
Proof.
  intros Hx Hy Hz. unfold sort.median_func.
  apply ok_bind. eapply ok_mono; [apply order2_func_spec; auto |].
  intros [[x1 y1] s1] d1 (-> & H1). simpl in H1.
  apply ok_bind. eapply ok_mono; [apply order2_func_spec; lia |].
  intros [[y2 z2] s2] d2 (-> & H2). simpl in H2.
  apply ok_bind. eapply ok_mono; [apply order2_func_spec; lia |].
  intros [[x3 y3] s3] d3 (-> & H3). simpl in H3.
  apply ok_ret. simpl. split; [reflexivity | lia].
Qed.

Lemma choosePivot_func_spec a b d :
  8 <= b - a -> b <= length d ->
  ok (sort.choosePivot_func less a b) d
     (fun r d' => d' = d /\ a <= fst r < b).
Proof.
  intros H8 Hb. unfold sort.choosePivot_func.
  assert (Hfin : forall (r : nat * nat), a <= fst r < b ->
    ok (let '(j, swaps) := r in
        if swaps =? 0 then sort.ret (j, sort.increasingHint)
        else if swaps =? sort.maxSwaps then sort.ret (j, sort.decreasingHint)
        else sort.ret (j, sort.unknownHint)) d
       (fun (r : nat * sort.sortedHint) d' => d' = d /\ a <= fst r < b)).
  { intros [j swaps] Hj.
    destruct (swaps =? 0); [| destruct (swaps =? sort.maxSwaps)];
      apply ok_ret; auto. }
  apply ok_bind.
  rewrite (proj2 (Nat.leb_le 8 (b - a)) H8).
  apply ok_bind.
  destruct (Nat.leb_spec sort.shortestNinther (b - a)) as [H50 | H50].
  - unfold sort.shortestNinther in H50. unfold sort.medianAdjacent_func.
    apply ok_bind. eapply ok_mono; [apply median_func_spec; lia |].
    intros [i1 s1] d1 (-> & Hi1). cbn [fst snd] in Hi1.
    apply ok_bind. eapply ok_mono; [apply median_func_spec; lia |].
    intros [j1 s2] d1 (-> & Hj1). cbn [fst snd] in Hj1.
    apply ok_bind. eapply ok_mono; [apply median_func_spec; lia |].
    intros [k1 s3] d1 (-> & Hk1). cbn [fst snd] in Hk1.
    apply ok_ret. cbn [fst snd].
    eapply ok_mono; [apply median_func_spec; lia |].
    intros r d1 (-> & Hr). apply Hfin. lia.
  - apply ok_ret.
    eapply ok_mono; [apply median_func_spec; lia |].
    intros r d1 (-> & Hr). apply Hfin. lia.
Qed.

(** *** [partialInsertionSort_func] *)

Lemma swaps_bounded_below a b a' b' d d' :
  a <= a' -> b' <= b -> swaps a' b' d d' ->
  bounded_below a b d -> bounded_below a b d'.
Proof.
  intros Ha Hb Hsw Hbb k x y Ha0 Hk Ey Ex.
  rewrite (swaps_outside _ _ _ _ (a - 1) Hsw) in Ey by lia.
  destruct (decide (a' <= k < b')) as [Hin | Hout].
  - destruct (swaps_elem _ _ _ _ k x Hsw Hin Ex) as (k' & Hk' & Ex').
    apply (Hbb k' x y); auto; lia.
  - rewrite (swaps_outside _ _ _ _ k Hsw) in Ex by lia.
    apply (Hbb k x y); auto.
Qed.

Lemma sorted_range_outside a b a' b' d d' :
  swaps a' b' d d' -> b <= a' \/ b' <= a ->
  sorted_range a b d -> sorted_range a b d'.
Proof.
  intros Hsw Hdisj Hs i j x y Hi Hij Hj Ex Ey.
  rewrite (swaps_outside _ _ _ _ i Hsw) in Ex by lia.
  rewrite (swaps_outside _ _ _ _ j Hsw) in Ey by lia.
  apply (Hs i j x y); auto.
Qed.

Lemma sorted_range_snoc a i d :
  i < length d -> sorted_range a i d ->
  (forall x y, a < i -> d !! i = Some x -> d !! (i - 1) = Some y -> less x y = false) ->
  sorted_range a (S i) d.
Proof.
  intros Hi Hs Hadj p q u v Hp Hpq Hq Eu Ev.
  destruct (decide (q = i)) as [-> | Hne]; [| apply (Hs p q u v); auto; lia].
  destruct (lookup_lt_is_Some_2 d (i - 1) ltac:(lia)) as [w Ew].
  pose proof (Hadj v w ltac:(lia) Ev Ew) as Hvw.
  destruct (decide (p = i - 1)) as [-> | Hp'].
  - assert (u = w) as -> by congruence. exact Hvw.
  - apply (less_ntrans v w u Hvw). apply (Hs p (i - 1) u w); auto; lia.
Qed.

Lemma sorted_range_extend n a i d :
  i + n <= length d -> sorted_range a i d ->
  (forall k x y, a < k -> i <= k < i + n ->
     d !! k = Some x -> d !! (k - 1) = Some y -> less x y = false) ->
  sorted_range a (i + n) d.
Proof.
  revert i. induction n as [| n IH]; intros i Hlen Hs Hadj.
  - rewrite Nat.add_0_r. exact Hs.
  - replace (i + S n) with (S i + n) by lia. apply IH; [lia | |].
    + apply sorted_range_snoc; [lia | exact Hs |].
      intros x y Hai Ex Ey. apply (Hadj i x y); auto; lia.
    + intros k x y Hak Hk. apply Hadj; lia.
Qed.

Lemma partialInsertionSort_scan_spec fuel i b d :
  1 <= i -> i <= b <= length d -> b - i < fuel ->
  ok (sort.partialInsertionSort_scan less fuel i b) d
     (fun i' d' => d' = d /\ i <= i' <= b /\
        (forall k x y, i <= k < i' -> d !! k = Some x -> d !! (k - 1) = Some y ->
           less x y = false) /\
        (i' < b -> exists x y, d !! i' = Some x /\ d !! (i' - 1) = Some y /\
           less x y = true)).
Proof.
  intros H1. revert i H1. induction fuel as [| fuel IH]; intros i H1 Hi Hf; [lia |].
  simpl. destruct (Nat.ltb_spec i b) as [Hib | Hib].
  - apply ok_bind. apply ok_Less_lt; [lia | lia |]. intros x y Ex Ey.
    destruct (less x y) eqn:Ec; simpl.
    + apply ok_ret. split; [reflexivity | split; [lia | split]].
      * intros k u v Hk. lia.
      * intros _. exists x, y. auto.
    + eapply ok_mono; [apply (IH (S i)); lia |].
      intros i' d' (-> & Hi' & Hadj & Hstop).
      split; [reflexivity | split; [lia | split; [| exact Hstop]]].
      intros k u v Hk Eu Ev. destruct (decide (k = i)) as [-> | Hne].
      * congruence.
      * apply (Hadj k u v); auto; lia.
  - apply ok_ret. split; [reflexivity | split; [lia | split]].
    + intros k u v Hk. lia.
    + intros Hc. lia.
Qed.

(** Inside [pdqsort_func] the loop that stops at [j >= 1] stops at [a]: it
    is the loop of the insertion sort. *)
Lemma partialInsertionSort_left_shift a b j d :
  a <= j < b -> b <= length d -> bounded_below a b d ->
  sort.partialInsertionSort_left less j d = sort.insertionSort_shift less a j d.
Proof.
  revert d. induction j as [| j' IH]; intros d Hj Hb Hbb; [reflexivity |].
  destruct (lookup_lt_is_Some_2 d (S j') ltac:(lia)) as [x Ex].
  destruct (lookup_lt_is_Some_2 d j' ltac:(lia)) as [y Ey].
  cbn [sort.partialInsertionSort_left sort.insertionSort_shift].
  assert (HL : Less (S j') j' d = Some (less x y, d)).
  { unfold sort.Less. rewrite Ex, Ey. reflexivity. }
  assert (HS : Swap (S j') j' d = Some (tt, <[j' := x]> (<[S j' := y]> d))).
  { unfold sort.Swap. rewrite Ex, Ey. reflexivity. }
  destruct (Nat.ltb_spec a (S j')) as [Ha | Ha].
  - rewrite !(bind_Some _ _ _ _ _ HL).
    destruct (less x y) eqn:Ec; [| reflexivity]. cbn [negb].
    rewrite !(bind_Some _ _ _ _ _ HS).
    apply IH; [lia | rewrite !length_insert; lia |].
    eapply (swaps_bounded_below a b a b); [lia | lia | | exact Hbb].
    apply swaps_one; auto; lia.
  - assert (a = S j') as -> by lia.
    rewrite (bind_Some _ _ _ _ _ HL).
    rewrite (Hbb (S j') x y); auto; try lia.
    simpl. rewrite Nat.sub_0_r. exact Ey.
Qed.

Lemma partialInsertionSort_right_spec fuel i j b d :
  i < j -> b <= length d -> b - j < fuel ->
  ok (sort.partialInsertionSort_right less fuel j b) d (fun _ d' => swaps i b d d').
Proof.
  revert j d. induction fuel as [| fuel IH]; intros j d Hij Hb Hf; [lia |].
  simpl. destruct (Nat.ltb_spec j b) as [Hjb | Hjb].
  - apply ok_bind. apply ok_Less_lt; [lia | lia |]. intros x y Ex Ey.
    destruct (less x y); simpl.
    + apply ok_bind. apply (ok_Swap j (j - 1) d x y); auto.
      eapply ok_mono.
      { apply (IH (S j)); try lia. rewrite !length_insert. lia. }
      intros u d' Hsw. apply (swaps_step i b d j (j - 1) x y); auto; lia.
    + apply ok_ret. apply swaps_refl.
  - apply ok_ret. apply swaps_refl.
Qed.

Lemma partialInsertionSort_steps_spec steps a b i d :
  a < i <= b -> b <= length d -> sorted_range a i d -> bounded_below a b d ->
  ok (sort.partialInsertionSort_steps less steps a b i) d
     (fun r d' => swaps a b d d' /\ (r = true -> sorted_range a b d')).
Proof.
  revert i d. induction steps as [| steps IH]; intros i d Hi Hb Hs Hbb.
  - apply ok_ret. split; [apply swaps_refl | discriminate].
  - cbn [sort.partialInsertionSort_steps]. apply ok_bind.
    eapply ok_mono; [apply (partialInsertionSort_scan_spec _ i b d); lia |].
    intros i1 d1 (-> & Hi1 & Hadj & Hstop).
    assert (Hs1 : sorted_range a i1 d).
    { replace i1 with (i + (i1 - i)) by lia.
      apply sorted_range_extend; [lia | exact Hs |].
      intros k x y Hak Hk. apply Hadj. lia. }
    destruct (Nat.eqb_spec i1 b) as [-> | Hne].
    { apply ok_ret. split; [apply swaps_refl | auto]. }
    destruct (b - a <? sort.shortestShifting).
    { apply ok_ret. split; [apply swaps_refl | discriminate]. }
    destruct (Hstop ltac:(lia)) as (x & y & Ex & Ey & Hxy).
    apply ok_bind. apply (ok_Swap i1 (i1 - 1) d x y); auto.
    set (d1 := <[i1 - 1 := x]> (<[i1 := y]> d)).
    assert (Hsw1 : swaps a b d d1) by (apply swaps_one; auto; lia).
    assert (Hsw1' : swaps (i1 - 1) b d d1) by (apply swaps_one; auto; lia).
    pose proof (swaps_length _ _ _ _ Hsw1) as Hlen1.
    assert (Hs2 : sorted_range a (i1 - 1) d1).
    { eapply sorted_range_outside; [exact Hsw1' | lia |].
      intros p q u v Hp Hpq Hq. apply Hs1; lia. }
    assert (Hbb1 : bounded_below a b d1)
      by (eapply (swaps_bounded_below a b a b); eauto).
    clearbody d1.
    apply ok_bind.
    apply (ok_mono _ _ (fun _ d2 => swaps a i1 d1 d2 /\ sorted_range a i1 d2)).
    { destruct (Nat.leb_spec 2 (i1 - a)) as [H2 | H2].
      - unfold ok.
        rewrite (partialInsertionSort_left_shift a b (i1 - 1) d1) by (auto; lia).
        pose proof (insertionSort_shift_spec a (i1 - 1) (i1 - 1) d1) as Hshift.
        replace (S (i1 - 1)) with i1 in Hshift by lia.
        apply Hshift; auto; try lia.
        all: unfold sorted_range; intros; lia.
      - apply ok_ret. split; [apply swaps_refl |].
        intros p q u v Hp Hpq Hq. lia. }
    intros u d2 (Hsw2 & Hs3).
    pose proof (swaps_length _ _ _ _ Hsw2) as Hlen2.
    apply ok_bind.
    apply (ok_mono _ _ (fun _ d3 => swaps i1 b d2 d3)).
    { destruct (Nat.leb_spec 2 (b - i1)) as [H2 | H2].
      - apply partialInsertionSort_right_spec; lia.
      - apply ok_ret. apply swaps_refl. }
    intros u' d3 Hsw3.
    assert (Hsw : swaps a b d d3).
    { eapply swaps_trans; [exact Hsw1 |].
      eapply swaps_trans; [apply (swaps_mono a i1); eauto; lia |].
      apply (swaps_mono i1 b); auto; lia. }
    eapply ok_mono.
    { apply (IH i1 d3); try lia.
      - rewrite (swaps_length _ _ _ _ Hsw). lia.
      - eapply sorted_range_outside; [exact Hsw3 | lia | exact Hs3].
      - eapply (swaps_bounded_below a b a b); eauto. }
    intros r d' (Hsw' & Hr). split; [| exact Hr].
    eapply swaps_trans; eauto.
Qed.

Lemma partialInsertionSort_func_spec a b d :
  a < b <= length d -> bounded_below a b d ->
  ok (sort.partialInsertionSort_func less a b) d
     (fun r d' => swaps a b d d' /\ (r = true -> sorted_range a b d')).
Proof.
  intros Hab Hbb. unfold sort.partialInsertionSort_func.
  apply partialInsertionSort_steps_spec; auto; try lia.
  intros p q u v Hp Hpq Hq. lia.
Qed.

(** *** [siftDown_func] and [heapSort_func] *)

Lemma siftDown_loop_spec fuel root hi first lo d :
  lo <= root -> first + hi <= length d -> hi - root < fuel ->
  (forall k, lo <= k -> k <> root -> heap_ok first hi d k) ->
  (lo < root -> forall c w y, c = 2 * root + 1 \/ c = 2 * root + 2 -> c < hi ->
     d !! (first + (root - 1) / 2) = Some w -> d !! (first + c) = Some y ->
     less w y = false) ->
  ok (sort.siftDown_loop less fuel root hi first) d
     (fun _ d' => swaps first (first + hi) d d' /\ heap_from first lo hi d').
Proof.
  revert root d. induction fuel as [| fuel IH]; intros root d Hlo Hlen Hf Hheap Hpar; [lia |].
  cbn [sort.siftDown_loop]. cbv zeta.
  destruct (Nat.leb_spec hi (2 * root + 1)) as [Hleaf | Hchild].
  { apply ok_ret. split; [apply swaps_refl |].
    intros k Hk. destruct (decide (k = root)) as [-> | Hne]; [| auto].
    intros c x y Hc Hchi. lia. }
  (* the greater child [m] *)
  apply ok_bind.
  apply (ok_mono _ _ (fun (c : bool) d1 => d1 = d /\
           let m := if c then 2 * root + 1 + 1 else 2 * root + 1 in
           m < hi /\ (m = 2 * root + 1 \/ m = 2 * root + 2) /\
           forall c' x y, c' = 2 * root + 1 \/ c' = 2 * root + 2 -> c' < hi ->
             d !! (first + m) = Some x -> d !! (first + c') = Some y ->
             less x y = false)).
  { destruct (Nat.ltb_spec (2 * root + 1 + 1) hi) as [Htwo | Hone].
    - apply ok_Less_lt; [lia | lia |]. intros x y Ex Ey.
      split; [reflexivity |]. destruct (less x y) eqn:Ec; cbv zeta.
      + split; [lia | split; [lia |]]. intros c' u v Hc' Hc'hi Eu Ev.
        replace (first + (2 * root + 1) + 1) with (first + (2 * root + 1 + 1)) in Ey by lia.
        assert (u = y) as -> by congruence.
        destruct Hc' as [-> | ->].
        * assert (v = x) as -> by congruence. apply less_asym. exact Ec.
        * replace (2 * root + 2) with (2 * root + 1 + 1) in Ev by lia.
          assert (v = y) as -> by congruence. apply less_irrefl.
      + split; [lia | split; [lia |]]. intros c' u v Hc' Hc'hi Eu Ev.
        assert (u = x) as -> by congruence.
        destruct Hc' as [-> | ->].
        * assert (v = x) as -> by congruence. apply less_irrefl.
        * replace (first + (2 * root + 2)) with (first + (2 * root + 1) + 1) in Ev by lia.
          assert (v = y) as -> by congruence. exact Ec.
    - apply ok_ret. split; [reflexivity |]. cbv zeta.
      split; [lia | split; [lia |]]. intros c' u v Hc' Hc'hi Eu Ev.
      assert (c' = 2 * root + 1) as -> by lia.
      assert (v = u) as -> by congruence. apply less_irrefl. }
  intros c d1 (-> & Hm). cbv zeta in Hm.
  set (m := if c then 2 * root + 1 + 1 else 2 * root + 1) in *.
  destruct Hm as (Hmhi & Hmchild & Hmax). clearbody m.
  apply ok_bind. apply ok_Less_lt; [lia | lia |]. intros v w Ev Ew.
  destruct (less v w) eqn:Evw; cbn [negb].
  - (* the root goes down *)
    apply ok_bind. apply (ok_Swap (first + root) (first + m) d v w); auto.
    set (d1 := <[first + m := v]> (<[first + root := w]> d)).
    assert (Hd1 : forall k, d1 !! k =
              if decide (k = first + m) then Some v
              else if decide (k = first + root) then Some w else d !! k)
      by (intros k; apply swap_lookup; assumption).
    eapply ok_mono.
    { apply (IH m d1); try lia.
      - unfold d1. rewrite !length_insert. lia.
      - intros k Hk Hkm c' x y Hc' Hc'hi Ex Ey.
        rewrite Hd1 in Ex, Ey.
        destruct (decide (k = root)) as [-> | Hkr].
        + repeat case_decide; try lia.
          * assert (x = w) as -> by congruence. assert (y = v) as -> by congruence.
            apply less_asym. exact Evw.
          * assert (x = w) as -> by congruence. apply (Hmax c' w y); auto.
        + repeat case_decide; try lia.
          * assert (y = w) as -> by congruence.
            assert (c' = root) as -> by lia.
            apply (Hpar ltac:(lia) m x w); auto.
            replace ((root - 1) / 2) with k by lia. exact Ex.
          * apply (Hheap k Hk Hkr c' x y); auto.
      - intros Hlom c' x y Hc' Hc'hi Ex Ey.
        rewrite Hd1 in Ex, Ey.
        replace ((m - 1) / 2) with root in Ex by lia.
        repeat case_decide; try lia.
        assert (x = w) as -> by congruence.
        apply (Hheap m ltac:(lia) ltac:(lia) c' w y); auto. }
    intros u d' (Hsw & Hh). split; [| exact Hh].
    apply (swaps_step first (first + hi) d (first + root) (first + m) v w); auto; lia.
  - apply ok_ret. split; [apply swaps_refl |].
    intros k Hk. destruct (decide (k = root)) as [-> | Hne]; [| auto].
    intros c' x y Hc' Hc'hi Ex Ey. assert (x = v) as -> by congruence.
    destruct (lookup_lt_is_Some_2 d (first + c') ltac:(lia)) as [y' Ey'].
    apply (less_ntrans v w y Evw). apply (Hmax c' w y); auto.
Qed.

Lemma siftDown_func_spec lo hi first d :
  first + hi <= length d -> heap_from first (S lo) hi d ->
  ok (sort.siftDown_func less lo hi first) d
     (fun _ d' => swaps first (first + hi) d d' /\ heap_from first lo hi d').
Proof.
  intros Hlen Hheap. unfold sort.siftDown_func.
  apply siftDown_loop_spec; auto; try lia.
  intros k Hk Hne. apply Hheap. lia.
Qed.

Lemma heapSort_build_spec n hi first d :
  first + hi <= length d -> heap_from first n hi d ->
  ok (sort.heapSort_build less n hi first) d
     (fun _ d' => swaps first (first + hi) d d' /\ heap_from first 0 hi d').
Proof.
  revert d. induction n as [| i IH]; intros d Hlen Hheap.
  - apply ok_ret. split; [apply swaps_refl | exact Hheap].
  - cbn [sort.heapSort_build]. apply ok_bind.
    eapply ok_mono; [apply siftDown_func_spec; eauto |].
    intros u d1 (Hsw1 & Hh1).
    eapply ok_mono.
    { apply (IH d1); auto. rewrite (swaps_length _ _ _ _ Hsw1). exact Hlen. }
    intros u' d' (Hsw & Hh). split; [| exact Hh]. eapply swaps_trans; eauto.
Qed.

(** The root of a heap is not below any of its nodes. *)
Lemma heap_root_max first n d k x0 x :
  first + n <= length d -> heap_from first 0 n d -> k < n ->
  d !! first = Some x0 -> d !! (first + k) = Some x -> less x0 x = false.
Proof.
  intros Hlen Hheap. revert x.
  induction k as [k IH] using lt_wf_ind. intros x Hk E0 Ex.
  destruct (decide (k = 0)) as [-> | Hk0].
  - rewrite Nat.add_0_r in Ex. assert (x = x0) as -> by congruence. apply less_irrefl.
  - destruct (lookup_lt_is_Some_2 d (first + (k - 1) / 2) ltac:(lia)) as [w Ew].
    apply (less_ntrans x0 w x).
    + apply (IH ((k - 1) / 2)); auto; lia.
    + apply (Hheap ((k - 1) / 2) ltac:(lia) k w x); auto; lia.
Qed.

Lemma heapSort_pop_spec n hi first d :
  n <= hi -> first + hi <= length d ->
  heap_from first 0 n d ->
  sorted_range (first + n) (first + hi) d ->
  (forall k q x y, k < n -> n <= q < hi ->
     d !! (first + k) = Some x -> d !! (first + q) = Some y -> less y x = false) ->
  ok (sort.heapSort_pop less n 0 first) d
     (fun _ d' => swaps first (first + hi) d d' /\ sorted_range first (first + hi) d').
Proof.
  revert d. induction n as [| i IH]; intros d Hn Hlen Hheap Hsorted Hcross.
  - apply ok_ret. rewrite Nat.add_0_r in Hsorted. split; [apply swaps_refl | exact Hsorted].
  - cbn [sort.heapSort_pop].
    destruct (lookup_lt_is_Some_2 d first ltac:(lia)) as [x0 E0].
    destruct (lookup_lt_is_Some_2 d (first + i) ltac:(lia)) as [xi Ei].
    apply ok_bind. apply (ok_Swap first (first + i) d x0 xi); auto.
    set (d1 := <[first + i := x0]> (<[first := xi]> d)).
    assert (Hd1 : forall k, d1 !! k =
              if decide (k = first + i) then Some x0
              else if decide (k = first) then Some xi else d !! k)
      by (intros k; apply swap_lookup; assumption).
    assert (Hsw1 : swaps first (first + hi) d d1) by (apply swaps_one; auto; lia).
    assert (Hlen1 : length d1 = length d) by (unfold d1; rewrite !length_insert; lia).
    (* every element of the smaller heap was in the heap *)
    assert (Hold : forall k x, k < i -> d1 !! (first + k) = Some x ->
              exists k', k' < S i /\ d !! (first + k') = Some x).
    { intros k x Hk Ex. rewrite Hd1 in Ex. repeat case_decide; try lia.
      - exists i. split; [lia | congruence].
      - exists k. split; [lia | exact Ex]. }
    apply ok_bind. eapply ok_mono.
    { apply (siftDown_func_spec 0 i first d1); [lia |].
      intros k Hk c x y Hc Hci Ex Ey. rewrite Hd1 in Ex, Ey.
      repeat case_decide; try lia.
      apply (Hheap k ltac:(lia) c x y); auto; lia. }
    intros u d2 (Hsw2 & Hh2).
    pose proof (swaps_length _ _ _ _ Hsw2) as Hlen2.
    assert (Hold2 : forall k x, k < i -> d2 !! (first + k) = Some x ->
              exists k', k' < S i /\ d !! (first + k') = Some x).
    { intros k x Hk Ex.
      destruct (swaps_elem _ _ _ _ (first + k) x Hsw2 ltac:(lia) Ex) as (k1 & Hk1 & Ex1).
      replace k1 with (first + (k1 - first)) in Ex1 by lia.
      apply (Hold (k1 - first) x); auto; lia. }
    assert (Hhigh : forall q, i <= q -> d2 !! (first + q) = d1 !! (first + q)).
    { intros q Hq. apply (swaps_outside _ _ _ _ (first + q) Hsw2). lia. }
    eapply ok_mono.
    { apply (IH d2); try lia; auto.
      - intros p q x y Hp Hpq Hq Ex Ey.
        replace p with (first + (p - first)) in Ex by lia.
        replace q with (first + (q - first)) in Ey by lia.
        rewrite Hhigh in Ex, Ey by lia. rewrite Hd1 in Ex, Ey.
        repeat case_decide; try lia.
        + assert (x = x0) as -> by congruence.
          apply (Hcross 0 (q - first) x0 y); auto; try lia.
          rewrite Nat.add_0_r. exact E0.
        + apply (Hsorted (first + (p - first)) (first + (q - first)) x y); auto; lia.
      - intros k q x y Hk Hq Ex Ey.
        destruct (Hold2 k x Hk Ex) as (k' & Hk' & Ex').
        rewrite Hhigh in Ey by lia. rewrite Hd1 in Ey.
        repeat case_decide; try lia.
        + assert (y = x0) as -> by congruence.
          apply (heap_root_max first (S i) d k'); auto; lia.
        + apply (Hcross k' q x y); auto; lia. }
    intros u' d' (Hsw & Hs). split; [| exact Hs].
    eapply swaps_trans; [exact Hsw1 |].
    eapply swaps_trans; [| exact Hsw].
    apply (swaps_mono first (first + i)); auto; lia.
Qed.

Lemma heapSort_func_spec a b d :
  a <= b <= length d ->
  ok (sort.heapSort_func less a b) d
     (fun _ d' => swaps a b d d' /\ sorted_range a b d').
Proof.
  intros Hab. unfold sort.heapSort_func. cbv zeta.
  assert (Hb : a + (b - a) = b) by lia.
  apply ok_bind. eapply ok_mono.
  { apply (heapSort_build_spec _ (b - a) a d); [lia |].
    intros k Hk c x y Hc Hchi. lia. }
  intros u d1 (Hsw1 & Hh1). rewrite Hb in Hsw1.
  pose proof (swaps_length _ _ _ _ Hsw1) as Hlen1.
  eapply ok_mono.
  { apply (heapSort_pop_spec (b - a) (b - a) a d1); try lia; auto.
    all: unfold sorted_range; intros; lia. }
  intros u' d' (Hsw & Hs). rewrite Hb in Hsw, Hs. split; [| exact Hs].
  eapply swaps_trans; eauto.
Qed.

(** *** [pdqsort_func] *)

Lemma range_Forall_swaps P a b a' b' d d' :
  a <= a' -> b' <= b -> swaps a' b' d d' ->
  range_Forall P a b d -> range_Forall P a b d'.
Proof.
  intros Ha Hb Hsw HP k x Hk Ex.
  destruct (decide (a' <= k < b')) as [Hin | Hout].
  - destruct (swaps_elem _ _ _ _ k x Hsw Hin Ex) as (k' & Hk' & Ex').
    apply (HP k' x); auto; lia.
  - rewrite (swaps_outside _ _ _ _ k Hsw) in Ex by lia. apply (HP k x); auto.
Qed.

Lemma bounded_below_outside a b a' b' d d' :
  swaps a' b' d d' -> b' < a \/ b <= a' ->
  bounded_below a b d -> bounded_below a b d'.
Proof.
  intros Hsw Hdisj Hbb k x y Ha0 Hk Ey Ex.
  rewrite (swaps_outside _ _ _ _ (a - 1) Hsw) in Ey by lia.
  rewrite (swaps_outside _ _ _ _ k Hsw) in Ex by lia.
  apply (Hbb k x y); auto.
Qed.

Lemma sorted_partitioned a b mid p d :
  a <= mid < b -> d !! mid = Some p ->
  range_Forall (fun x => less x p = true) a mid d ->
  range_Forall (fun x => less x p = false) (S mid) b d ->
  sorted_range a mid d -> sorted_range (S mid) b d ->
  sorted_range a b d.
Proof.
  intros Hmid Ep Hlo Hhi Hsl Hsr i j x y Hi Hij Hj Ex Ey.
  destruct (Nat.lt_trichotomy j mid) as [Hjm | [-> | Hjm]].
  - apply (Hsl i j x y); auto.
  - assert (y = p) as -> by congruence. apply less_asym. apply (Hlo i x); auto; lia.
  - destruct (Nat.lt_trichotomy i mid) as [Him | [-> | Him]].
    + pose proof (Hlo i x ltac:(lia) Ex) as Hx. pose proof (Hhi j y ltac:(lia) Ey) as Hy.
      cbv beta in Hx, Hy.
      destruct (less y x) eqn:E; [| reflexivity].
      rewrite (less_trans y x p E Hx) in Hy. discriminate.
    + assert (x = p) as -> by congruence. apply (Hhi j y); auto; lia.
    + apply (Hsr i j x y); auto; lia.
Qed.

Lemma sorted_partitionedEqual a b mid p d :
  a < mid <= b ->
  range_Forall (fun x => less x p = false) a mid d ->
  range_Forall (fun x => less p x = false) a mid d ->
  range_Forall (fun x => less p x = true) mid b d ->
  sorted_range mid b d ->
  sorted_range a b d.
Proof.
  intros Hmid Hge Hle Hgt Hsr i j x y Hi Hij Hj Ex Ey.
  destruct (decide (mid <= i)) as [Him | Him]; [apply (Hsr i j x y); auto |].
  pose proof (Hle i x ltac:(lia) Ex) as Hx. cbv beta in Hx.
  destruct (decide (mid <= j)) as [Hjm | Hjm].
  - pose proof (Hgt j y ltac:(lia) Ey) as Hy. cbv beta in Hy.
    destruct (less y x) eqn:E; [| reflexivity].
    rewrite (less_trans p y x Hy E) in Hx. discriminate.
  - pose proof (Hge j y ltac:(lia) Ey) as Hy. cbv beta in Hy.
    apply (less_ntrans y p x Hy Hx).
Qed.

Lemma pdqsort_func_spec fuel a b limit wasBalanced wasPartitioned d :
  a <= b <= length d -> b - a < fuel -> bounded_below a b d ->
  ok (sort.pdqsort_func less fuel a b limit wasBalanced wasPartitioned) d
     (fun _ d' => swaps a b d d' /\ sorted_range a b d').
Proof.
  revert a b limit wasBalanced wasPartitioned d.
  induction fuel as [| fuel IH]; intros a b limit wb wp d Hab Hf Hbb; [lia |].
  cbn [sort.pdqsort_func]. cbv zeta.
  destruct (Nat.leb_spec (b - a) sort.maxInsertion) as [Hsmall | Hbig].
  { apply insertionSort_func_spec. exact Hab. }
  unfold sort.maxInsertion in Hbig.
  destruct (limit =? 0).
  { apply heapSort_func_spec. exact Hab. }
  (* breakPatterns *)
  apply ok_bind.
  apply (ok_mono _ _ (fun (_ : nat) d1 => swaps a b d d1)).
  { destruct wb; cbn [negb].
    - apply ok_ret. apply swaps_refl.
    - apply ok_bind. eapply ok_mono; [apply breakPatterns_func_spec; lia |].
      intros u d1 Hsw. apply ok_ret. exact Hsw. }
  intros limit' d1 Hsw1.
  pose proof (swaps_length _ _ _ _ Hsw1) as Hlen1.
  (* choosePivot, reverseRange *)
  apply ok_bind. eapply ok_mono; [apply choosePivot_func_spec; lia |].
  intros ph0 d1' (-> & Hph0).
  apply ok_bind.
  apply (ok_mono _ _ (fun (ph : nat * sort.sortedHint) d2 =>
           swaps a b d1 d2 /\ a <= fst ph < b)).
  { destruct (sort.is_decreasing (snd ph0)).
    - apply ok_bind. eapply ok_mono; [apply reverseRange_func_spec; lia |].
      intros u d2 Hsw. apply ok_ret. cbn [fst]. split; [exact Hsw | lia].
    - apply ok_ret. split; [apply swaps_refl | exact Hph0]. }
  intros [pivot hint] d2 (Hsw2 & Hpivot). cbn [fst snd] in *.
  pose proof (swaps_length _ _ _ _ Hsw2) as Hlen2.
  assert (Hsw02 : swaps a b d d2) by (eapply swaps_trans; eauto).
  (* partialInsertionSort *)
  apply ok_bind.
  apply (ok_mono _ _ (fun (done : bool) d3 =>
           swaps a b d2 d3 /\ (done = true -> sorted_range a b d3))).
  { destruct (wb && wp && sort.is_increasing hint).
    - apply partialInsertionSort_func_spec; [lia |].
      eapply (swaps_bounded_below a b a b); eauto.
    - apply ok_ret. split; [apply swaps_refl | discriminate]. }
  intros done d3 (Hsw3 & Hdone).
  pose proof (swaps_length _ _ _ _ Hsw3) as Hlen3.
  assert (Hsw03 : swaps a b d d3) by (eapply swaps_trans; eauto).
  assert (Hbb3 : bounded_below a b d3)
    by (eapply (swaps_bounded_below a b a b); eauto).
  destruct done.
  { apply ok_ret. auto. }
  clear Hdone.
  destruct (lookup_lt_is_Some_2 d3 pivot ltac:(lia)) as [p Ep].
  (* the test for a run of equal elements *)
  apply ok_bind.
  apply (ok_mono _ _ (fun (dup : bool) d4 => d4 = d3 /\
           (dup = true -> 0 < a /\
              forall y, d3 !! (a - 1) = Some y -> less y p = false))).
  { destruct (Nat.ltb_spec 0 a) as [Ha0 | Ha0].
    - apply ok_bind. apply ok_Less_lt; [lia | lia |]. intros y p' Ey Ep'.
      assert (p' = p) as -> by congruence.
      apply ok_ret. split; [reflexivity |]. intros Hdup. split; [exact Ha0 |].
      intros y' Ey'. assert (y' = y) as -> by congruence.
      destruct (less y p); [discriminate | reflexivity].
    - apply ok_ret. split; [reflexivity | discriminate]. }
  intros dup d4 (-> & Hdup).
  destruct dup.
  - (* partitionEqual, then the rest of the range *)
    destruct (Hdup eq_refl) as (Ha0 & Hprev). clear Hdup.
    destruct (lookup_lt_is_Some_2 d3 (a - 1) ltac:(lia)) as [y Ey].
    pose proof (Hprev y Ey) as Hyp.
    apply ok_bind. eapply ok_mono; [apply (partitionEqual_func_spec a b pivot d3 p); auto; lia |].
    intros mid d4 (Hsw4 & Hmid & Hle & Hgt).
    pose proof (swaps_length _ _ _ _ Hsw4) as Hlen4.
    assert (Hbb4 : bounded_below a b d4)
      by (eapply (swaps_bounded_below a b a b); eauto).
    assert (Hy4 : d4 !! (a - 1) = Some y).
    { rewrite (swaps_outside _ _ _ _ (a - 1) Hsw4) by lia. exact Ey. }
    eapply ok_mono.
    { apply (IH mid b limit' wb wp d4); try lia.
      intros k x z _ Hk Ez Ex.
      pose proof (Hle (mid - 1) z ltac:(lia) Ez) as Hz.
      pose proof (Hgt k x ltac:(lia) Ex) as Hx.
      destruct (less x z) eqn:E; [| reflexivity].
      rewrite (less_trans p x z Hx E) in Hz. discriminate. }
    intros u d5 (Hsw5 & Hs5). split.
    + eapply swaps_trans; [exact Hsw03 |].
      eapply swaps_trans; [exact Hsw4 |].
      apply (swaps_mono mid b); auto; lia.
    + apply (sorted_partitionedEqual a b mid p); auto.
      * intros k x Hk Ex.
        rewrite (swaps_outside _ _ _ _ k Hsw5) in Ex by lia.
        apply (less_ntrans x y p); [| exact Hyp].
        apply (Hbb4 k x y); auto; lia.
      * intros k x Hk Ex.
        rewrite (swaps_outside _ _ _ _ k Hsw5) in Ex by lia.
        apply (Hle k x); auto.
      * apply (range_Forall_swaps _ mid b mid b d4 d5); auto.
  - (* partition, then both sides *)
    clear Hdup.
    apply ok_bind. eapply ok_mono; [apply (partition_func_spec a b pivot d3 p); auto; lia |].
    intros [mid already] d4 (Hsw4 & Hmid & Ep4 & Hlo & Hhi). cbn [fst snd] in *.
    pose proof (swaps_length _ _ _ _ Hsw4) as Hlen4.
    assert (Hbb4 : bounded_below a b d4)
      by (eapply (swaps_bounded_below a b a b); eauto).
    assert (HbbL : bounded_below a mid d4).
    { intros k x y Ha0 Hk. apply Hbb4; lia. }
    assert (HbbR : bounded_below (mid + 1) b d4).
    { intros k x y _ Hk Ey Ex. replace (mid + 1 - 1) with mid in Ey by lia.
      assert (y = p) as -> by congruence. apply (Hhi k x); auto; lia. }
    assert (Hjoin : forall d6, swaps a b d4 d6 -> d6 !! mid = Some p ->
              range_Forall (fun x => less x p = true) a mid d6 ->
              range_Forall (fun x => less x p = false) (S mid) b d6 ->
              sorted_range a mid d6 -> sorted_range (mid + 1) b d6 ->
              swaps a b d d6 /\ sorted_range a b d6).
    { intros d6 Hsw6 Ep6 Hlo6 Hhi6 Hsl Hsr. split.
      - eapply swaps_trans; [exact Hsw03 |]. eapply swaps_trans; eauto.
      - rewrite Nat.add_1_r in Hsr. apply (sorted_partitioned a b mid p); auto. }
    destruct (mid - a <? b - mid).
    + apply ok_bind. eapply ok_mono; [apply (IH a mid limit' true true d4); auto; lia |].
      intros u d5 (Hsw5 & Hs5).
      pose proof (swaps_length _ _ _ _ Hsw5) as Hlen5.
      eapply ok_mono.
      { apply (IH (mid + 1) b limit'); try lia.
        eapply bounded_below_outside; [exact Hsw5 | lia | exact HbbR]. }
      intros u' d6 (Hsw6 & Hs6).
      apply Hjoin; auto.
      * eapply swaps_trans; [apply (swaps_mono a mid); eauto; lia |].
        apply (swaps_mono (mid + 1) b); auto; lia.
      * rewrite (swaps_outside _ _ _ _ mid Hsw6) by lia.
        rewrite (swaps_outside _ _ _ _ mid Hsw5) by lia. exact Ep4.
      * intros k x Hk Ex. rewrite (swaps_outside _ _ _ _ k Hsw6) in Ex by lia.
        revert k x Hk Ex.
        apply (range_Forall_swaps _ a mid a mid d4 d5); auto.
      * apply (range_Forall_swaps _ (S mid) b (mid + 1) b d5 d6); auto; try lia.
        intros k x Hk Ex. rewrite (swaps_outside _ _ _ _ k Hsw5) in Ex by lia.
        apply (Hhi k x); auto; lia.
      * eapply sorted_range_outside; [exact Hsw6 | lia | exact Hs5].
    + apply ok_bind. eapply ok_mono; [apply (IH (mid + 1) b limit' true true d4); auto; lia |].
      intros u d5 (Hsw5 & Hs5).
      pose proof (swaps_length _ _ _ _ Hsw5) as Hlen5.
      eapply ok_mono.
      { apply (IH a mid limit'); try lia.
        eapply bounded_below_outside; [exact Hsw5 | lia | exact HbbL]. }
      intros u' d6 (Hsw6 & Hs6).
      apply Hjoin; auto.
      * eapply swaps_trans; [apply (swaps_mono (mid + 1) b); eauto; lia |].
        apply (swaps_mono a mid); auto; lia.
      * rewrite (swaps_outside _ _ _ _ mid Hsw6) by lia.
        rewrite (swaps_outside _ _ _ _ mid Hsw5) by lia. exact Ep4.
      * apply (range_Forall_swaps _ a mid a mid d5 d6); auto.
        intros k x Hk Ex. rewrite (swaps_outside _ _ _ _ k Hsw5) in Ex by lia.
        apply (Hlo k x); auto; lia.
      * intros k x Hk Ex. rewrite (swaps_outside _ _ _ _ k Hsw6) in Ex by lia.
        revert k x Hk Ex.
        apply (range_Forall_swaps _ (S mid) b (mid + 1) b d4 d5); auto; try lia.
      * eapply sorted_range_outside; [exact Hsw6 | lia | exact Hs5].
Qed.

(** *** [Slice] *)

Lemma Slice_spec x :
  exists x', sort.Slice less x = Some x' /\ x ≡ₚ x' /\ sorted x'.
Proof.
  destruct (pdqsort_func_spec (S (length x)) 0 (length x) (sort.bits_Len (length x))
              true true x) as ([] & x' & Hrun & Hsw & Hs).
  - lia.
  - lia.
  - intros k u v Ha. lia.
  - exists x'. unfold sort.Slice. cbv zeta. rewrite Hrun.
    split; [reflexivity | split].
    + eapply swaps_Permutation; eauto.
    + unfold sorted. rewrite (swaps_length _ _ _ _ Hsw). exact Hs.
Qed.

(** **** A slice already in order is left as it is *)

Lemma insertionSort_shift_sorted a i d :
  i < length d -> sorted_range a (S i) d ->
  sort.insertionSort_shift less a i d = Some (tt, d).
Proof.
  intros Hi Hs. destruct i as [| j]; [reflexivity |].
  cbn [sort.insertionSort_shift].
  destruct (Nat.ltb_spec a (S j)) as [Ha | Ha]; [| reflexivity].
  destruct (lookup_lt_is_Some_2 d (S j) ltac:(lia)) as [x Ex].
  destruct (lookup_lt_is_Some_2 d j ltac:(lia)) as [y Ey].
  assert (HL : Less (S j) j d = Some (less x y, d)).
  { unfold sort.Less. rewrite Ex, Ey. reflexivity. }
  rewrite (bind_Some _ _ _ _ _ HL).
  rewrite (Hs j (S j) y x); auto; lia.
Qed.

Lemma insertionSort_loop_sorted n a i d :
  i + n <= length d -> sorted_range a (i + n) d ->
  sort.insertionSort_loop less n a i d = Some (tt, d).
Proof.
  revert i. induction n as [| n IH]; intros i Hlen Hs; [reflexivity |].
  cbn [sort.insertionSort_loop].
  rewrite (bind_Some _ _ d tt d).
  - apply IH; [lia |]. replace (S i + n) with (i + S n) by lia. exact Hs.
  - apply insertionSort_shift_sorted; [lia |].
    intros p q x y Hp Hpq Hq. apply Hs; lia.
Qed.

Lemma insertionSort_func_sorted a b d :
  b <= length d -> sorted_range a b d ->
  sort.insertionSort_func less a b d = Some (tt, d).
Proof.
  intros Hb Hs. unfold sort.insertionSort_func.
  destruct (decide (b <= a + 1)) as [Hsmall | Hbig].
  - replace (b - (a + 1)) with 0 by lia. reflexivity.
  - apply insertionSort_loop_sorted; [lia |].
    intros p q x y Hp Hpq Hq. apply Hs; lia.
Qed.

Lemma order2_func_sorted a b x y swaps d :
  a <= x -> x < y -> y < b -> b <= length d -> sorted_range a b d ->
  sort.order2_func less x y swaps d = Some ((x, y, swaps), d).
Proof.
  intros Hx Hxy Hy Hb Hs. unfold sort.order2_func.
  destruct (lookup_lt_is_Some_2 d x ltac:(lia)) as [u Eu].
  destruct (lookup_lt_is_Some_2 d y ltac:(lia)) as [v Ev].
  assert (HL : Less y x d = Some (less v u, d)).
  { unfold sort.Less. rewrite Eu, Ev. reflexivity. }
  rewrite (bind_Some _ _ _ _ _ HL).
  rewrite (Hs x y u v); auto.
Qed.

Lemma median_func_sorted a b x y z swaps d :
  a <= x -> x < y -> y < z -> z < b -> b <= length d -> sorted_range a b d ->
  sort.median_func less x y z swaps d = Some ((y, swaps), d).
Proof.
  intros Hx Hxy Hyz Hz Hb Hs. unfold sort.median_func.
  rewrite (bind_Some _ _ _ _ _ (order2_func_sorted a b x y swaps d Hx Hxy ltac:(lia) Hb Hs)).
  rewrite (bind_Some _ _ _ _ _ (order2_func_sorted a b y z swaps d ltac:(lia) Hyz Hz Hb Hs)).
  rewrite (bind_Some _ _ _ _ _ (order2_func_sorted a b x y swaps d Hx Hxy ltac:(lia) Hb Hs)).
  reflexivity.
Qed.

Lemma choosePivot_func_sorted a b d :
  8 <= b - a -> b <= length d -> sorted_range a b d ->
  sort.choosePivot_func less a b d =
    Some ((a + (b - a) / 4 * 2, sort.increasingHint), d).
Proof.
  intros H8 Hb Hs. unfold sort.choosePivot_func. cbv zeta.
  rewrite (proj2 (Nat.leb_le 8 (b - a)) H8).
  assert (Hmed : forall x y z swaps, a <= x -> x < y -> y < z -> z < b ->
            sort.median_func less x y z swaps d = Some ((y, swaps), d)).
  { intros. apply (median_func_sorted a b); auto. }
  destruct (Nat.leb_spec sort.shortestNinther (b - a)) as [H50 | H50].
  - unfold sort.shortestNinther in H50. unfold sort.medianAdjacent_func.
    erewrite bind_Some; cycle 1.
    { erewrite bind_Some; cycle 1.
      { erewrite bind_Some by (apply Hmed; lia). cbn [fst snd].
        erewrite bind_Some by (apply Hmed; lia). cbn [fst snd].
        erewrite bind_Some by (apply Hmed; lia). cbn [fst snd].
        reflexivity. }
      apply Hmed; lia. }
    reflexivity.
  - erewrite bind_Some; cycle 1.
    { erewrite bind_Some by reflexivity. apply Hmed; lia. }
    reflexivity.
Qed.

Lemma partialInsertionSort_func_sorted a b d :
  a < b <= length d -> sorted_range a b d ->
  sort.partialInsertionSort_func less a b d = Some (true, d).
Proof.
  intros Hab Hs. unfold sort.partialInsertionSort_func, sort.maxSteps.
  cbn [sort.partialInsertionSort_steps].
  destruct (partialInsertionSort_scan_spec (S b) (a + 1) b d)
    as (i & d' & Hrun & -> & Hi & _ & Hstop); try lia.
  rewrite (bind_Some _ _ _ _ _ Hrun).
  destruct (Nat.eqb_spec i b) as [_ | Hne]; [reflexivity |].
  destruct (Hstop ltac:(lia)) as (x & y & Ex & Ey & Hxy).
  rewrite (Hs (i - 1) i y x) in Hxy by (auto; lia). discriminate.
Qed.

Lemma pdqsort_func_sorted fuel a b limit d :
  b <= length d -> limit <> 0 -> sorted_range a b d ->
  sort.pdqsort_func less (S fuel) a b limit true true d = Some (tt, d).
Proof.
  intros Hb Hlimit Hs. cbn [sort.pdqsort_func]. cbv zeta.
  destruct (Nat.leb_spec (b - a) sort.maxInsertion) as [Hsmall | Hbig].
  { apply insertionSort_func_sorted; auto. }
  unfold sort.maxInsertion in Hbig.
  destruct (Nat.eqb_spec limit 0) as [| _]; [contradiction |].
  cbn [negb]. rewrite (bind_Some _ _ d limit d) by reflexivity.
  rewrite (bind_Some _ _ _ _ _ (choosePivot_func_sorted a b d ltac:(lia) Hb Hs)).
  cbn [fst snd sort.is_decreasing].
  erewrite bind_Some by reflexivity.
  cbn [fst snd sort.is_increasing andb].
  rewrite (bind_Some _ _ _ _ _ (partialInsertionSort_func_sorted a b d ltac:(lia) Hs)).
  reflexivity.
Qed.

Lemma bits_Len_pos n : 0 < n -> sort.bits_Len n <> 0.
Proof. destruct n; [lia | discriminate]. Qed.

Lemma Slice_sorted_id x : sorted x -> sort.Slice less x = Some x.
Proof.
  intros Hs. unfold sort.Slice. cbv zeta.
  destruct x as [| x0 x].
  - reflexivity.
  - rewrite pdqsort_func_sorted; auto; apply bits_Len_pos; simpl; lia.
Qed.

(** **** Up to [maxInsertion] elements: an insertion sort *)

Lemma lastmax_snoc l m x :
  lastmax l = Some m -> lastmax (l ++ [x]) = Some (later_max m x).
Proof.
  destruct l as [| x0 l]; [discriminate |]. simpl. intros [= <-].
  rewrite fold_left_app. reflexivity.
Qed.

Lemma lastmax_spec l m :
  lastmax l = Some m ->
  exists l1 l2, l = l1 ++ m :: l2 /\
    Forall (fun x => less m x = false) l1 /\ Forall (fun x => less x m = true) l2.
Proof.
  revert m. induction l as [| x l IH] using rev_ind; intros m Hm; [discriminate |].
  destruct l as [| x0 l].
  - simpl in Hm. injection Hm as <-. exists [], []. auto.
  - destruct (lastmax (x0 :: l)) as [m' |] eqn:Em'; [| discriminate].
    rewrite (lastmax_snoc _ _ x Em') in Hm. injection Hm as <-.
    destruct (IH m' eq_refl) as (l1 & l2 & Hl & H1 & H2).
    unfold later_max. destruct (less x m') eqn:Ex.
    + exists l1, (l2 ++ [x]). split; [| split; [exact H1 |]].
      * rewrite Hl. rewrite <- app_assoc. reflexivity.
      * apply Forall_app. split; [exact H2 |]. constructor; [exact Ex | constructor].
    + exists (x0 :: l), []. split; [reflexivity | split; [| constructor]].
      rewrite Hl. apply Forall_app. split; [| constructor].
      * eapply Forall_impl; [exact H1 |]. intros y Hy. apply (less_ntrans x m' y Ex Hy).
      * exact Ex.
      * eapply Forall_impl; [exact H2 |]. intros y Hy. cbv beta in Hy.
        destruct (less x y) eqn:E; [| reflexivity].
        rewrite (less_trans x y m' E Hy) in Ex. discriminate.
Qed.

Lemma insertionSort_shift_swaps a j d :
  j < length d ->
  ok (sort.insertionSort_shift less a j) d (fun _ d' => swaps a (S j) d d').
Proof.
  revert d. induction j as [| j' IH]; intros d Hj.
  - apply ok_ret. apply swaps_refl.
  - cbn [sort.insertionSort_shift].
    destruct (Nat.ltb_spec a (S j')) as [Ha | Ha]; [| apply ok_ret; apply swaps_refl].
    apply ok_bind. apply ok_Less_lt; [lia | lia |]. intros x y Ex Ey.
    destruct (less x y); [| apply ok_ret; apply swaps_refl].
    apply ok_bind. apply (ok_Swap (S j') j' d x y); auto.
    eapply ok_mono.
    { apply IH. rewrite !length_insert. lia. }
    intros u d' Hsw. apply (swaps_step a (S (S j')) d (S j') j' x y); auto; try lia.
    apply (swaps_mono a (S j')); auto.
Qed.

Lemma insertionSort_shift_last a i d x y :
  a < i -> d !! i = Some x -> d !! (i - 1) = Some y ->
  ok (sort.insertionSort_shift less a i) d
     (fun _ d' => d' !! i = Some (later_max y x)).
Proof.
  intros Ha Ex Ey. destruct i as [| j]; [lia |].
  replace (S j - 1) with j in Ey by lia.
  pose proof (lookup_lt_Some _ _ _ Ex) as Hlt.
  cbn [sort.insertionSort_shift]. rewrite (proj2 (Nat.ltb_lt a (S j)) Ha).
  apply ok_bind. apply (ok_Less (S j) j d x y); auto.
  unfold later_max. destruct (less x y).
  - apply ok_bind. apply (ok_Swap (S j) j d x y); auto.
    eapply ok_mono.
    { apply (insertionSort_shift_swaps a j). rewrite !length_insert. lia. }
    intros u d' Hsw. rewrite (swaps_outside _ _ _ _ (S j) Hsw) by lia.
    rewrite (swap_lookup d (S j) j x y (S j) Ex Ey).
    repeat case_decide; try lia. reflexivity.
  - apply ok_ret. exact Ex.
Qed.

Lemma insertionSort_loop_last n i d d0 :
  0 < i -> i + n <= length d -> sorted_range 0 i d ->
  d !! (i - 1) = lastmax (take i d0) ->
  (forall k, i <= k -> d !! k = d0 !! k) ->
  ok (sort.insertionSort_loop less n 0 i) d
     (fun _ d' => length d' = length d /\
                  d' !! (i + n - 1) = lastmax (take (i + n) d0)).
Proof.
  revert i d. induction n as [| n IH]; intros i d Hi Hlen Hs Hlast Hrest.
  - apply ok_ret. rewrite Nat.add_0_r. auto.
  - cbn [sort.insertionSort_loop].
    destruct (lookup_lt_is_Some_2 d i ltac:(lia)) as [x Ex].
    destruct (lookup_lt_is_Some_2 d (i - 1) ltac:(lia)) as [y Ey].
    apply ok_bind. eapply ok_mono.
    { apply ok_and.
      - apply (insertionSort_shift_spec 0 i i d); auto; try lia.
        all: unfold sorted_range; intros; lia.
      - apply (insertionSort_shift_last 0 i d x y); auto. }
    intros u d1 ((Hsw & Hs1) & Hl1). cbv beta in Hl1.
    pose proof (swaps_length _ _ _ _ Hsw) as Hlen1.
    eapply ok_mono.
    { apply (IH (S i) d1); try lia; auto.
      - replace (S i - 1) with i by lia. rewrite Hl1.
        rewrite (take_S_r d0 i x) by (rewrite <- Hrest by lia; exact Ex).
        symmetry. apply lastmax_snoc. rewrite <- Hlast. exact Ey.
      - intros k Hk. rewrite (swaps_outside _ _ _ _ k Hsw) by lia. apply Hrest. lia. }
    intros u' d' (Hlen' & Hlast'). split; [lia |].
    replace (i + S n) with (S i + n) by lia. exact Hlast'.
Qed.

Lemma Slice_small x :
  length x <= sort.maxInsertion ->
  exists x', sort.Slice less x = Some x' /\ x' !! (length x' - 1) = lastmax x.
Proof.
  intros Hsmall. unfold sort.Slice. cbv zeta. cbn [sort.pdqsort_func]. cbv zeta.
  rewrite Nat.sub_0_r. rewrite (proj2 (Nat.leb_le _ _) Hsmall).
  unfold sort.insertionSort_func.
  destruct x as [| x0 x].
  - exists []. split; reflexivity.
  - destruct (insertionSort_loop_last (length (x0 :: x) - (0 + 1)) (0 + 1)
                (x0 :: x) (x0 :: x)) as ([] & x' & Hrun & Hlen & Hlast).
    + lia.
    + simpl. lia.
    + intros p q u v Hp Hpq Hq. lia.
    + reflexivity.
    + reflexivity.
    + exists x'. rewrite Hrun. split; [reflexivity |].
      rewrite Hlen. simpl length in *.
      replace (0 + 1 + (S (length x) - (0 + 1)) - 1) with (S (length x) - 1) in Hlast by lia.
      rewrite Hlast. f_equal.
      replace (0 + 1 + (S (length x) - (0 + 1))) with (length (x0 :: x)) by (simpl; lia).
      apply firstn_all.
Qed.

End sort_theory.

(** ** LatestResolver *)

#[global] Instance byModTime_StrictWeak : StrictWeak byModTime.
Proof.
  split; unfold byModTime, Before.
  - intros x. lia.
  - intros x y z. lia.
  - intros x y z. lia.
Qed.

Lemma Slice_byModTime versions :
  sort.Slice byModTime versions = Some (sorted_versions versions) /\
  versions ≡ₚ sorted_versions versions /\
  sorted byModTime (sorted_versions versions).
Proof.
  destruct (Slice_spec byModTime versions) as (v' & Hrun & Hperm & Hs).
  unfold sorted_versions. rewrite Hrun. simpl. auto.
Qed.

Lemma sorted_versions_idem versions :
  sorted_versions (sorted_versions versions) = sorted_versions versions.
Proof.
  destruct (Slice_byModTime versions) as (_ & _ & Hs).
  unfold sorted_versions at 1. rewrite (Slice_sorted_id byModTime _ Hs). reflexivity.
Qed.

Lemma sorted_versions_nil : sorted_versions [] = [].
Proof. reflexivity. Qed.

Lemma sorted_versions_length versions :
  length (sorted_versions versions) = length versions.
Proof.
  destruct (Slice_byModTime versions) as (_ & Hperm & _).
  symmetry. apply Permutation_length. exact Hperm.
Qed.

Lemma newest_elem versions r : newest versions = Some r -> r ∈ versions.
Proof.
  intros Hr. destruct (Slice_byModTime versions) as (_ & Hperm & _).
  rewrite Hperm. unfold newest in Hr. rewrite last_lookup in Hr.
  eapply list_elem_of_lookup_2. exact Hr.
Qed.

Lemma newest_is_Some versions : versions <> [] -> is_Some (newest versions).
Proof.
  intros Hne. unfold newest. rewrite last_is_Some.
  intros Hnil. apply Hne. apply length_zero_iff_nil.
  rewrite <- sorted_versions_length, Hnil. reflexivity.
Qed.

(** The chosen record is not older than any record of the name. *)
Lemma newest_max versions r x :
  newest versions = Some r -> x ∈ versions ->
  Before (ModTime r) (ModTime x) = false.
Proof.
  intros Hr Hx. destruct (Slice_byModTime versions) as (_ & Hperm & Hs).
  rewrite Hperm in Hx. apply list_elem_of_lookup in Hx as [i Hi].
  unfold newest in Hr. rewrite last_lookup in Hr.
  pose proof (lookup_lt_Some _ _ _ Hi) as Hlt.
  destruct (decide (i = pred (length (sorted_versions versions)))) as [-> | Hne].
  - assert (x = r) as -> by congruence. apply (less_irrefl byModTime).
  - apply (Hs i (pred (length (sorted_versions versions))) x r); auto; lia.
Qed.

Lemma determineLatestReleases_range_spec entries latest allFiles :
  NoDup entries.*1 ->
  exists latest' allFiles',
    determineLatestReleases_range entries latest allFiles = Some (latest', allFiles') /\
    (forall name, name ∉ entries.*1 ->
       latest' !! name = latest !! name /\ allFiles' !! name = allFiles !! name) /\
    (forall name versions, (name, versions) ∈ entries ->
       latest' !! name = (if decide (versions = []) then latest !! name
                          else newest versions) /\
       allFiles' !! name = (if decide (versions = []) then allFiles !! name
                            else Some (sorted_versions versions))).
Proof.
  revert latest allFiles.
  induction entries as [| [filename versions] rest IH]; intros latest allFiles Hnd.
  - exists latest, allFiles. split; [reflexivity | split].
    + auto.
    + intros name versions Hin. inversion Hin.
  - rewrite fmap_cons in Hnd. apply NoDup_cons in Hnd as [Hfresh Hnd]. simpl in Hfresh.
    cbn [determineLatestReleases_range].
    destruct versions as [| v0 vs].
    + (* an empty sequence is skipped *)
      simpl length. cbn [Nat.eqb].
      destruct (IH latest allFiles Hnd) as (latest' & allFiles' & Hrun & Hout & Hin).
      exists latest', allFiles'. split; [exact Hrun | split].
      * intros name Hname. apply Hout. rewrite fmap_cons in Hname.
        apply not_elem_of_cons in Hname as [_ Hname]. exact Hname.
      * intros name versions Hmem. apply elem_of_cons in Hmem as [Heq | Hmem].
        -- injection Heq as -> ->. rewrite decide_True by reflexivity.
           apply Hout. exact Hfresh.
        -- apply Hin. exact Hmem.
    + set (versions := v0 :: vs) in *.
      replace (length versions =? 0) with false by reflexivity.
      destruct (Slice_byModTime versions) as (Hrun & Hperm & Hs). rewrite Hrun.
      destruct (newest_is_Some versions ltac:(discriminate)) as [r Hr].
      pose proof Hr as Hr'. unfold newest in Hr'. rewrite last_lookup in Hr'.
      replace (length (sorted_versions versions) - 1)
        with (pred (length (sorted_versions versions))) by lia.
      rewrite Hr'.
      destruct (IH (<[filename := r]> latest)
                   (<[filename := sorted_versions versions]> allFiles) Hnd)
        as (latest' & allFiles' & Hrun' & Hout & Hin).
      exists latest', allFiles'. split; [exact Hrun' | split].
      * intros name Hname. rewrite fmap_cons in Hname.
        apply not_elem_of_cons in Hname as [Hne Hname]. simpl in Hne.
        destruct (Hout name Hname) as [-> ->].
        rewrite !lookup_insert_ne by congruence. auto.
      * intros name versions' Hmem. apply elem_of_cons in Hmem as [Heq | Hmem].
        -- injection Heq as -> ->. rewrite !decide_False by discriminate.
           destruct (Hout filename Hfresh) as [-> ->].
           rewrite !lookup_insert_eq. auto.
        -- assert (name <> filename).
           { intros ->. apply Hfresh. apply list_elem_of_fmap.
             exists (filename, versions'). auto. }
           destruct (Hin name versions' Hmem) as [-> ->].
           rewrite !lookup_insert_ne by congruence. auto.
Qed.

(** What [determineLatestReleases] returns, whatever the order in which the
    map is visited: for every name the newest of its records, and the
    grouping map with every sequence sorted. *)
Lemma determineLatestReleases_order entries allFiles :
  entries ≡ₚ map_to_list allFiles ->
  exists latest allFiles',
    determineLatestReleases_range entries ∅ allFiles = Some (latest, allFiles') /\
    (forall name, latest !! name = allFiles !! name ≫= newest) /\
    (forall name, allFiles' !! name = sorted_versions <$> allFiles !! name).
Proof.
  intros Hperm.
  assert (Hnd : NoDup entries.*1).
  { rewrite Hperm. apply NoDup_fst_map_to_list. }
  destruct (determineLatestReleases_range_spec entries ∅ allFiles Hnd)
    as (latest & allFiles' & Hrun & Hout & Hin).
  exists latest, allFiles'. split; [exact Hrun |].
  assert (Hcases : forall name,
            match allFiles !! name with
            | Some versions => (name, versions) ∈ entries
            | None => name ∉ entries.*1
            end).
  { intros name. destruct (allFiles !! name) as [versions |] eqn:E.
    - rewrite Hperm. apply elem_of_map_to_list. exact E.
    - rewrite Hperm. intros Hmem. apply list_elem_of_fmap in Hmem as ([n v] & -> & Hmem).
      apply elem_of_map_to_list in Hmem. simpl in E. congruence. }
  split; intros name; specialize (Hcases name);
    destruct (allFiles !! name) as [versions |] eqn:E; simpl.
  - destruct (Hin name versions Hcases) as [-> _].
    case_decide; [subst; rewrite lookup_empty; reflexivity | reflexivity].
  - destruct (Hout name Hcases) as [-> _]. apply lookup_empty.
  - destruct (Hin name versions Hcases) as [_ ->].
    case_decide; [subst; exact E | reflexivity].
  - destruct (Hout name Hcases) as [_ ->]. exact E.
Qed.

Lemma determineLatestReleases_spec allFiles :
  exists latest allFiles',
    determineLatestReleases allFiles = Some (latest, allFiles') /\
    (forall name, latest !! name = allFiles !! name ≫= newest) /\
    (forall name, allFiles' !! name = sorted_versions <$> allFiles !! name).
Proof. apply determineLatestReleases_order. reflexivity. Qed.

Lemma Before_total t u : Before t u = false -> t <> u -> Before u t = true.
Proof.
  destruct t as [s1 n1], u as [s2 n2]. unfold Before. simpl. intros H Hne.
  assert (s1 <> s2 \/ n1 <> n2) by (destruct (decide (s1 = s2)); [right | left]; congruence).
  lia.
Qed.

Lemma NoDup_fmap_eq {A B : Type} (f : A -> B) (l : list A) x y :
  NoDup (f <$> l) -> x ∈ l -> y ∈ l -> f x = f y -> x = y.
Proof.
  induction l as [| z l IH]; intros Hnd Hx Hy Hf; [inversion Hx |].
  rewrite fmap_cons in Hnd. apply NoDup_cons in Hnd as [Hz Hnd].
  apply elem_of_cons in Hx as [-> | Hx]; apply elem_of_cons in Hy as [-> | Hy].
  - reflexivity.
  - exfalso. apply Hz. rewrite Hf. apply list_elem_of_fmap. eauto.
  - exfalso. apply Hz. rewrite <- Hf. apply list_elem_of_fmap. eauto.
  - apply IH; auto.
Qed.

(** C1, as the specification states it, fails: of thirteen records of one
    name, the first and the fifth share the greatest modification time, and
    the resolver keeps the first ([a01.zip]), not the one that comes later
    in the input ([a05.zip]).  [sort.Slice] is not a stable sort. *)
Lemma C1_later_tie_not_chosen : ~ stable_tie_break.
Proof.
  intros Hclaim.
  assert (H1 : thirteen_archives !! "lib.dll" = Some thirteen_versions) by reflexivity.
  assert (H2 : last_of_newest thirteen_versions (release "lib.dll" "a05.zip" 9 100)).
  { exists (take 4 thirteen_versions), (drop 5 thirteen_versions).
    split; [reflexivity | split]; repeat constructor. }
  assert (H3 : release "lib.dll" "a01.zip" 9 100 ∈ thirteen_versions)
    by repeat constructor.
  assert (H4 : release "lib.dll" "a01.zip" 9 100 <> release "lib.dll" "a05.zip" 9 100)
    by discriminate.
  destruct (Hclaim _ _ _ _ _ H1 H2 H3 H4 eq_refl) as (latest & allFiles' & Hrun & Hlatest).
  destruct (determineLatestReleases_spec thirteen_archives)
    as (latest0 & allFiles0 & Hrun0 & Hl0 & _).
  rewrite Hrun0 in Hrun. injection Hrun as <- <-.
  rewrite Hl0 in Hlatest. vm_compute in Hlatest. discriminate Hlatest.
Qed.

(** The slice of the example as [sort.Slice] leaves it.  [choosePivot_func]
    takes the record of [a04.zip] as pivot; [partition_func] exchanges the
    records of [a01.zip] and [a13.zip], then those of [a05.zip] and
    [a12.zip], which puts [a01.zip] behind [a05.zip]; the insertion sorts of
    the two sides keep them so. *)
Lemma thirteen_versions_sorted :
  ArchiveName <$> sorted_versions thirteen_versions =
    ["a10.zip"; "a13.zip"; "a12.zip"; "a11.zip"; "a02.zip"; "a03.zip"; "a04.zip";
     "a06.zip"; "a07.zip"; "a08.zip"; "a09.zip"; "a05.zip"; "a01.zip"].
Proof. vm_compute. reflexivity. Qed.

(** C1, amended: the resolver keeps a record whose modification time is the
    greatest of its name; when the name has at most twelve records
    ([maxInsertion]), it is the one that comes last in the input among the
    records with that greatest time. *)
Theorem C1_newest_and_stable_up_to_twelve
    (allFiles : gmap string (list FileRecord)) name versions :
  allFiles !! name = Some versions -> versions <> [] ->
  exists latest allFiles' r,
    determineLatestReleases allFiles = Some (latest, allFiles') /\
    latest !! name = Some r /\ r ∈ versions /\
    (forall x, x ∈ versions -> Before (ModTime r) (ModTime x) = false) /\
    (length versions <= 12 -> last_of_newest versions r).
Proof.
  intros Hname Hne.
  destruct (determineLatestReleases_spec allFiles) as (latest & allFiles' & Hrun & Hl & _).
  destruct (newest_is_Some versions Hne) as [r Hr].
  exists latest, allFiles', r. split; [exact Hrun |].
  split; [rewrite Hl, Hname; exact Hr |].
  split; [eapply newest_elem; eauto |].
  split; [intros x Hx; eapply newest_max; eauto |].
  intros Hsmall.
  destruct (Slice_small byModTime versions Hsmall) as (v' & Hv' & Hlast).
  destruct (Slice_byModTime versions) as (Hrun' & _ & _).
  assert (v' = sorted_versions versions) as -> by congruence.
  unfold newest in Hr. rewrite last_lookup in Hr.
  replace (pred (length (sorted_versions versions)))
    with (length (sorted_versions versions) - 1) in Hr by lia.
  rewrite Hr in Hlast. symmetry in Hlast.
  apply (lastmax_spec byModTime) in Hlast. exact Hlast.
Qed.

Lemma C1_newest_and_stable_witness :
  exists latest allFiles' r,
    determineLatestReleases three_archives = Some (latest, allFiles') /\
    latest !! "lib.dll" = Some r /\ r ∈ three_versions /\
    (forall x, x ∈ three_versions -> Before (ModTime r) (ModTime x) = false) /\
    (length three_versions <= 12 -> last_of_newest three_versions r).
Proof.
  apply (C1_newest_and_stable_up_to_twelve three_archives "lib.dll" three_versions).
  - reflexivity.
  - discriminate.
Defined.

(** C2: when the records of a name have pairwise distinct modification
    times, the resolver keeps the record with the greatest of them: every
    other record of the name is strictly older. *)
Theorem C2_distinct_times_newest_wins
    (allFiles : gmap string (list FileRecord)) name versions :
  allFiles !! name = Some versions -> versions <> [] ->
  NoDup (ModTime <$> versions) ->
  exists latest allFiles' r,
    determineLatestReleases allFiles = Some (latest, allFiles') /\
    latest !! name = Some r /\ r ∈ versions /\
    (forall x, x ∈ versions -> x <> r -> Before (ModTime x) (ModTime r) = true).
Proof.
  intros Hname Hne Hnd.
  destruct (determineLatestReleases_spec allFiles) as (latest & allFiles' & Hrun & Hl & _).
  destruct (newest_is_Some versions Hne) as [r Hr].
  pose proof (newest_elem versions r Hr) as Hin.
  exists latest, allFiles', r. split; [exact Hrun |].
  split; [rewrite Hl, Hname; exact Hr |].
  split; [exact Hin |].
  intros x Hx Hxr. apply Before_total.
  - eapply newest_max; eauto.
  - intros Heq. apply Hxr. symmetry. eapply NoDup_fmap_eq; eauto.
Qed.

Lemma C2_distinct_times_witness :
  exists latest allFiles' r,
    determineLatestReleases two_archives = Some (latest, allFiles') /\
    latest !! "lib.dll" = Some r /\
    r ∈ [release "lib.dll" "b.zip" 2 200; release "lib.dll" "a.zip" 1 100] /\
    (forall x, x ∈ [release "lib.dll" "b.zip" 2 200; release "lib.dll" "a.zip" 1 100] ->
       x <> r -> Before (ModTime x) (ModTime r) = true).
Proof.
  apply (C2_distinct_times_newest_wins two_archives "lib.dll").
  - reflexivity.
  - discriminate.
  - apply NoDup_cons. split; [| apply NoDup_singleton].
    rewrite list_elem_of_singleton. discriminate.
Defined.

(** C8: a second run on the grouping map as the first run left it returns
    the same resolution map (and leaves the grouping map as it is). *)
Theorem C8_resolve_twice (allFiles : gmap string (list FileRecord)) :
  exists latest allFiles',
    determineLatestReleases allFiles = Some (latest, allFiles') /\
    determineLatestReleases allFiles' = Some (latest, allFiles').
Proof.
  destruct (determineLatestReleases_spec allFiles) as (latest & allFiles' & Hrun & Hl & Ha).
  exists latest, allFiles'. split; [exact Hrun |].
  destruct (determineLatestReleases_spec allFiles') as (latest2 & allFiles2 & Hrun2 & Hl2 & Ha2).
  rewrite Hrun2. f_equal. f_equal.
  - apply map_eq. intros name. rewrite Hl2, Ha, Hl.
    destruct (allFiles !! name) as [versions |]; [| reflexivity]. simpl.
    unfold newest. rewrite sorted_versions_idem. reflexivity.
  - apply map_eq. intros name. rewrite Ha2, Ha.
    destruct (allFiles !! name) as [versions |]; [| reflexivity]. simpl.
    rewrite sorted_versions_idem. reflexivity.
Qed.

(** C10: the resolver returns (it does not panic, also on an empty
    sequence); the names of the resolution map are the names with a
    non-empty sequence, and the record kept for a name is one of the records
    of that name. *)
Theorem C10_keys_and_membership (allFiles : gmap string (list FileRecord)) :
  exists latest allFiles',
    determineLatestReleases allFiles = Some (latest, allFiles') /\
    (forall name, is_Some (latest !! name) <->
       exists versions, allFiles !! name = Some versions /\ versions <> []) /\
    (forall name r, latest !! name = Some r ->
       exists versions, allFiles !! name = Some versions /\ r ∈ versions).
Proof.
  destruct (determineLatestReleases_spec allFiles) as (latest & allFiles' & Hrun & Hl & _).
  exists latest, allFiles'. split; [exact Hrun | split].
  - intros name. rewrite Hl. destruct (allFiles !! name) as [versions |]; simpl.
    + split.
      * intros [r Hr]. exists versions. split; [reflexivity |].
        intros ->. discriminate.
      * intros (v & [= <-] & Hne). apply newest_is_Some. exact Hne.
    + split; [intros [r Hr]; discriminate | intros (v & Hv & _); discriminate].
  - intros name r. rewrite Hl. destruct (allFiles !! name) as [versions |]; simpl.
    + intros Hr. exists versions. split; [reflexivity |]. eapply newest_elem; eauto.
    + discriminate.
Qed.

(** ** ArchiveInspector *)

Lemma extract_loop_spec w archivePath archiveInfo entries files :
  extract_loop w archivePath archiveInfo entries files =
    files ++ (record_of w archivePath archiveInfo <$>
                filter (fun f => IsDir f = false) entries).
Proof.
  revert files. induction entries as [| f rest IH]; intros files.
  - simpl. rewrite app_nil_r. reflexivity.
  - cbn [extract_loop]. rewrite filter_cons. destruct (IsDir f) eqn:Ed.
    + rewrite decide_False by discriminate. apply IH.
    + rewrite decide_True by reflexivity. rewrite IH, fmap_cons, <- app_assoc.
      reflexivity.
Qed.

(** A successful inspection: the archive was stat'ed and opened, and the
    records are those of its entries that are not directories, in the order
    of the central directory. *)
Lemma extractFileInfoFromArchive_Ok w archivePath files :
  extractFileInfoFromArchive w archivePath = Ok files ->
  exists archiveInfo entries,
    Stat w archivePath = Ok archiveInfo /\
    OpenReader w archivePath = Ok entries /\
    files = record_of w archivePath archiveInfo <$>
              filter (fun f => IsDir f = false) entries.
Proof.
  unfold extractFileInfoFromArchive.
  destruct (Stat w archivePath) as [archiveInfo | e]; [| discriminate].
  destruct (OpenReader w archivePath) as [entries | e]; [| discriminate].
  intros [= <-]. exists archiveInfo, entries.
  rewrite extract_loop_spec. auto.
Qed.

(** C5: every record of a successful inspection carries the modification
    time that [os.Stat] gave for the archive itself, so all records of one
    archive share one time. *)
Theorem C5_records_carry_archive_mtime w archivePath files :
  extractFileInfoFromArchive w archivePath = Ok files ->
  exists archiveInfo,
    Stat w archivePath = Ok archiveInfo /\
    Forall (fun r => ModTime r = fiModTime archiveInfo) files /\
    (forall r r', r ∈ files -> r' ∈ files -> ModTime r = ModTime r').
Proof.
  intros Hok.
  destruct (extractFileInfoFromArchive_Ok w archivePath files Hok)
    as (archiveInfo & entries & Hstat & _ & ->).
  assert (Hall : Forall (fun r => ModTime r = fiModTime archiveInfo)
            (record_of w archivePath archiveInfo <$>
               filter (fun f => IsDir f = false) entries)).
  { apply Forall_fmap. apply Forall_forall. intros f _. reflexivity. }
  exists archiveInfo. split; [exact Hstat | split; [exact Hall |]].
  rewrite Forall_forall in Hall. intros r r' Hr Hr'.
  rewrite (Hall r Hr), (Hall r' Hr'). reflexivity.
Qed.

Lemma C5_archive_mtime_witness :
  exists archiveInfo,
    Stat example_world "X:/NETDBS/b.ZIP" = Ok archiveInfo /\
    Forall (fun r => ModTime r = fiModTime archiveInfo)
      [mkFileRecord "lib.dll" (at_time 2) "X:/NETDBS/b.ZIP" "b.ZIP" 200;
       mkFileRecord "docs/readme.txt" (at_time 2) "X:/NETDBS/b.ZIP" "b.ZIP" 10] /\
    (forall r r',
       r ∈ [mkFileRecord "lib.dll" (at_time 2) "X:/NETDBS/b.ZIP" "b.ZIP" 200;
            mkFileRecord "docs/readme.txt" (at_time 2) "X:/NETDBS/b.ZIP" "b.ZIP" 10] ->
       r' ∈ [mkFileRecord "lib.dll" (at_time 2) "X:/NETDBS/b.ZIP" "b.ZIP" 200;
             mkFileRecord "docs/readme.txt" (at_time 2) "X:/NETDBS/b.ZIP" "b.ZIP" 10] ->
       ModTime r = ModTime r').
Proof.
  apply (C5_records_carry_archive_mtime example_world "X:/NETDBS/b.ZIP").
  reflexivity.
Defined.

Lemma hasTrailingSlash_IsDir f : hasTrailingSlash (zName f) = true -> IsDir f = true.
Proof. intros H. unfold IsDir. rewrite H. apply orb_true_r. Qed.

(** C6: the records of a successful inspection are exactly the records of
    the entries that are not directories: a directory entry (directory
    attribute, or a name that ends in a slash) never becomes a record, and no
    record has a name that ends in a slash. *)
Theorem C6_directories_are_skipped w archivePath files :
  extractFileInfoFromArchive w archivePath = Ok files ->
  exists entries,
    OpenReader w archivePath = Ok entries /\
    Name <$> files = zName <$> filter (fun f => IsDir f = false) entries /\
    (forall r, r ∈ files ->
       exists f, f ∈ entries /\ IsDir f = false /\ zName f = Name r /\
                 zUncompressedSize f = Size r) /\
    Forall (fun r => hasTrailingSlash (Name r) = false) files.
Proof.
  intros Hok.
  destruct (extractFileInfoFromArchive_Ok w archivePath files Hok)
    as (archiveInfo & entries & _ & Hopen & ->).
  assert (Hfrom : forall r,
            r ∈ record_of w archivePath archiveInfo <$>
                  filter (fun f => IsDir f = false) entries ->
            exists f, f ∈ entries /\ IsDir f = false /\ zName f = Name r /\
                      zUncompressedSize f = Size r).
  { intros r Hr. apply list_elem_of_fmap in Hr as (f & -> & Hf).
    apply list_elem_of_filter in Hf as [Hd Hf]. exists f. auto. }
  exists entries. split; [exact Hopen | split; [| split; [exact Hfrom |]]].
  - rewrite <- list_fmap_compose. reflexivity.
  - apply Forall_forall. intros r Hr.
    destruct (Hfrom r Hr) as (f & _ & Hd & Hn & _). rewrite <- Hn.
    destruct (hasTrailingSlash (zName f)) eqn:E; [| reflexivity].
    rewrite (hasTrailingSlash_IsDir f E) in Hd. discriminate.
Qed.

Lemma C6_directories_witness :
  exists entries,
    OpenReader example_world "X:/NETDBS/b.ZIP" = Ok entries /\
    Name <$> [mkFileRecord "lib.dll" (at_time 2) "X:/NETDBS/b.ZIP" "b.ZIP" 200;
              mkFileRecord "docs/readme.txt" (at_time 2) "X:/NETDBS/b.ZIP" "b.ZIP" 10]
      = zName <$> filter (fun f => IsDir f = false) entries /\
    (forall r,
       r ∈ [mkFileRecord "lib.dll" (at_time 2) "X:/NETDBS/b.ZIP" "b.ZIP" 200;
            mkFileRecord "docs/readme.txt" (at_time 2) "X:/NETDBS/b.ZIP" "b.ZIP" 10] ->
       exists f, f ∈ entries /\ IsDir f = false /\ zName f = Name r /\
                 zUncompressedSize f = Size r) /\
    Forall (fun r => hasTrailingSlash (Name r) = false)
      [mkFileRecord "lib.dll" (at_time 2) "X:/NETDBS/b.ZIP" "b.ZIP" 200;
       mkFileRecord "docs/readme.txt" (at_time 2) "X:/NETDBS/b.ZIP" "b.ZIP" 10].
Proof.
  apply (C6_directories_are_skipped example_world "X:/NETDBS/b.ZIP").
  reflexivity.
Defined.

(** C7, as the specification states it, fails: ZIP permits an entry with an
    empty name, [zip.OpenReader] lists it, and the inspector has no test for
    it; the archive [e.zip] of the example yields a record whose name is
    empty. *)
Lemma C7_empty_name_is_kept :
  exists files r,
    extractFileInfoFromArchive example_world "X:/OTHER/e.zip" = Ok files /\
    r ∈ files /\ Name r = "".
Proof.
  exists [mkFileRecord "" (at_time 4) "X:/OTHER/e.zip" "e.zip" 7],
         (mkFileRecord "" (at_time 4) "X:/OTHER/e.zip" "e.zip" 7).
  split; [reflexivity | split; [| reflexivity]].
  apply list_elem_of_singleton. reflexivity.
Qed.

(** C7, amended: a record carries the name of its entry unchanged.  The
    names of the records of an archive are the names of its entries that are
    not directories, one for one and in their order; so every record has
    the name of such an entry, every such entry (one with an empty name
    too) becomes a record with its name, and the records have non-empty
    names exactly when the entries that are not directories have. *)
Theorem C7_names_as_in_archive w archivePath files entries :
  extractFileInfoFromArchive w archivePath = Ok files ->
  OpenReader w archivePath = Ok entries ->
  Name <$> files = zName <$> filter (fun f => IsDir f = false) entries /\
  (forall r, r ∈ files ->
     exists f, f ∈ entries /\ IsDir f = false /\ Name r = zName f) /\
  (forall f, f ∈ entries -> IsDir f = false ->
     exists r, r ∈ files /\ Name r = zName f) /\
  (Forall (fun r => Name r <> "") files <->
   Forall (fun f => IsDir f = false -> zName f <> "") entries).
Proof.
  intros Hok Hopen.
  destruct (extractFileInfoFromArchive_Ok w archivePath files Hok)
    as (archiveInfo & entries' & _ & Hopen' & ->).
  assert (entries' = entries) as -> by congruence.
  assert (Hfrom : forall r,
            r ∈ record_of w archivePath archiveInfo <$>
                  filter (fun f => IsDir f = false) entries ->
            exists f, f ∈ entries /\ IsDir f = false /\ Name r = zName f).
  { intros r Hr. apply list_elem_of_fmap in Hr as (f & -> & Hf).
    apply list_elem_of_filter in Hf as [Hd Hf]. exists f. auto. }
  assert (Hto : forall f, f ∈ entries -> IsDir f = false ->
            exists r, r ∈ record_of w archivePath archiveInfo <$>
                            filter (fun f => IsDir f = false) entries /\
                      Name r = zName f).
  { intros f Hf Hd. exists (record_of w archivePath archiveInfo f).
    split; [| reflexivity]. apply list_elem_of_fmap. exists f.
    split; [reflexivity |]. apply list_elem_of_filter. auto. }
  split; [| split; [exact Hfrom | split; [exact Hto |]]].
  - rewrite <- list_fmap_compose. reflexivity.
  - rewrite !Forall_forall. split.
    + intros Hnames f Hf Hd. destruct (Hto f Hf Hd) as (r & Hr & Hn).
      rewrite <- Hn. apply Hnames. exact Hr.
    + intros Hnames r Hr. destruct (Hfrom r Hr) as (f & Hf & Hd & Hn).
      rewrite Hn. apply Hnames; assumption.
Qed.

Lemma C7_names_witness :
  Name <$> [mkFileRecord "lib.dll" (at_time 2) "X:/NETDBS/b.ZIP" "b.ZIP" 200;
            mkFileRecord "docs/readme.txt" (at_time 2) "X:/NETDBS/b.ZIP" "b.ZIP" 10]
    = zName <$> filter (fun f => IsDir f = false)
                  [mkZipFile "docs/" false 0; mkZipFile "bin" true 0;
                   mkZipFile "lib.dll" false 200; mkZipFile "docs/readme.txt" false 10] /\
  (forall r,
     r ∈ [mkFileRecord "lib.dll" (at_time 2) "X:/NETDBS/b.ZIP" "b.ZIP" 200;
          mkFileRecord "docs/readme.txt" (at_time 2) "X:/NETDBS/b.ZIP" "b.ZIP" 10] ->
     exists f,
       f ∈ [mkZipFile "docs/" false 0; mkZipFile "bin" true 0;
            mkZipFile "lib.dll" false 200; mkZipFile "docs/readme.txt" false 10] /\
       IsDir f = false /\ Name r = zName f) /\
  (forall f,
     f ∈ [mkZipFile "docs/" false 0; mkZipFile "bin" true 0;
          mkZipFile "lib.dll" false 200; mkZipFile "docs/readme.txt" false 10] ->
     IsDir f = false ->
     exists r,
       r ∈ [mkFileRecord "lib.dll" (at_time 2) "X:/NETDBS/b.ZIP" "b.ZIP" 200;
            mkFileRecord "docs/readme.txt" (at_time 2) "X:/NETDBS/b.ZIP" "b.ZIP" 10] /\
       Name r = zName f) /\
  (Forall (fun r => Name r <> "")
     [mkFileRecord "lib.dll" (at_time 2) "X:/NETDBS/b.ZIP" "b.ZIP" 200;
      mkFileRecord "docs/readme.txt" (at_time 2) "X:/NETDBS/b.ZIP" "b.ZIP" 10] <->
   Forall (fun f => IsDir f = false -> zName f <> "")
     [mkZipFile "docs/" false 0; mkZipFile "bin" true 0;
      mkZipFile "lib.dll" false 200; mkZipFile "docs/readme.txt" false 10]).
Proof.
  apply (C7_names_as_in_archive example_world "X:/NETDBS/b.ZIP").
  - reflexivity.
  - reflexivity.
Defined.

(** ** ReportWriter *)

Lemma append_String c s t : String c s +:+ t = String c (s +:+ t).
Proof. reflexivity. Qed.

Lemma append_nil_l s : "" +:+ s = s.
Proof. reflexivity. Qed.

Lemma append_assoc s t u : (s +:+ t) +:+ u = s +:+ (t +:+ u).
Proof.
  induction s as [| c s IH]; [reflexivity |].
  rewrite !append_String, IH. reflexivity.
Qed.

Lemma length_append s t : String.length (s +:+ t) = String.length s + String.length t.
Proof.
  induction s as [| c s IH]; [reflexivity |].
  rewrite append_String. simpl. rewrite IH. reflexivity.
Qed.

Lemma length_spaces n : String.length (spaces n) = n.
Proof. induction n as [| n IH]; simpl; congruence. Qed.

Lemma length_substring_0 n s :
  n <= String.length s -> String.length (String.substring 0 n s) = n.
Proof.
  revert s. induction n as [| n IH]; intros [| c s] Hn; simpl in *;
    try lia; try reflexivity.
  rewrite IH by lia. reflexivity.
Qed.

Lemma list_ascii_append s t :
  list_ascii_of_string (s +:+ t) = list_ascii_of_string s ++ list_ascii_of_string t.
Proof.
  induction s as [| c s IH]; [reflexivity |].
  rewrite append_String. simpl. rewrite IH. reflexivity.
Qed.

Lemma list_ascii_substring_0 n s :
  list_ascii_of_string (String.substring 0 n s) = take n (list_ascii_of_string s).
Proof.
  revert s. induction n as [| n IH]; intros [| c s]; simpl; try reflexivity.
  rewrite IH. reflexivity.
Qed.

Lemma length_list_ascii s : length (list_ascii_of_string s) = String.length s.
Proof. induction s as [| c s IH]; simpl; congruence. Qed.

Lemma RuneCount_loop_ascii l :
  Forall (fun c => c < 128) l -> RuneCount_loop (length l) l = length l.
Proof.
  induction 1 as [| c l Hc _ IH]; [reflexivity |].
  cbn [length RuneCount_loop]. unfold utf8_size.
  rewrite (proj2 (Nat.ltb_lt c 128) Hc). cbn [drop]. rewrite drop_0, IH. reflexivity.
Qed.

(** In a string of ASCII bytes every byte is a rune. *)
Lemma RuneCountInString_ascii s : ascii_only s -> RuneCountInString s = String.length s.
Proof.
  intros Hs. unfold RuneCountInString.
  rewrite <- (length_list_ascii s), <- (length_map byte).
  rewrite RuneCount_loop_ascii; [reflexivity |].
  apply Forall_fmap. exact Hs.
Qed.

Lemma truncateString_50 s :
  truncateString s 50 =
    Some (if 50 <? String.length s then String.substring 0 47 s +:+ "..." else s).
Proof.
  unfold truncateString.
  destruct (Z.leb_spec (Z.of_nat (String.length s)) 50) as [Hle | Hgt].
  - destruct (Nat.ltb_spec 50 (String.length s)); [lia | reflexivity].
  - destruct (Nat.ltb_spec 50 (String.length s)); [reflexivity | lia].
Qed.

Lemma ends_with_ellipsis_append prefix : ends_with_ellipsis (prefix +:+ "...") = true.
Proof.
  induction prefix as [| c p IH]; [reflexivity |].
  rewrite append_String. cbn [ends_with_ellipsis]. rewrite IH. apply orb_true_r.
Qed.

(** C4, as the specification states it, fails for a name with a letter
    outside ASCII: the name of the example is longer than fifty bytes and
    than fifty characters, yet its field is not a prefix followed by the
    dots: the verb [%-50s] counts 49 runes in the truncated name and adds a
    space. *)
Lemma C4_truncated_field_is_padded :
  50 < String.length accented_name /\ 50 < RuneCountInString accented_name /\
  exists field,
    nameField (release accented_name "a.zip" 1 100) = Some field /\
    String.length field = 51 /\
    forall prefix, field <> prefix +:+ "...".
Proof.
  split; [vm_compute; lia | split; [vm_compute; lia |]].
  eexists. split; [vm_compute; reflexivity | split; [reflexivity |]].
  intros prefix Heq.
  apply (f_equal ends_with_ellipsis) in Heq.
  rewrite ends_with_ellipsis_append in Heq. vm_compute in Heq. discriminate Heq.
Qed.

(** C4, amended: the field is the truncated name (the name itself when it
    has at most fifty bytes, its first 47 bytes and three dots otherwise) as
    the verb [%-50s] pads it: with spaces on the right up to fifty runes.
    For a name of ASCII bytes this is the law of the specification: the
    first 47 characters and the dots for a name longer than fifty, and the
    name padded to fifty characters otherwise. *)
Theorem C4_name_field (record : FileRecord) :
  (50 < String.length (Name record) ->
     nameField record =
       Some (fmt_s_left 50 (String.substring 0 47 (Name record) +:+ "..."))) /\
  (String.length (Name record) <= 50 ->
     nameField record = Some (fmt_s_left 50 (Name record))) /\
  (ascii_only (Name record) ->
     (50 < String.length (Name record) ->
        nameField record = Some (String.substring 0 47 (Name record) +:+ "...")) /\
     (String.length (Name record) <= 50 ->
        nameField record =
          Some (Name record +:+ spaces (50 - String.length (Name record))))).
Proof.
  unfold nameField. rewrite truncateString_50.
  split; [| split; [| intros Hascii; split]].
  - intros Hlong. rewrite (proj2 (Nat.ltb_lt _ _) Hlong). reflexivity.
  - intros Hshort. rewrite (proj2 (Nat.ltb_ge _ _) Hshort). reflexivity.
  - intros Hlong. rewrite (proj2 (Nat.ltb_lt _ _) Hlong).
    unfold fmt_s_left. rewrite RuneCountInString_ascii.
    + rewrite length_append, length_substring_0 by lia.
      change (String.length "...") with 3. change (50 - (47 + 3)) with 0.
      simpl spaces. f_equal.
      generalize (String.substring 0 47 (Name record) +:+ "..."). intros s.
      induction s as [| c s IH]; [reflexivity |]. rewrite append_String, IH. reflexivity.
    + unfold ascii_only. rewrite list_ascii_append, list_ascii_substring_0.
      apply Forall_app. split; [apply Forall_take; exact Hascii |].
      repeat constructor.
  - intros Hshort. rewrite (proj2 (Nat.ltb_ge _ _) Hshort).
    unfold fmt_s_left. rewrite RuneCountInString_ascii by exact Hascii. reflexivity.
Qed.

Lemma C4_name_field_witness :
  nameField (release "lib.dll" "a.zip" 1 100) =
    Some ("lib.dll" +:+ spaces (50 - String.length "lib.dll")).
Proof.
  apply (C4_name_field (release "lib.dll" "a.zip" 1 100)).
  - unfold ascii_only. simpl. repeat constructor.
  - simpl. lia.
Defined.

(** C3: the header line and the divider of every report.  The divider has
    as many dashes as [header] has bytes, and [header] ends with its line
    feed and holds two-byte letters: the header line is 113 bytes, or 88
    characters, long, the divider line 114. *)
Lemma C3_header_and_divider :
  exists line1,
    header = line1 +:+ nl /\
    String.length line1 = 113 /\ RuneCountInString line1 = 88 /\
    divider = Repeat "-"%char 114 +:+ nl /\
    String.length (Repeat "-"%char 114) = 114.
Proof.
  exists (String.substring 0 113 header).
  split; [vm_compute; reflexivity |].
  split; [vm_compute; reflexivity |].
  split; [vm_compute; reflexivity |].
  split; vm_compute; reflexivity.
Qed.

(** *** The report file *)

Lemma line_is_Some w record : exists l, line w record = Some l.
Proof.
  unfold line, nameField. rewrite truncateString_50. eauto.
Qed.

Lemma append_nil_r s : s +:+ "" = s.
Proof. induction s as [| c s IH]; [reflexivity |]. rewrite append_String, IH. reflexivity. Qed.

Lemma writeResultsToFile_range_ok w rows file :
  (forall k, WriteError w k = None) ->
  exists file',
    writeResultsToFile_range w rows file = Written (Some file') None /\
    content file' = content file +:+ body_of w rows.
Proof.
  intros Hok. revert file. induction rows as [| [name record] rest IH]; intros file.
  - exists file. split; [reflexivity |]. simpl. rewrite append_nil_r. reflexivity.
  - cbn [writeResultsToFile_range body_of].
    destruct (line_is_Some w record) as [l Hl]. rewrite Hl. simpl default.
    unfold WriteString. rewrite Hok.
    destruct (IH (mkFile (content file +:+ l) (S (writes file)))) as (file' & Hrun & Hc).
    exists file'. split; [exact Hrun |]. rewrite Hc. simpl content.
    apply append_assoc.
Qed.

Lemma body_of_row w rows name record :
  (name, record) ∈ rows ->
  exists l before after, line w record = Some l /\ body_of w rows = before +:+ l +:+ after.
Proof.
  induction rows as [| [n r] rest IH]; intros Hin; [inversion Hin |].
  apply elem_of_cons in Hin as [Heq | Hin].
  - injection Heq as <- <-. destruct (line_is_Some w record) as [l Hl].
    exists l, "", (body_of w rest). split; [exact Hl |].
    cbn [body_of]. rewrite Hl. reflexivity.
  - destruct (IH Hin) as (l & before & after & Hl & Hb).
    exists l, (default "" (line w r) +:+ before), after. split; [exact Hl |].
    cbn [body_of]. rewrite Hb, append_assoc. reflexivity.
Qed.

Lemma writeResultsToFile_ok w filename results :
  Create w filename = None -> (forall k, WriteError w k = None) ->
  exists file,
    writeResultsToFile w filename results = Written (Some file) None /\
    content file = header +:+ divider +:+ body_of w (MapOrder w (map_to_list results)).
Proof.
  intros Hcreate Hok. unfold writeResultsToFile. rewrite Hcreate.
  unfold WriteString. rewrite !Hok. simpl writes. simpl content.
  destruct (writeResultsToFile_range_ok w (MapOrder w (map_to_list results))
              (mkFile (header +:+ divider) 2) Hok) as (file & Hrun & Hc).
  exists file. split; [exact Hrun |]. rewrite Hc. simpl content. apply append_assoc.
Qed.

(** ** Orchestrator *)

Lemma group_append_new allFiles file : holds (group_append allFiles file) file.
Proof.
  unfold holds, group_append. rewrite lookup_insert_eq.
  eexists. split; [reflexivity |]. apply elem_of_app. right. apply list_elem_of_singleton.
  reflexivity.
Qed.

Lemma group_append_keeps allFiles file r :
  holds allFiles r -> holds (group_append allFiles file) r.
Proof.
  intros (versions & Hv & Hr). unfold holds, group_append.
  destruct (decide (Name file = Name r)) as [Heq | Hne].
  - rewrite Heq, lookup_insert_eq, Hv. simpl.
    eexists. split; [reflexivity |]. apply elem_of_app. left. exact Hr.
  - rewrite lookup_insert_ne by exact Hne. eauto.
Qed.

Lemma fold_group_append_keeps files allFiles r :
  holds allFiles r -> holds (fold_left group_append files allFiles) r.
Proof.
  revert allFiles. induction files as [| f files IH]; intros allFiles Hr; [exact Hr |].
  simpl. apply IH. apply group_append_keeps. exact Hr.
Qed.

Lemma fold_group_append_new files allFiles r :
  r ∈ files -> holds (fold_left group_append files allFiles) r.
Proof.
  revert allFiles. induction files as [| f files IH]; intros allFiles Hr; [inversion Hr |].
  simpl. apply elem_of_cons in Hr as [-> | Hr].
  - apply fold_group_append_keeps. apply group_append_new.
  - apply IH. exact Hr.
Qed.

Lemma main_collect_spec w archives allFiles warns :
  (forall r, holds allFiles r -> holds (main_collect w archives allFiles warns).1 r) /\
  (forall m, m ∈ warns -> m ∈ (main_collect w archives allFiles warns).2) /\
  (forall p files r, p ∈ archives -> extractFileInfoFromArchive w p = Ok files ->
     r ∈ files -> holds (main_collect w archives allFiles warns).1 r) /\
  (forall p e, p ∈ archives -> extractFileInfoFromArchive w p = Err e ->
     warning p e ∈ (main_collect w archives allFiles warns).2).
Proof.
  revert allFiles warns.
  induction archives as [| archivePath rest IH]; intros allFiles warns.
  - simpl. split; [auto | split; [auto | split]].
    + intros p files r Hp. inversion Hp.
    + intros p e Hp. inversion Hp.
  - cbn [main_collect].
    destruct (extractFileInfoFromArchive w archivePath) as [files | e] eqn:Hx.
    + destruct (IH (fold_left group_append files allFiles) warns)
        as (Hkeep & Hwarn & Hnew & Herr).
      split; [| split; [exact Hwarn | split]].
      * intros r Hr. apply Hkeep. apply fold_group_append_keeps. exact Hr.
      * intros p files' r Hp Hok Hr. apply elem_of_cons in Hp as [-> | Hp].
        -- assert (files' = files) as -> by congruence.
           apply Hkeep. apply fold_group_append_new. exact Hr.
        -- eapply Hnew; eauto.
      * intros p e Hp He. apply elem_of_cons in Hp as [-> | Hp]; [congruence |].
        eapply Herr; eauto.
    + destruct (IH allFiles (warns ++ [warning archivePath e]))
        as (Hkeep & Hwarn & Hnew & Herr).
      split; [exact Hkeep | split; [| split]].
      * intros m Hm. apply Hwarn. apply elem_of_app. left. exact Hm.
      * intros p files r Hp Hok Hr. apply elem_of_cons in Hp as [-> | Hp]; [congruence |].
        eapply Hnew; eauto.
      * intros p e' Hp He. apply elem_of_cons in Hp as [-> | Hp].
        -- assert (e' = e) as -> by congruence.
           apply Hwarn. apply elem_of_app. right. apply list_elem_of_singleton. reflexivity.
        -- eapply Herr; eauto.
Qed.

(** C9, as the specification states it, fails twice.  In the example [a.zip]
    and [b.ZIP] are inspected and [c.zip] is corrupt; both archives hold
    [lib.dll], and the report shows the record of [b.ZIP] for it: the record
    of [a.zip] is in the grouping map and not in the report.  And when the
    report file cannot be created the run ends with a fatal error, whatever
    was inspected. *)
Lemma C9_older_record_not_reported :
  ~ every_record_reported example_world /\ ~ every_record_reported read_only_world.
Proof.
  split; intros Hclaim.
  - destruct (Hclaim ["X:/NETDBS/a.zip"; "X:/NETDBS/b.ZIP"; "X:/NETDBS/c.zip"]) as [_ Hall].
    + reflexivity.
    + exists "X:/NETDBS/a.zip",
        [mkFileRecord "lib.dll" (at_time 1) "X:/NETDBS/a.zip" "a.zip" 100].
      split; [repeat constructor | reflexivity].
    + destruct (Hall "X:/NETDBS/a.zip"
                  [mkFileRecord "lib.dll" (at_time 1) "X:/NETDBS/a.zip" "a.zip" 100]
                  (mkFileRecord "lib.dll" (at_time 1) "X:/NETDBS/a.zip" "a.zip" 100))
        as [_ Hreport].
      * repeat constructor.
      * reflexivity.
      * repeat constructor.
      * vm_compute in Hreport. discriminate Hreport.
  - destruct (Hclaim ["X:/NETDBS/a.zip"; "X:/NETDBS/b.ZIP"; "X:/NETDBS/c.zip"]) as [Hexit _].
    + reflexivity.
    + exists "X:/NETDBS/a.zip",
        [mkFileRecord "lib.dll" (at_time 1) "X:/NETDBS/a.zip" "a.zip" 100].
      split; [repeat constructor | reflexivity].
    + vm_compute in Hexit. discriminate Hexit.
Qed.

(** C9, amended: an archive that cannot be inspected costs a warning and
    nothing else.  When the walk finds archives and the report file can be
    created and written, the run succeeds; every archive that failed has its
    warning; every record of every archive that was inspected is in the
    grouping map, and the report has a row for its name: the row of the record
    the resolver chose for that name, which is not older than the record. *)
Theorem C9_failed_archive_is_skipped (w : World) archives :
  findArchiveFiles w archiveDir = Ok archives -> archives <> [] ->
  Create w outputFile = None -> (forall k, WriteError w k = None) ->
  (forall l, MapOrder w l ≡ₚ l) ->
  exit (main w) = Success /\
  (forall p e, p ∈ archives -> extractFileInfoFromArchive w p = Err e ->
     warning p e ∈ warnings (main w)) /\
  (forall p files r, p ∈ archives -> extractFileInfoFromArchive w p = Ok files ->
     r ∈ files ->
     holds (grouping (main w)) r /\
     exists chosen,
       latestReleases (main w) !! Name r = Some chosen /\
       Before (ModTime chosen) (ModTime r) = false /\
       row_in_report w (main w) chosen).
Proof.
  intros Hfind Hne Hcreate Hwrite Horder.
  pose proof (main_collect_spec w archives ∅ []) as (_ & _ & Hnew & Herr).
  unfold main. rewrite Hfind.
  destruct archives as [| a0 rest] eqn:Ea; [contradiction |]. rewrite <- Ea in *.
  replace (length archives =? 0) with false by (rewrite Ea; reflexivity).
  destruct (main_collect w archives ∅ []) as [allFiles warns] eqn:Ecollect.
  cbn [fst snd] in Hnew, Herr.
  destruct (determineLatestReleases_spec allFiles) as (latest & allFiles' & Hrun & Hl & Ha).
  rewrite Hrun.
  destruct (writeResultsToFile_ok w outputFile latest Hcreate Hwrite) as (file & Hw & Hc).
  rewrite Hw. cbn [exit warnings grouping latestReleases report].
  split; [reflexivity | split; [exact Herr |]].
  intros p files r Hp Hok Hr.
  destruct (Hnew p files r Hp Hok Hr) as (versions & Hv & Hin).
  destruct (Slice_byModTime versions) as (_ & Hperm & _).
  split.
  - exists (sorted_versions versions). rewrite Ha, Hv. split; [reflexivity |].
    rewrite <- Hperm. exact Hin.
  - destruct (newest_is_Some versions) as [chosen Hchosen].
    { intros ->. inversion Hin. }
    assert (Hlatest : latest !! Name r = Some chosen) by (rewrite Hl, Hv; exact Hchosen).
    exists chosen. split; [exact Hlatest | split].
    + eapply newest_max; eauto.
    + assert (Hrow : (Name r, chosen) ∈ MapOrder w (map_to_list latest)).
      { rewrite Horder. apply elem_of_map_to_list. exact Hlatest. }
      destruct (body_of_row w _ _ _ Hrow) as (l & before & after & Hline & Hbody).
      exists file, l, before, after. split; [reflexivity | split; [exact Hline |]].
      rewrite Hc, Hbody. reflexivity.
Qed.

Lemma C9_failed_archive_witness :
  exit (main example_world) = Success /\
  (forall p e,
     p ∈ ["X:/NETDBS/a.zip"; "X:/NETDBS/b.ZIP"; "X:/NETDBS/c.zip"] ->
     extractFileInfoFromArchive example_world p = Err e ->
     warning p e ∈ warnings (main example_world)) /\
  (forall p files r,
     p ∈ ["X:/NETDBS/a.zip"; "X:/NETDBS/b.ZIP"; "X:/NETDBS/c.zip"] ->
     extractFileInfoFromArchive example_world p = Ok files ->
     r ∈ files ->
     holds (grouping (main example_world)) r /\
     exists chosen,
       latestReleases (main example_world) !! Name r = Some chosen /\
       Before (ModTime chosen) (ModTime r) = false /\
       row_in_report example_world (main example_world) chosen).
Proof.
  apply (C9_failed_archive_is_skipped example_world
           ["X:/NETDBS/a.zip"; "X:/NETDBS/b.ZIP"; "X:/NETDBS/c.zip"]).
  - reflexivity.
  - discriminate.
  - reflexivity.
  - intros k. reflexivity.
  - intros l. reflexivity.
Defined.

(** * Further properties of the program

    What the code does beyond the statements of its specification: the
    walk and its errors, the extension test, the in-place sort of the
    grouping map, the bounds of [truncateString], the width of the name
    column, write errors, and the run as a whole. *)

(** ** ArchiveLocator *)

Lemma findArchiveFiles_walk_ok w visits archives :
  Forall (fun v => wErr v = None) visits ->
  findArchiveFiles_walk w visits archives =
    Ok (archives ++ (wPath <$> filter (fun v => is_archive_visit w v = true) visits)).
Proof.
  intros Hok. revert archives.
  induction Hok as [| v rest Hv _ IH]; intros archives.
  - simpl. rewrite app_nil_r. reflexivity.
  - cbn [findArchiveFiles_walk]. rewrite Hv. rewrite filter_cons.
    fold (is_archive_visit w v).
    destruct (is_archive_visit w v) eqn:Ev.
    + rewrite decide_True by reflexivity. rewrite IH, fmap_cons, <- app_assoc. reflexivity.
    + rewrite decide_False by discriminate. apply IH.
Qed.

Lemma findArchiveFiles_walk_err w before v after e archives :
  Forall (fun u => wErr u = None) before -> wErr v = Some e ->
  findArchiveFiles_walk w (before ++ v :: after) archives = Err e.
Proof.
  intros Hok Hv. revert archives.
  induction Hok as [| u rest Hu _ IH]; intros archives.
  - simpl. rewrite Hv. reflexivity.
  - cbn [app findArchiveFiles_walk]. rewrite Hu.
    destruct (negb (fiIsDir (wInfo u)) && isArchiveFile w (wPath u)); apply IH.
Qed.

(** X1: when the walk meets no error, [findArchiveFiles] returns the paths
    of the visits that are files, not directories, and pass
    [isArchiveFile]: all of them, nothing else, in the order of the walk. *)
Theorem X1_findArchiveFiles_lists_the_archives w dir :
  Forall (fun v => wErr v = None) (Walk w dir) ->
  findArchiveFiles w dir =
    Ok (wPath <$> filter (fun v => is_archive_visit w v = true) (Walk w dir)).
Proof.
  intros Hok. unfold findArchiveFiles.
  rewrite (findArchiveFiles_walk_ok w _ [] Hok). reflexivity.
Qed.

Lemma X1_findArchiveFiles_witness :
  findArchiveFiles example_world "X:/NETDBS" =
    Ok (wPath <$> filter (fun v => is_archive_visit example_world v = true)
                    (Walk example_world "X:/NETDBS")).
Proof.
  apply (X1_findArchiveFiles_lists_the_archives example_world "X:/NETDBS").
  repeat constructor.
Defined.

(** X2: the first error the walk reports ends [findArchiveFiles] with that
    error; the archives found before it are not returned. *)
Theorem X2_findArchiveFiles_stops_at_first_error w dir before v after e :
  Walk w dir = before ++ v :: after ->
  Forall (fun u => wErr u = None) before -> wErr v = Some e ->
  findArchiveFiles w dir = Err e.
Proof.
  intros Hwalk Hok Hv. unfold findArchiveFiles. rewrite Hwalk.
  apply findArchiveFiles_walk_err; assumption.
Qed.

Lemma X2_findArchiveFiles_error_witness :
  findArchiveFiles unreadable_world "X:/NETDBS" =
    Err "open X:/NETDBS/private: Access is denied.".
Proof.
  apply (X2_findArchiveFiles_stops_at_first_error unreadable_world "X:/NETDBS"
           [visit "X:/NETDBS" true; visit "X:/NETDBS/a.zip" false]
           (mkWalkVisit "X:/NETDBS/private" (mkFileInfo true (at_time 0))
              (Some "open X:/NETDBS/private: Access is denied."))
           [visit "X:/NETDBS/b.ZIP" false]).
  - reflexivity.
  - repeat constructor.
  - reflexivity.
Defined.

(** *** [filepath.Ext] and [strings.ToLower] *)

Lemma get_append_r s t k : String.get (String.length s + k) (s +:+ t) = String.get k t.
Proof. induction s as [| c s IH]; [reflexivity |]. simpl. exact IH. Qed.

Lemma get_after_stem stem c tail :
  String.get (String.length stem) (stem +:+ String c tail) = Some c.
Proof. rewrite <- (Nat.add_0_r (String.length stem)). apply get_append_r. Qed.

Lemma substring_0_append mid rest :
  String.substring 0 (String.length mid) (mid +:+ rest) = mid.
Proof.
  induction mid as [| c mid IH]; simpl.
  - destruct rest; reflexivity.
  - rewrite IH. reflexivity.
Qed.

Lemma substring_middle pre mid rest :
  String.substring (String.length pre) (String.length mid) (pre +:+ mid +:+ rest) = mid.
Proof.
  induction pre as [| c pre IH].
  - exact (substring_0_append mid rest).
  - exact IH.
Qed.

Lemma substring_suffix pre x :
  String.substring (String.length pre) (String.length (pre +:+ x) - String.length pre)
    (pre +:+ x) = x.
Proof.
  rewrite length_append. replace (String.length pre + String.length x - String.length pre)
    with (String.length x) by lia.
  rewrite <- (append_nil_r x) at 2. apply substring_middle.
Qed.

(** A string is cut at an index into what is before and what is from there. *)
Lemma string_cut i path c :
  String.get i path = Some c ->
  exists stem tail,
    path = stem +:+ String c tail /\ String.length stem = i /\
    String.substring i (String.length path - i) path = String c tail.
Proof.
  revert path. induction i as [| i IH]; intros [| d path] Hget; try discriminate.
  - simpl in Hget. injection Hget as ->. exists "", path.
    split; [reflexivity | split; [reflexivity |]].
    change (String c path) with ("" +:+ String c path) at 2 3.
    apply (substring_suffix "" (String c path)).
  - simpl in Hget. destruct (IH path Hget) as (stem & tail & -> & Hlen & Hsub).
    exists (String d stem), tail. split; [reflexivity | split; [simpl; lia |]].
    exact Hsub.
Qed.

(** The loop of [filepath.Ext] returns (no index is out of range): the
    empty string, or a suffix of the path that begins with a dot. *)
Lemma Ext_loop_cases windows path n :
  n <= String.length path ->
  exists x, Ext_loop windows path n = Some x /\
    (x = "" \/ exists stem e, path = stem +:+ "." +:+ e /\ x = "." +:+ e).
Proof.
  induction n as [| i IH]; intros Hn.
  - exists "". auto.
  - cbn [Ext_loop].
    destruct (String.get i path) as [c |] eqn:Hget.
    + destruct (IsPathSeparator windows c); [exists ""; auto |].
      destruct (Ascii.eqb_spec c ".") as [-> | Hdot]; [| apply IH; lia].
      destruct (string_cut i path "." Hget) as (stem & tail & Hpath & _ & Hsub).
      eexists. split; [reflexivity |]. right. exists stem, tail.
      rewrite Hsub. auto.
    + exfalso. revert Hget Hn. clear. revert path.
      induction i as [| i IH]; intros [| d path]; simpl; try discriminate; try lia.
      intros Hget Hn. apply (IH path Hget). lia.
Qed.

Lemma filepath_Ext_returns windows path :
  filepath_Ext windows path = Some (default "" (filepath_Ext windows path)).
Proof.
  destruct (Ext_loop_cases windows path (String.length path) ltac:(lia)) as (x & Hx & _).
  unfold filepath_Ext. rewrite Hx. reflexivity.
Qed.

Lemma Ext_loop_skip windows stem tail c :
  IsPathSeparator windows c = false -> c <> "."%char ->
  Ext_loop windows (stem +:+ String c tail) (S (String.length stem)) =
    Ext_loop windows (stem +:+ String c tail) (String.length stem).
Proof.
  intros Hsep Hdot. cbn [Ext_loop]. rewrite get_after_stem, Hsep.
  destruct (Ascii.eqb_spec c "."); [contradiction | reflexivity].
Qed.

Lemma Ext_loop_dot windows stem tail :
  Ext_loop windows (stem +:+ String "." tail) (S (String.length stem)) =
    Some (String "." tail).
Proof.
  cbn [Ext_loop]. rewrite get_after_stem.
  replace (IsPathSeparator windows ".") with false by (destruct windows; reflexivity).
  simpl Ascii.eqb. cbv iota. rewrite substring_suffix. reflexivity.
Qed.

Lemma Ext_loop_through windows stem e tail :
  Forall (fun c => IsPathSeparator windows c = false /\ c <> "."%char)
    (list_ascii_of_string e) ->
  Ext_loop windows (stem +:+ e +:+ tail) (String.length stem + String.length e) =
    Ext_loop windows (stem +:+ e +:+ tail) (String.length stem).
Proof.
  revert stem. induction e as [| c e IH]; intros stem He.
  - rewrite Nat.add_0_r. reflexivity.
  - simpl in He. apply Forall_cons in He as [[Hsep Hdot] He].
    replace (stem +:+ String c e +:+ tail) with ((stem +:+ String c "") +:+ e +:+ tail)
      by (rewrite append_assoc; reflexivity).
    replace (String.length stem + String.length (String c e))
      with (String.length (stem +:+ String c "") + String.length e)
      by (rewrite length_append; simpl; lia).
    rewrite (IH (stem +:+ String c "") He).
    rewrite length_append. simpl String.length. rewrite Nat.add_1_r.
    rewrite append_assoc. apply Ext_loop_skip; assumption.
Qed.

(** The extension of a name that ends in a dot and bytes that are neither
    dots nor separators. *)
Lemma filepath_Ext_suffix windows stem e :
  Forall (fun c => IsPathSeparator windows c = false /\ c <> "."%char)
    (list_ascii_of_string e) ->
  filepath_Ext windows (stem +:+ "." +:+ e) = Some ("." +:+ e).
Proof.
  intros He. unfold filepath_Ext.
  replace (String.length (stem +:+ "." +:+ e))
    with (String.length (stem +:+ ".") + String.length e)
    by (rewrite !length_append; simpl; lia).
  replace (stem +:+ "." +:+ e) with ((stem +:+ ".") +:+ e +:+ "")
    by (rewrite append_nil_r, append_assoc; reflexivity).
  rewrite (Ext_loop_through windows (stem +:+ ".") e "" He).
  rewrite append_nil_r, append_assoc, length_append. simpl String.length.
  rewrite Nat.add_1_r. apply Ext_loop_dot.
Qed.

Lemma lower_string_append s t : lower_string (s +:+ t) = lower_string s +:+ lower_string t.
Proof. induction s as [| c s IH]; [reflexivity |]. simpl. rewrite IH. reflexivity. Qed.

Lemma ToLower_scan_hasUpper s hasUpper hasUpper' :
  ToLower_scan s hasUpper = (true, hasUpper') -> hasUpper = true -> hasUpper' = true.
Proof.
  revert hasUpper. induction s as [| c s IH]; intros hasUpper Hrun Hh.
  - injection Hrun as <-. exact Hh.
  - cbn [ToLower_scan] in Hrun. destruct (128 <=? byte c); [discriminate |].
    apply (IH _ Hrun). rewrite Hh. reflexivity.
Qed.

Lemma ToLower_scan_ascii s hasUpper :
  ascii_only s ->
  exists hasUpper', ToLower_scan s hasUpper = (true, hasUpper') /\
    (hasUpper' = false -> lower_string s = s).
Proof.
  unfold ascii_only. revert hasUpper.
  induction s as [| c s IH]; intros hasUpper Hs.
  - exists hasUpper. auto.
  - simpl in Hs. apply Forall_cons in Hs as [Hc Hs]. cbn [ToLower_scan].
    destruct (Nat.leb_spec 128 (byte c)) as [| _]; [lia |].
    destruct (IH (hasUpper || isUpper c) Hs) as (h' & Hrun & Hsame).
    exists h'. split; [exact Hrun |]. intros Hh'. simpl. rewrite (Hsame Hh'). f_equal.
    unfold lower_byte. destruct (isUpper c) eqn:Eu; [| reflexivity].
    exfalso. subst h'.
    pose proof (ToLower_scan_hasUpper s _ _ Hrun) as Hmono.
    rewrite orb_true_r in Hmono. discriminate (Hmono eq_refl).
Qed.

(** The state of the second loop: [pre] was copied, lowered, to the
    builder, [mid] has no letter of [A-Z] and is not copied yet. *)
Lemma ToLower_build_spec s pre mid rest b :
  s = pre +:+ mid +:+ rest -> b = lower_string pre -> lower_string mid = mid ->
  exists pre' mid',
    s = pre' +:+ mid' /\ lower_string mid' = mid' /\
    ToLower_build s rest (String.length pre + String.length mid) b (String.length pre) =
      (lower_string pre', String.length pre').
Proof.
  revert pre mid b. induction rest as [| c rest IH]; intros pre mid b Hs Hb Hmid.
  - exists pre, mid. rewrite append_nil_r in Hs. subst b. auto.
  - cbn [ToLower_build]. destruct (isUpper c) eqn:Eu.
    + destruct (IH (pre +:+ mid +:+ String c "") "" (lower_string (pre +:+ mid +:+ String c "")))
        as (pre' & mid' & Hs' & Hmid' & Hrun).
      * rewrite Hs, !append_assoc. reflexivity.
      * reflexivity.
      * reflexivity.
      * exists pre', mid'. split; [exact Hs' | split; [exact Hmid' |]].
        rewrite <- Hrun. rewrite !length_append. simpl String.length.
        replace (String.length pre + (String.length mid + 1) + 0)
          with (S (String.length pre + String.length mid)) by lia.
        replace (String.length pre + (String.length mid + 1))
          with (S (String.length pre + String.length mid)) by lia.
        f_equal. rewrite !lower_string_append. cbn [lower_string].
        unfold lower_byte at 1. rewrite Eu.
        change (byte "a" - byte "A") with 32. rewrite Hmid, Hb.
        replace (String.length pre + String.length mid - String.length pre)
          with (String.length mid) by lia.
        rewrite Hs, substring_middle.
        destruct (Nat.ltb_spec (String.length pre) (String.length pre + String.length mid)).
        -- rewrite ?append_assoc. reflexivity.
        -- destruct mid; [| simpl in *; lia]. rewrite ?append_assoc. reflexivity.
    + destruct (IH pre (mid +:+ String c "") b) as (pre' & mid' & Hs' & Hmid' & Hrun).
      * rewrite Hs, !append_assoc. reflexivity.
      * exact Hb.
      * rewrite lower_string_append, Hmid. cbn [lower_string]. unfold lower_byte. rewrite Eu.
        reflexivity.
      * exists pre', mid'. split; [exact Hs' | split; [exact Hmid' |]].
        rewrite <- Hrun. rewrite length_append. simpl String.length.
        replace (String.length pre + (String.length mid + 1))
          with (S (String.length pre + String.length mid)) by lia.
        reflexivity.
Qed.

(** On a string of ASCII bytes [strings.ToLower] lowers the letters of
    [A-Z] and leaves every other byte. *)
Lemma strings_ToLower_ascii unicodeLower s :
  ascii_only s -> strings_ToLower unicodeLower s = lower_string s.
Proof.
  intros Hs. unfold strings_ToLower.
  destruct (ToLower_scan_ascii s false Hs) as (hasUpper & -> & Hsame).
  destruct hasUpper; [| symmetry; auto]. cbn [negb].
  destruct (ToLower_build_spec s "" "" s "" eq_refl eq_refl eq_refl)
    as (pre & mid & Hs' & Hmid & Hrun).
  cbn [String.length Nat.add] in Hrun. rewrite Hrun.
  assert (Hsub : String.substring (String.length pre) (String.length s - String.length pre) s
                 = mid) by (rewrite Hs'; apply substring_suffix).
  rewrite Hsub.
  replace (lower_string s) with (lower_string pre +:+ mid)
    by (rewrite Hs', lower_string_append, Hmid; reflexivity).
  destruct (Nat.ltb_spec (String.length pre) (String.length s)) as [Hlt | Hge].
  - reflexivity.
  - rewrite Hs', length_append in Hge. destruct mid; [| simpl in Hge; lia].
    rewrite append_nil_r. reflexivity.
Qed.

(** The bytes that [lower_byte] takes to a letter of [zip] are letters. *)
Lemma lower_byte_zip c x :
  lower_byte c = x -> x ∈ ["z"; "i"; "p"]%char ->
  byte c < 128 /\ c <> "."%char /\ forall windows, IsPathSeparator windows c = false.
Proof.
  intros Hc Hx.
  assert (Hcases : c ∈ ["z"; "Z"; "i"; "I"; "p"; "P"]%char).
  { repeat (apply elem_of_cons in Hx as [-> | Hx]);
      try (inversion Hx; fail);
      destruct c as [[] [] [] [] [] [] [] []]; vm_compute in Hc; try discriminate Hc;
      repeat first [apply list_elem_of_here | apply list_elem_of_further]. }
  repeat (apply elem_of_cons in Hcases as [-> | Hcases]);
    try (inversion Hcases; fail);
    (split; [vm_compute; lia | split; [discriminate | intros []; reflexivity]]).
Qed.

Lemma lower_string_zip e :
  lower_string e = "zip" ->
  exists c1 c2 c3, e = String c1 (String c2 (String c3 "")) /\
    lower_byte c1 = "z"%char /\ lower_byte c2 = "i"%char /\ lower_byte c3 = "p"%char.
Proof.
  destruct e as [| c1 [| c2 [| c3 [| c4 e]]]]; simpl; try discriminate.
  intros [= H1 H2 H3]. eauto 10.
Qed.

(** X3: with the library's [filepath.Ext] and [strings.ToLower],
    [isArchiveFile] accepts every path that ends in a dot and [zip] in any
    letter case, whatever stands before the dot (nothing, for a file named
    [.zip]); and a path of ASCII bytes is accepted only if it ends so: not
    [a.zip.bak], and not a file below a directory [a.zip]. *)
Theorem X3_isArchiveFile_zip_in_any_case (w : World) (windows : bool)
    (unicodeLower : string -> string) (path : string) :
  (forall p, filepath_Ext windows p = Some (Ext w p)) ->
  (forall s, ToLower w s = strings_ToLower unicodeLower s) ->
  ((exists stem e, path = stem +:+ "." +:+ e /\ lower_string e = "zip") ->
     isArchiveFile w path = true) /\
  (ascii_only path -> isArchiveFile w path = true ->
     exists stem e, path = stem +:+ "." +:+ e /\ lower_string e = "zip").
Proof.
  intros HExt HLower. unfold isArchiveFile. rewrite HLower. split.
  - intros (stem & e & -> & He).
    destruct (lower_string_zip e He) as (c1 & c2 & c3 & -> & H1 & H2 & H3).
    destruct (lower_byte_zip c1 "z" H1) as (A1 & D1 & S1); [repeat constructor |].
    destruct (lower_byte_zip c2 "i" H2) as (A2 & D2 & S2); [repeat constructor |].
    destruct (lower_byte_zip c3 "p" H3) as (A3 & D3 & S3); [repeat constructor |].
    assert (Hext : Ext w (stem +:+ "." +:+ String c1 (String c2 (String c3 ""))) =
                   "." +:+ String c1 (String c2 (String c3 ""))).
    { apply (inj Some). rewrite <- HExt. apply filepath_Ext_suffix.
      cbn [list_ascii_of_string].
      repeat (apply Forall_cons; split; [split; auto |]). constructor. }
    rewrite Hext, strings_ToLower_ascii.
    + rewrite append_String, append_nil_l. cbn [lower_string]. rewrite H1, H2, H3. reflexivity.
    + unfold ascii_only. rewrite append_String, append_nil_l. cbn [list_ascii_of_string].
      apply Forall_cons. split; [vm_compute; lia |].
      repeat (apply Forall_cons; split; [assumption |]). constructor.
  - intros Hascii Hzip. apply String.eqb_eq in Hzip.
    destruct (Ext_loop_cases windows path (String.length path) ltac:(lia))
      as (x & Hx & Hcases).
    fold (filepath_Ext windows path) in Hx. rewrite HExt in Hx. injection Hx as Hx.
    rewrite Hx in Hzip.
    destruct Hcases as [-> | (stem & e & Hpath & ->)].
    + vm_compute in Hzip. discriminate Hzip.
    + exists stem, e. split; [exact Hpath |].
      assert (Hx_ascii : ascii_only ("." +:+ e)).
      { unfold ascii_only in *. rewrite Hpath, list_ascii_append in Hascii.
        apply Forall_app in Hascii as [_ Hascii]. exact Hascii. }
      rewrite (strings_ToLower_ascii _ _ Hx_ascii) in Hzip.
      rewrite append_String, append_nil_l in Hzip. cbn [lower_string] in Hzip.
      injection Hzip as Hzip. exact Hzip.
Qed.

Lemma X3_isArchiveFile_witness :
  isArchiveFile windows_world "X:\NETDBS\2024\Release.ZIP" = true.
Proof.
  apply (X3_isArchiveFile_zip_in_any_case windows_world true (fun s => s)
           "X:\NETDBS\2024\Release.ZIP").
  - intros p. apply filepath_Ext_returns.
  - intros s. reflexivity.
  - exists "X:\NETDBS\2024\Release", "ZIP". split; reflexivity.
Defined.

(** ** ArchiveInspector *)

(** X4: an archive that can be stat'ed and opened is inspected with
    success: one record for every entry that is not a directory, in the
    order of the central directory, with the name and the size of the
    entry, the path given, its base name, and the modification time of the
    archive. *)
Theorem X4_extract_one_record_per_file_entry w archivePath archiveInfo entries :
  Stat w archivePath = Ok archiveInfo -> OpenReader w archivePath = Ok entries ->
  extractFileInfoFromArchive w archivePath =
    Ok ((fun f => mkFileRecord (zName f) (fiModTime archiveInfo) archivePath
                    (Base w archivePath) (zUncompressedSize f))
          <$> filter (fun f => IsDir f = false) entries).
Proof.
  intros Hstat Hopen. unfold extractFileInfoFromArchive. rewrite Hstat, Hopen.
  rewrite extract_loop_spec. reflexivity.
Qed.

Lemma X4_extract_witness :
  extractFileInfoFromArchive example_world "X:/NETDBS/b.ZIP" =
    Ok ((fun f => mkFileRecord (zName f) (fiModTime (mkFileInfo false (at_time 2)))
                    "X:/NETDBS/b.ZIP" (Base example_world "X:/NETDBS/b.ZIP")
                    (zUncompressedSize f))
          <$> filter (fun f => IsDir f = false)
                [mkZipFile "docs/" false 0; mkZipFile "bin" true 0;
                 mkZipFile "lib.dll" false 200; mkZipFile "docs/readme.txt" false 10]).
Proof.
  apply (X4_extract_one_record_per_file_entry example_world "X:/NETDBS/b.ZIP").
  - reflexivity.
  - reflexivity.
Defined.

(** ** Package [sort]: the insertion sort is stable *)

Section sort_stability.

Context {A : Type} (less : A -> A -> bool) `{SW : !StrictWeak less}.
Context (P : A -> Prop) `{DP : forall x, Decision (P x)}.

(** [P] holds of no two elements that [less] tells apart: it selects
    elements that are equal for the order. *)
Hypothesis P_ties : forall x y, less x y = true -> P x -> P y -> False.

(** The exchange of two neighbours that [less] tells apart leaves the
    elements that satisfy [P] in their order. *)
Lemma filter_swap_adjacent (d : list A) j x y :
  d !! S j = Some x -> d !! j = Some y -> less x y = true ->
  filter P (<[j := x]> (<[S j := y]> d)) = filter P d.
Proof.
  revert j. induction d as [| z d IH]; intros j Hx Hy Hless; [discriminate |].
  destruct j as [| j].
  - destruct d as [| z' d]; [discriminate |].
    simpl in Hx, Hy. injection Hx as ->. injection Hy as ->.
    cbn [insert list_insert]. rewrite !filter_cons.
    destruct (decide (P x)) as [Px | Px], (decide (P y)) as [Py | Py]; try reflexivity.
    exfalso. exact (P_ties x y Hless Px Py).
  - simpl in Hx, Hy. cbn [insert list_insert]. rewrite !filter_cons.
    pose proof (IH j Hx Hy Hless) as E.
    destruct (decide (P z)); [f_equal |]; exact E.
Qed.

Lemma insertionSort_shift_filter a j d :
  j < length d ->
  ok (sort.insertionSort_shift less a j) d (fun _ d' => filter P d' = filter P d).
Proof.
  revert d. induction j as [| j' IH]; intros d Hj.
  - apply ok_ret. reflexivity.
  - cbn [sort.insertionSort_shift].
    destruct (Nat.ltb_spec a (S j')) as [Ha | Ha]; [| apply ok_ret; reflexivity].
    apply ok_bind. apply ok_Less_lt; [lia | lia |]. intros x y Ex Ey.
    destruct (less x y) eqn:Exy; [| apply ok_ret; reflexivity].
    apply ok_bind. apply (ok_Swap (S j') j' d x y); auto.
    eapply ok_mono.
    { apply IH. rewrite !length_insert. lia. }
    intros u d' Hd'. cbv beta in Hd'. rewrite Hd'.
    apply filter_swap_adjacent; assumption.
Qed.

Lemma insertionSort_loop_filter n a i d :
  i + n <= length d ->
  ok (sort.insertionSort_loop less n a i) d
     (fun _ d' => length d' = length d /\ filter P d' = filter P d).
Proof.
  revert i d. induction n as [| n IH]; intros i d Hlen.
  - apply ok_ret. auto.
  - cbn [sort.insertionSort_loop]. apply ok_bind. eapply ok_mono.
    { apply ok_and.
      - apply (insertionSort_shift_swaps less a i d). lia.
      - apply (insertionSort_shift_filter a i d). lia. }
    intros u d1 (Hsw & Hf). cbv beta in Hf.
    pose proof (swaps_length _ _ _ _ Hsw) as Hlen1.
    eapply ok_mono.
    { apply (IH (S i) d1). lia. }
    intros u' d' (Hlen' & Hf'). split; congruence.
Qed.

(** On a slice of at most [maxInsertion] elements [sort.Slice] is a stable
    sort: elements that are equal for the order keep their places relative
    to each other. *)
Lemma Slice_small_filter x :
  length x <= sort.maxInsertion ->
  exists x', sort.Slice less x = Some x' /\ filter P x' = filter P x.
Proof.
  intros Hsmall. unfold sort.Slice. cbv zeta. cbn [sort.pdqsort_func]. cbv zeta.
  rewrite Nat.sub_0_r. rewrite (proj2 (Nat.leb_le _ _) Hsmall).
  unfold sort.insertionSort_func.
  destruct x as [| x0 x]; [exists []; split; reflexivity |].
  destruct (insertionSort_loop_filter (length (x0 :: x) - (0 + 1)) 0 (0 + 1) (x0 :: x))
    as ([] & x' & Hrun & _ & Hf).
  - simpl. lia.
  - exists x'. rewrite Hrun. auto.
Qed.

End sort_stability.

(** X5: for every order [less] that is a strict weak order and every
    slice, [sort.Slice] returns (it neither panics nor runs out of fuel),
    and the slice it leaves is a rearrangement of the one given, in
    ascending order. *)
Theorem X5_Slice_sorts {A : Type} (less : A -> A -> bool) (x : list A) :
  StrictWeak less ->
  exists x',
    sort.Slice less x = Some x' /\ x' ≡ₚ x /\
    forall i j a b, i < j -> x' !! i = Some a -> x' !! j = Some b -> less b a = false.
Proof.
  intros SW.
  destruct (Slice_spec less x) as (x' & Hrun & Hperm & Hs).
  exists x'. split; [exact Hrun | split; [symmetry; exact Hperm |]].
  intros i j a b Hij Ea Eb. apply (Hs i j a b); auto; try lia.
  eapply lookup_lt_Some; eauto.
Qed.

Lemma X5_Slice_witness :
  exists x',
    sort.Slice byModTime thirteen_versions = Some x' /\ x' ≡ₚ thirteen_versions /\
    forall i j a b, i < j -> x' !! i = Some a -> x' !! j = Some b -> byModTime b a = false.
Proof.
  apply (X5_Slice_sorts byModTime thirteen_versions).
  apply byModTime_StrictWeak.
Defined.

(** ** LatestResolver *)

Lemma sorted_ascending versions : sorted byModTime versions <-> ascending versions.
Proof.
  unfold sorted, sorted_range, ascending, byModTime. split.
  - intros Hs i j x y Hij Ex Ey. apply (Hs i j x y); auto; try lia.
    eapply lookup_lt_Some; eauto.
  - intros Hs i j x y _ Hij _ Ex Ey. apply (Hs i j x y); auto.
Qed.

(** X6: [determineLatestReleases] sorts the grouping map in place: after
    the call the map has the names it had, the sequence of every name is a
    rearrangement of the one it was, in ascending order of modification
    time, and the record kept for the name is the last of that sequence. *)
Theorem X6_resolve_sorts_every_sequence (allFiles : gmap string (list FileRecord)) :
  exists latest allFiles',
    determineLatestReleases allFiles = Some (latest, allFiles') /\
    (forall name, allFiles !! name = None -> allFiles' !! name = None) /\
    (forall name versions, allFiles !! name = Some versions ->
       exists versions',
         allFiles' !! name = Some versions' /\ versions' ≡ₚ versions /\
         ascending versions' /\ latest !! name = last versions').
Proof.
  destruct (determineLatestReleases_spec allFiles) as (latest & allFiles' & Hrun & Hl & Ha).
  exists latest, allFiles'. split; [exact Hrun | split].
  - intros name Hname. rewrite Ha, Hname. reflexivity.
  - intros name versions Hname.
    destruct (Slice_byModTime versions) as (_ & Hperm & Hs).
    exists (sorted_versions versions). rewrite Ha, Hl, Hname.
    split; [reflexivity | split; [symmetry; exact Hperm | split]].
    + apply sorted_ascending. exact Hs.
    + reflexivity.
Qed.

(** X7: the result of [determineLatestReleases] does not depend on the
    order in which [range] visits the grouping map: every order gives the
    resolution map, and the sorted grouping map, of the order taken as the
    reference. *)
Theorem X7_resolve_whatever_the_map_order allFiles entries :
  entries ≡ₚ map_to_list allFiles ->
  determineLatestReleases_range entries ∅ allFiles = determineLatestReleases allFiles.
Proof.
  intros Hperm.
  destruct (determineLatestReleases_order entries allFiles Hperm)
    as (latest1 & allFiles1 & Hrun1 & Hl1 & Ha1).
  destruct (determineLatestReleases_spec allFiles) as (latest & allFiles' & Hrun & Hl & Ha).
  rewrite Hrun1, Hrun. f_equal. f_equal; apply map_eq; intros name.
  - rewrite Hl1, Hl. reflexivity.
  - rewrite Ha1, Ha. reflexivity.
Qed.

Lemma X7_map_order_witness :
  determineLatestReleases_range (reverse (map_to_list three_archives)) ∅ three_archives =
    determineLatestReleases three_archives.
Proof.
  apply (X7_resolve_whatever_the_map_order three_archives
           (reverse (map_to_list three_archives))).
  apply reverse_Permutation.
Defined.

(** X8: a record that is strictly newer than every other record of its
    name is the one kept for the name, however many records the name has
    and whatever ties there are among the older ones. *)
Theorem X8_strictly_newest_record_wins
    (allFiles : gmap string (list FileRecord)) name versions r :
  allFiles !! name = Some versions -> r ∈ versions ->
  (forall x, x ∈ versions -> x <> r -> Before (ModTime x) (ModTime r) = true) ->
  exists latest allFiles',
    determineLatestReleases allFiles = Some (latest, allFiles') /\
    latest !! name = Some r.
Proof.
  intros Hname Hr Hmax.
  destruct (determineLatestReleases_spec allFiles) as (latest & allFiles' & Hrun & Hl & _).
  exists latest, allFiles'. split; [exact Hrun |].
  rewrite Hl, Hname. simpl.
  destruct (newest_is_Some versions) as [c Hc].
  { intros ->. inversion Hr. }
  rewrite Hc. f_equal.
  destruct (decide (c = r)) as [| Hne]; [assumption |]. exfalso.
  pose proof (newest_max versions c r Hc Hr) as Hnot.
  pose proof (Hmax c (newest_elem versions c Hc) Hne) as Hlt.
  congruence.
Qed.

Lemma X8_strictly_newest_witness :
  exists latest allFiles',
    determineLatestReleases {[ "lib.dll" := fourteen_versions ]} = Some (latest, allFiles') /\
    latest !! "lib.dll" = Some (release "lib.dll" "a14.zip" 10 100).
Proof.
  apply (X8_strictly_newest_record_wins {[ "lib.dll" := fourteen_versions ]} "lib.dll"
           fourteen_versions (release "lib.dll" "a14.zip" 10 100)).
  - reflexivity.
  - apply list_elem_of_lookup. exists 1. reflexivity.
  - intros x Hx Hne.
    repeat (apply elem_of_cons in Hx as [-> | Hx]; [first [reflexivity | contradiction] |]).
    inversion Hx.
Defined.

(** X9: a grouping map whose sequences are already in ascending order of
    modification time is left as it is, and the record kept for a name is
    the last record of its sequence. *)
Theorem X9_resolve_leaves_ascending_sequences (allFiles : gmap string (list FileRecord)) :
  (forall name versions, allFiles !! name = Some versions -> ascending versions) ->
  exists latest,
    determineLatestReleases allFiles = Some (latest, allFiles) /\
    forall name, latest !! name = allFiles !! name ≫= last.
Proof.
  intros Hasc.
  destruct (determineLatestReleases_spec allFiles) as (latest & allFiles' & Hrun & Hl & Ha).
  assert (Hid : forall name versions, allFiles !! name = Some versions ->
            sorted_versions versions = versions).
  { intros name versions Hname. unfold sorted_versions.
    rewrite (Slice_sorted_id byModTime versions); [reflexivity |].
    apply sorted_ascending. eapply Hasc; eauto. }
  assert (allFiles' = allFiles) as ->.
  { apply map_eq. intros name. rewrite Ha.
    destruct (allFiles !! name) as [versions |] eqn:E; [| reflexivity].
    simpl. rewrite (Hid name versions E). reflexivity. }
  exists latest. split; [exact Hrun |].
  intros name. rewrite Hl.
  destruct (allFiles !! name) as [versions |] eqn:E; [| reflexivity].
  simpl. unfold newest. rewrite (Hid name versions E). reflexivity.
Qed.

Lemma X9_ascending_witness :
  exists latest,
    determineLatestReleases three_archives = Some (latest, three_archives) /\
    forall name, latest !! name = three_archives !! name ≫= last.
Proof.
  apply (X9_resolve_leaves_ascending_sequences three_archives).
  intros name versions Hname.
  destruct (decide (name = "lib.dll")) as [-> | Hn1].
  - injection Hname as <-. intros i j x y Hij Ex Ey.
    destruct i as [| [| [| i]]], j as [| [| [| j]]]; try lia;
      simpl in Ex, Ey; try discriminate;
      injection Ex as <-; injection Ey as <-; reflexivity.
  - destruct (decide (name = "readme.txt")) as [-> | Hn2].
    + injection Hname as <-. intros i j x y Hij Ex Ey.
      destruct i as [| i], j as [| j]; try lia; simpl in Ex, Ey; discriminate.
    + unfold three_archives in Hname.
      rewrite lookup_insert_ne in Hname by congruence.
      rewrite lookup_singleton_ne in Hname by congruence. discriminate.
Defined.

Lemma Before_irrefl t : Before t t = false.
Proof. unfold Before. lia. Qed.

(** X10: on a name with at most twelve records the sort is stable: the
    records that share a modification time are, after the call, in the
    order they had in the input. *)
Theorem X10_resolve_is_stable_up_to_twelve
    (allFiles : gmap string (list FileRecord)) name versions :
  allFiles !! name = Some versions -> length versions <= 12 ->
  exists latest allFiles' versions',
    determineLatestReleases allFiles = Some (latest, allFiles') /\
    allFiles' !! name = Some versions' /\
    forall t, filter (fun x => ModTime x = t) versions' =
              filter (fun x => ModTime x = t) versions.
Proof.
  intros Hname Hsmall.
  destruct (determineLatestReleases_spec allFiles) as (latest & allFiles' & Hrun & _ & Ha).
  exists latest, allFiles', (sorted_versions versions).
  split; [exact Hrun | split; [rewrite Ha, Hname; reflexivity |]].
  intros t.
  destruct (Slice_small_filter byModTime (fun x => ModTime x = t)) with (x := versions)
    as (v' & Hv' & Hf).
  - intros x y Hless Hx Hy. unfold byModTime in Hless.
    rewrite Hx, Hy, Before_irrefl in Hless. discriminate.
  - exact Hsmall.
  - destruct (Slice_byModTime versions) as (Hrun' & _ & _).
    assert (v' = sorted_versions versions) as <- by congruence. exact Hf.
Qed.

Lemma X10_stable_witness :
  exists latest allFiles' versions',
    determineLatestReleases three_archives = Some (latest, allFiles') /\
    allFiles' !! "lib.dll" = Some versions' /\
    forall t, filter (fun x => ModTime x = t) versions' =
              filter (fun x => ModTime x = t) three_versions.
Proof.
  apply (X10_resolve_is_stable_up_to_twelve three_archives "lib.dll" three_versions).
  - reflexivity.
  - simpl. lia.
Defined.

(** ** ReportWriter *)

(** *** [utf8.RuneCountInString] and the padding of [%-Ns] *)

Lemma utf8_first_size c acc size :
  utf8_first c = Some (acc, size) -> 128 <= c -> 2 <= size <= 4 /\ acc <= 4.
Proof.
  unfold utf8_first. intros H Hc.
  repeat match type of H with
         | (if ?b then _ else _) = _ => destruct b eqn:?
         end; try discriminate; injection H as <- <-; try lia.
  apply Nat.ltb_lt in Heqb. lia.
Qed.

Lemma acceptRanges_lo acc : 128 <= (acceptRanges acc).1.
Proof.
  destruct acc as [| [| [| [| [| acc]]]]]; unfold acceptRanges, locb, hicb; simpl; lia.
Qed.

Ltac utf8_cases :=
  repeat match goal with
         | |- context [if ?b then _ else _] => destruct b eqn:?
         | H : context [if ?b then _ else _] |- _ => destruct b eqn:?
         end.

Ltac to_nat_facts :=
  repeat match goal with
         | H : (_ <? _) = true |- _ => apply Nat.ltb_lt in H
         | H : (_ <? _) = false |- _ => apply Nat.ltb_ge in H
         | H : (_ =? _) = true |- _ => apply Nat.eqb_eq in H
         | H : (_ =? _) = false |- _ => apply Nat.eqb_neq in H
         | H : (_ || _) = true |- _ => apply orb_true_iff in H
         | H : (_ || _) = false |- _ => apply orb_false_iff in H as [? ?]
         end.

(** A rune takes at least one byte and no more bytes than there are. *)
Lemma utf8_size_bounds s : s <> [] -> 1 <= utf8_size s <= length s.
Proof.
  destruct s as [| c rest]; [congruence |]. intros _.
  unfold utf8_size. destruct (Nat.ltb_spec c 128) as [Hc | Hc]; [simpl; lia |].
  destruct (utf8_first c) as [[acc size] |] eqn:Ef; [| simpl; lia].
  destruct (utf8_first_size c acc size Ef Hc) as [Hsize _].
  destruct (acceptRanges acc) as [lo hi].
  utf8_cases; to_nat_facts; simpl in *; lia.
Qed.

(** The count does not depend on the fuel, once there is enough. *)
Lemma RuneCount_loop_fuel fuel1 fuel2 s :
  length s <= fuel1 -> length s <= fuel2 ->
  RuneCount_loop fuel1 s = RuneCount_loop fuel2 s.
Proof.
  revert fuel2 s. induction fuel1 as [| f1 IH]; intros fuel2 s H1 H2.
  - destruct s; [| simpl in H1; lia]. destruct fuel2; reflexivity.
  - destruct s as [| c rest]; [destruct fuel2; reflexivity |].
    destruct fuel2 as [| f2]; [simpl in H2; lia |].
    cbn [RuneCount_loop]. f_equal.
    pose proof (utf8_size_bounds (c :: rest) ltac:(discriminate)) as Hk.
    apply IH; rewrite length_drop; simpl in *; lia.
Qed.

(** A rune is read the same when bytes follow that start with an ASCII
    byte. *)
Lemma utf8_size_app s t :
  s <> [] -> match t with [] => True | d :: _ => d < 128 end ->
  utf8_size (s ++ t) = utf8_size s.
Proof.
  destruct s as [| c rest]; [congruence |]. intros _ Ht.
  rewrite <- app_comm_cons. unfold utf8_size.
  destruct (Nat.ltb_spec c 128) as [Hc | Hc]; [reflexivity |].
  destruct (utf8_first c) as [[acc size] |] eqn:Ef; [| reflexivity].
  destruct (utf8_first_size c acc size Ef Hc) as [Hsize _].
  pose proof (acceptRanges_lo acc) as Hlo.
  destruct (acceptRanges acc) as [lo hi]. simpl in Hlo.
  unfold locb, hicb.
  destruct rest as [| c1 [| c2 [| c3 rest]]]; destruct t as [| d t];
    cbn [app length nth]; rewrite ?app_nil_r; cbn [length];
    utf8_cases; to_nat_facts; try reflexivity; simpl in *; try lia.
Qed.

Lemma RuneCount_loop_le s : RuneCount_loop (length s) s <= length s.
Proof.
  remember (length s) as n eqn:Hn. revert s Hn.
  induction n as [n IH] using lt_wf_ind. intros s Hn.
  destruct s as [| c rest]; [subst; simpl; lia |].
  subst n. cbn [length RuneCount_loop].
  pose proof (utf8_size_bounds (c :: rest) ltac:(discriminate)) as Hk.
  set (k := utf8_size (c :: rest)) in *.
  rewrite (RuneCount_loop_fuel _ (length (drop k (c :: rest))))
    by (rewrite length_drop; simpl in *; lia).
  pose proof (IH (length (drop k (c :: rest))) ltac:(rewrite length_drop; simpl in *; lia)
                 (drop k (c :: rest)) eq_refl) as Hle.
  pose proof (length_drop (c :: rest) k) as Hd. cbn [length] in *. lia.
Qed.

Lemma RuneCount_loop_app_ascii s t :
  Forall (fun c => c < 128) t ->
  RuneCount_loop (length (s ++ t)) (s ++ t) = RuneCount_loop (length s) s + length t.
Proof.
  intros Ht. remember (length s) as n eqn:Hn. revert s Hn.
  induction n as [n IH] using lt_wf_ind. intros s Hn.
  destruct s as [| c rest].
  - subst n. simpl. apply RuneCount_loop_ascii. exact Ht.
  - subst n. rewrite <- app_comm_cons. cbn [length RuneCount_loop].
    rewrite app_comm_cons.
    rewrite (utf8_size_app (c :: rest) t) by (try discriminate; destruct Ht; auto).
    pose proof (utf8_size_bounds (c :: rest) ltac:(discriminate)) as Hk.
    set (k := utf8_size (c :: rest)) in *.
    rewrite drop_app_le by lia.
    rewrite (RuneCount_loop_fuel _ (length (drop k (c :: rest) ++ t)))
      by (rewrite !length_app, ?length_drop; simpl in *; lia).
    rewrite (IH (length (drop k (c :: rest))) ltac:(rewrite length_drop; simpl in *; lia)
               (drop k (c :: rest)) eq_refl).
    rewrite (RuneCount_loop_fuel (length rest) (length (drop k (c :: rest))))
      by (rewrite ?length_drop; simpl in *; lia).
    lia.
Qed.

(** A string has no more runes than bytes. *)
Lemma RuneCountInString_le s : RuneCountInString s <= String.length s.
Proof.
  unfold RuneCountInString.
  rewrite <- (length_list_ascii s), <- (length_map byte). apply RuneCount_loop_le.
Qed.

(** Every space of a padding is one more rune, also after bytes that are
    not valid UTF-8. *)
Lemma RuneCountInString_spaces s n :
  RuneCountInString (s +:+ spaces n) = RuneCountInString s + n.
Proof.
  unfold RuneCountInString. rewrite list_ascii_append, List.map_app.
  replace (String.length (s +:+ spaces n))
    with (length (List.map byte (list_ascii_of_string s) ++
                  List.map byte (list_ascii_of_string (spaces n))))
    by (rewrite length_app, !length_map, !length_list_ascii, length_append; reflexivity).
  rewrite RuneCount_loop_app_ascii.
  - rewrite !length_map, !length_list_ascii, length_spaces. reflexivity.
  - clear. induction n as [| n IH]; simpl; constructor; [vm_compute; lia | exact IH].
Qed.

(** [%-Ns] gives [N] runes, or the runes of the string when it has more. *)
Lemma RuneCountInString_fmt_s_left wid s :
  RuneCountInString (fmt_s_left wid s) = Nat.max wid (RuneCountInString s).
Proof. unfold fmt_s_left. rewrite RuneCountInString_spaces. lia. Qed.

(** *** [truncateString] *)

(** X11: [truncateString] panics exactly when the string is longer than
    [maxLen] and [maxLen] is less than 3 (the bound [maxLen-3] of the slice
    expression is negative); in every other case it returns. *)
Theorem X11_truncateString_panics_iff s maxLen :
  truncateString s maxLen = None <->
  (maxLen < Z.of_nat (String.length s))%Z /\ (maxLen < 3)%Z.
Proof.
  unfold truncateString.
  destruct (Z.leb_spec (Z.of_nat (String.length s)) maxLen);
    destruct (Z.ltb_spec (maxLen - 3) 0); split;
    try discriminate; try (intros [? ?]; lia); auto with zarith.
Qed.

(** X12: the string [truncateString] returns is as long as the shorter of
    the string given and [maxLen]: it never exceeds [maxLen] bytes, the
    dots included. *)
Theorem X12_truncateString_length s maxLen t :
  truncateString s maxLen = Some t ->
  Z.of_nat (String.length t) = Z.min (Z.of_nat (String.length s)) maxLen.
Proof.
  unfold truncateString.
  destruct (Z.leb_spec (Z.of_nat (String.length s)) maxLen) as [Hle | Hgt].
  - intros [= <-]. lia.
  - destruct (Z.ltb_spec (maxLen - 3) 0) as [Hneg | Hpos]; [discriminate |].
    intros [= <-]. rewrite length_append, length_substring_0 by lia.
    simpl String.length. lia.
Qed.

Lemma X12_truncateString_length_witness :
  Z.of_nat (String.length "archive_with_a...") =
    Z.min (Z.of_nat (String.length "archive_with_a_long_name.dll")) 17.
Proof.
  apply (X12_truncateString_length "archive_with_a_long_name.dll" 17 "archive_with_a...").
  reflexivity.
Defined.

(** X13: a string that [truncateString] returned is returned unchanged by
    a second call with the same [maxLen]. *)
Theorem X13_truncateString_twice s maxLen t :
  truncateString s maxLen = Some t -> truncateString t maxLen = Some t.
Proof.
  intros Ht. unfold truncateString in *.
  destruct (Z.leb_spec (Z.of_nat (String.length s)) maxLen) as [Hle | Hgt].
  - injection Ht as <-. rewrite (proj2 (Z.leb_le _ _) Hle). reflexivity.
  - destruct (Z.ltb_spec (maxLen - 3) 0) as [Hneg | Hpos]; [discriminate |].
    injection Ht as <-.
    rewrite (proj2 (Z.leb_le _ _)); [reflexivity |].
    rewrite length_append, length_substring_0 by lia. simpl String.length. lia.
Qed.

Lemma X13_truncateString_twice_witness :
  truncateString "archive_with_a..." 17 = Some "archive_with_a...".
Proof.
  apply (X13_truncateString_twice "archive_with_a_long_name.dll" 17 "archive_with_a...").
  reflexivity.
Defined.

(** *** The name column *)

(** X14: the name column of every data line is exactly fifty runes wide,
    as [utf8.RuneCountInString] counts them, whatever the bytes of the
    name, and at least fifty bytes long. *)
Theorem X14_name_column_is_fifty_runes (record : FileRecord) :
  exists field,
    nameField record = Some field /\
    RuneCountInString field = 50 /\ 50 <= String.length field.
Proof.
  unfold nameField. rewrite truncateString_50.
  eexists. split; [reflexivity |].
  set (t := if 50 <? String.length (Name record)
            then String.substring 0 47 (Name record) +:+ "..." else Name record).
  assert (Ht : String.length t <= 50).
  { unfold t. destruct (Nat.ltb_spec 50 (String.length (Name record))) as [Hlong | Hshort].
    - rewrite length_append, length_substring_0 by lia. simpl. lia.
    - exact Hshort. }
  pose proof (RuneCountInString_le t) as Hr.
  split.
  - rewrite RuneCountInString_fmt_s_left. lia.
  - unfold fmt_s_left. rewrite length_append, length_spaces. lia.
Qed.

(** *** [writeResultsToFile] *)

Lemma writeResultsToFile_range_fails w rows file k n e :
  k < length rows ->
  (forall i, i < k -> WriteError w (writes file + i) = None) ->
  WriteError w (writes file + k) = Some (n, e) ->
  exists piece,
    ((fun row : string * FileRecord => default "" (line w row.2)) <$> rows) !! k =
      Some piece /\
    writeResultsToFile_range w rows file =
      Written (Some (mkFile (content file +:+
                             joined (take k ((fun row : string * FileRecord =>
                                                default "" (line w row.2)) <$> rows)) +:+
                             String.substring 0 n piece)
                            (S (writes file + k)))) (Some e).
Proof.
  revert file k. induction rows as [| [name record] rest IH]; intros file k Hk Hok Hfail.
  - simpl in Hk. lia.
  - cbn [writeResultsToFile_range].
    destruct (line_is_Some w record) as [l Hl]. rewrite Hl.
    unfold WriteString. destruct k as [| k].
    + rewrite Nat.add_0_r in Hfail. rewrite Hfail. exists l.
      cbn [fmap list_fmap snd lookup list_lookup take joined foldr]. rewrite Hl.
      split; [reflexivity |]. rewrite append_nil_l, Nat.add_0_r. reflexivity.
    + pose proof (Hok 0 ltac:(lia)) as H0. rewrite Nat.add_0_r in H0. rewrite H0.
      destruct (IH (mkFile (content file +:+ l) (S (writes file))) k) as (piece & Hpiece & Hrun).
      * simpl in Hk. lia.
      * intros i Hi. cbn [writes]. replace (S (writes file) + i) with (writes file + S i) by lia.
        apply Hok. lia.
      * cbn [writes]. replace (S (writes file) + k) with (writes file + S k) by lia.
        exact Hfail.
      * exists piece. split; [exact Hpiece |]. rewrite Hrun.
        cbn [content writes fmap list_fmap take joined foldr snd].
        rewrite Hl. simpl default. rewrite !append_assoc.
        replace (S (writes file) + k) with (writes file + S k) by lia. reflexivity.
Qed.

(** X15: when the report file was created and a [WriteString] fails,
    [writeResultsToFile] returns the error of that write at once and writes
    no more.  The file holds the strings written before it, whole (the
    header, the divider and the lines so far), and then the bytes that the
    failed write put out all the same: a prefix of its string, so the report
    may end in the middle of a line. *)
Theorem X15_write_error_ends_the_report w filename results k n e :
  Create w filename = None ->
  k < length (report_pieces w results) ->
  (forall i, i < k -> WriteError w i = None) -> WriteError w k = Some (n, e) ->
  exists piece,
    report_pieces w results !! k = Some piece /\
    writeResultsToFile w filename results =
      Written (Some (mkFile (joined (take k (report_pieces w results)) +:+
                             String.substring 0 n piece) (S k)))
              (Some e).
Proof.
  intros Hcreate Hk Hok Hfail. unfold writeResultsToFile. rewrite Hcreate. cbv zeta.
  unfold report_pieces in *. unfold WriteString at 1. cbn [writes content].
  destruct k as [| k].
  { rewrite Hfail. exists header. split; reflexivity. }
  rewrite (Hok 0) by lia.
  unfold WriteString at 1. cbn [writes content].
  destruct k as [| k].
  { rewrite Hfail. exists divider. split; [reflexivity |].
    cbn [take joined foldr]. rewrite append_nil_r. reflexivity. }
  rewrite (Hok 1) by lia.
  destruct (writeResultsToFile_range_fails w (MapOrder w (map_to_list results))
              (mkFile (("" +:+ header) +:+ divider) 2) k n e) as (piece & Hpiece & Hrun).
  - cbn [length] in Hk. rewrite length_fmap in Hk. lia.
  - intros i Hi. cbn [writes]. apply Hok. lia.
  - cbn [writes]. exact Hfail.
  - exists piece. split; [exact Hpiece |]. rewrite Hrun.
    cbn [content writes take joined foldr]. rewrite append_nil_l, !append_assoc.
    reflexivity.
Qed.

Lemma X15_write_error_witness :
  exists piece,
    report_pieces full_disk_world example_results !! 3 = Some piece /\
    writeResultsToFile full_disk_world outputFile example_results =
      Written (Some (mkFile (joined (take 3 (report_pieces full_disk_world example_results)) +:+
                             String.substring 0 17 piece) 4))
              (Some "There is not enough space on the disk.").
Proof.
  apply (X15_write_error_ends_the_report full_disk_world outputFile example_results 3 17).
  - reflexivity.
  - vm_compute. lia.
  - intros i Hi. destruct i as [| [| [| i]]]; [reflexivity .. | lia].
  - reflexivity.
Defined.

Lemma writeResultsToFile_range_returns w rows file :
  writeResultsToFile_range w rows file <> Panicked.
Proof.
  revert file. induction rows as [| [name record] rest IH]; intros file; [discriminate |].
  cbn [writeResultsToFile_range].
  destruct (line_is_Some w record) as [l ->].
  destruct (WriteString w file l) as [file' [e |]]; [discriminate | apply IH].
Qed.

(** [writeResultsToFile] returns: [truncateString] is called with 50. *)
Lemma writeResultsToFile_returns w filename results :
  writeResultsToFile w filename results <> Panicked.
Proof.
  unfold writeResultsToFile.
  destruct (Create w filename); [discriminate |]. cbv zeta.
  destruct (WriteString w _ header) as [file [e |]]; [discriminate |].
  destruct (WriteString w file divider) as [file' [e |]]; [discriminate |].
  apply writeResultsToFile_range_returns.
Qed.

Lemma writeResultsToFile_range_done w rows file out :
  writeResultsToFile_range w rows file = Written out None ->
  exists file',
    out = Some file' /\
    content file' = content file +:+
      joined ((fun row : string * FileRecord => default "" (line w row.2)) <$> rows) /\
    writes file' = writes file + length rows.
Proof.
  revert file. induction rows as [| [name record] rest IH]; intros file Hrun.
  - injection Hrun as <-. exists file. cbn. rewrite append_nil_r. auto.
  - cbn [writeResultsToFile_range] in Hrun.
    destruct (line_is_Some w record) as [l Hl]. rewrite Hl in Hrun.
    unfold WriteString in Hrun.
    destruct (WriteError w (writes file)) as [[n e] |]; [discriminate |].
    destruct (IH _ Hrun) as (file' & -> & Hc & Hw).
    exists file'. split; [reflexivity |]. cbn [content writes] in Hc, Hw.
    rewrite Hc, Hw. cbn [fmap list_fmap joined foldr snd length]. rewrite Hl. simpl default.
    split; [apply append_assoc | lia].
Qed.

(** A return without error: the file was created and every string was
    written. *)
Lemma writeResultsToFile_done w filename results out :
  writeResultsToFile w filename results = Written out None ->
  exists file,
    out = Some file /\ Create w filename = None /\
    content file = joined (report_pieces w results) /\
    writes file = length (report_pieces w results).
Proof.
  unfold writeResultsToFile.
  destruct (Create w filename); [discriminate |]. cbv zeta.
  unfold WriteString at 1. cbn [writes content].
  destruct (WriteError w 0) as [[n0 e0] |]; [discriminate |].
  unfold WriteString at 1. cbn [writes content].
  destruct (WriteError w 1) as [[n1 e1] |]; [discriminate |].
  intros Hrun. destruct (writeResultsToFile_range_done _ _ _ _ Hrun) as (file & -> & Hc & Hw).
  exists file. split; [reflexivity | split; [reflexivity |]].
  cbn [content writes] in Hc, Hw. rewrite Hc, Hw.
  unfold report_pieces. cbn [joined foldr length]. rewrite length_fmap.
  split; [apply append_assoc | lia].
Qed.

(** ** Orchestrator *)

(** *** The grouping loop *)

Lemma extended_app l vs1 vs2 : extended (extended l vs1) vs2 = extended l (vs1 ++ vs2).
Proof.
  unfold extended. destruct vs1 as [| v vs1]; [reflexivity |].
  rewrite (decide_False (P := v :: vs1 = [])) by discriminate.
  rewrite (decide_False (P := (v :: vs1) ++ vs2 = [])) by discriminate.
  case_decide as Hvs2.
  - rewrite Hvs2, app_nil_r. reflexivity.
  - simpl default. rewrite <- app_assoc. reflexivity.
Qed.

Lemma group_append_lookup allFiles file name :
  group_append allFiles file !! name =
    extended (allFiles !! name) (filter (fun r => Name r = name) [file]).
Proof.
  unfold group_append, extended. rewrite filter_cons, filter_nil.
  destruct (decide (Name file = name)) as [<- | Hne].
  - rewrite lookup_insert_eq. rewrite decide_False by discriminate. reflexivity.
  - rewrite lookup_insert_ne by exact Hne. rewrite decide_True by reflexivity. reflexivity.
Qed.

Lemma fold_group_append_lookup files allFiles name :
  fold_left group_append files allFiles !! name =
    extended (allFiles !! name) (filter (fun r => Name r = name) files).
Proof.
  revert allFiles. induction files as [| f files IH]; intros allFiles.
  - reflexivity.
  - cbn [fold_left]. rewrite IH, group_append_lookup, extended_app.
    rewrite <- filter_app. reflexivity.
Qed.

Lemma main_collect_lookup w archives allFiles warns name :
  (main_collect w archives allFiles warns).1 !! name =
    extended (allFiles !! name) (filter (fun r => Name r = name) (inspected w archives)).
Proof.
  revert allFiles warns. induction archives as [| p rest IH]; intros allFiles warns.
  - reflexivity.
  - cbn [main_collect]. unfold inspected. rewrite bind_cons. fold (inspected w rest).
    destruct (extractFileInfoFromArchive w p) as [files | e].
    + rewrite IH, fold_group_append_lookup, extended_app, <- filter_app. reflexivity.
    + rewrite IH. reflexivity.
Qed.

Lemma main_collect_warnings w archives allFiles warns :
  (main_collect w archives allFiles warns).2 = warns ++ omap (warning_of w) archives.
Proof.
  revert allFiles warns. induction archives as [| p rest IH]; intros allFiles warns.
  - simpl. rewrite app_nil_r. reflexivity.
  - cbn [main_collect omap list_omap]. unfold warning_of at 1.
    destruct (extractFileInfoFromArchive w p) as [files | e].
    + apply IH.
    + rewrite IH, <- app_assoc. reflexivity.
Qed.

(** X16: the loop of [main] groups by name: the grouping map holds, for
    every name that occurs in an archive that could be inspected, the
    records of that name in the order of discovery (archive after archive,
    within an archive the order of its central directory), and no other
    name; no sequence is empty. *)
Theorem X16_grouping_by_name_in_discovery_order w archives name :
  (main_collect w archives ∅ []).1 !! name =
    (if decide (filter (fun r => Name r = name) (inspected w archives) = []) then None
     else Some (filter (fun r => Name r = name) (inspected w archives))).
Proof.
  rewrite main_collect_lookup, lookup_empty. unfold extended.
  case_decide; reflexivity.
Qed.

(** X17: the warnings of the loop are those of the archives that could
    not be inspected, one for each, in the order of the archives, each with
    the path of the archive and the error; an archive that was inspected
    costs none. *)
Theorem X17_one_warning_per_failed_archive w archives :
  (main_collect w archives ∅ []).2 = omap (warning_of w) archives.
Proof. apply main_collect_warnings. Qed.

(** *** The run *)

(** What [main] does once archives were found. *)
Lemma main_found w archives :
  findArchiveFiles w archiveDir = Ok archives -> archives <> [] ->
  exists latest allFiles',
    determineLatestReleases (main_collect w archives ∅ []).1 = Some (latest, allFiles') /\
    latestReleases (main w) = latest /\
    warnings (main w) = (main_collect w archives ∅ []).2 /\
    (forall name, latest !! name = (main_collect w archives ∅ []).1 !! name ≫= newest) /\
    match writeResultsToFile w outputFile latest with
    | Panicked => False
    | Written file (Some e) =>
        exit (main w) = Fatal ("Ошибка записи результатов: " +:+ e) /\ report (main w) = file
    | Written file None =>
        exit (main w) = Success /\ report (main w) = file /\
        stdout (main w) =
          ["Поиск архивов в директории: " +:+ archiveDir +:+ nl;
           "Найдено архивов: " +:+ decimal (Z.of_nat (length archives)) +:+ nl;
           "Результаты сохранены в файл: " +:+ outputFile +:+ nl;
           "Обработано уникальных файлов: " +:+ decimal (Z.of_nat (size latest)) +:+ nl]
    end.
Proof.
  intros Hfind Hne. unfold main. rewrite Hfind.
  destruct archives as [| a0 rest] eqn:Ea; [contradiction |]. rewrite <- Ea in *.
  replace (length archives =? 0) with false by (rewrite Ea; reflexivity).
  destruct (main_collect w archives ∅ []) as [allFiles warns] eqn:Ecollect.
  cbn [fst snd].
  destruct (determineLatestReleases_spec allFiles) as (latest & allFiles' & Hrun & Hl & _).
  rewrite Hrun. exists latest, allFiles'. split; [reflexivity |].
  pose proof (writeResultsToFile_returns w outputFile latest) as Hret.
  destruct (writeResultsToFile w outputFile latest) as [file [e |] |];
    [| | contradiction]; cbn [exit report stdout latestReleases warnings app];
    repeat split; auto.
Qed.

(** The record kept for a name in a run: the newest of the records of that
    name, taken in the order of discovery. *)
Lemma latest_of_run w archives name :
  findArchiveFiles w archiveDir = Ok archives -> archives <> [] ->
  latestReleases (main w) !! name =
    newest (filter (fun r => Name r = name) (inspected w archives)).
Proof.
  intros Hfind Hne.
  destruct (main_found w archives Hfind Hne) as (latest & allFiles' & _ & -> & _ & Hl & _).
  rewrite Hl, main_collect_lookup, lookup_empty. unfold extended.
  case_decide as Hnil; [rewrite Hnil |]; reflexivity.
Qed.

Lemma latest_dom w archives :
  findArchiveFiles w archiveDir = Ok archives -> archives <> [] ->
  dom (latestReleases (main w)) = names_of (inspected w archives).
Proof.
  intros Hfind Hne. apply set_eq. intros name.
  rewrite elem_of_dom, (latest_of_run w archives name Hfind Hne).
  unfold names_of. rewrite elem_of_list_to_set, list_elem_of_fmap. split.
  - intros [r Hr]. pose proof (newest_elem _ _ Hr) as Hin.
    apply list_elem_of_filter in Hin as [Hname Hin]. exists r. auto.
  - intros (r & -> & Hin). apply newest_is_Some.
    intros Hnil. assert (Hmem : r ∈ filter (fun r' => Name r' = Name r) (inspected w archives))
      by (apply list_elem_of_filter; auto).
    rewrite Hnil in Hmem. inversion Hmem.
Qed.

(** X18: [main] never panics: whatever the tree, the archives and the
    disk, the run ends with success or with a fatal error that is
    logged. *)
Theorem X18_main_never_panics (w : World) : exit (main w) <> Panic.
Proof.
  destruct (findArchiveFiles w archiveDir) as [archives | e] eqn:Hfind.
  - destruct archives as [| a0 rest] eqn:Ea.
    + unfold main. rewrite Hfind. discriminate.
    + rewrite <- Ea in Hfind.
      destruct (main_found w archives Hfind ltac:(rewrite Ea; discriminate))
        as (latest & allFiles' & _ & _ & _ & _ & Hw).
      destruct (writeResultsToFile w outputFile latest) as [file [e |] |].
      * destruct Hw as [-> _]. discriminate.
      * destruct Hw as [-> _]. discriminate.
      * contradiction.
  - unfold main. rewrite Hfind. discriminate.
Qed.

(** X19: when the walk meets no error and no file with the extension of
    an archive (directories do not count), the run ends with the fatal
    error [Архивы не найдены]; the report file is not created and no
    archive is touched. *)
Theorem X19_no_archive_no_report (w : World) :
  Forall (fun v => wErr v = None /\ is_archive_visit w v = false) (Walk w archiveDir) ->
  exit (main w) = Fatal "Архивы не найдены" /\
  report (main w) = None /\ warnings (main w) = [].
Proof.
  intros Hwalk.
  assert (Hfind : findArchiveFiles w archiveDir = Ok []).
  { unfold findArchiveFiles. rewrite findArchiveFiles_walk_ok.
    - f_equal. simpl. induction Hwalk as [| v rest [_ Hv] _ IH]; [reflexivity |].
      rewrite filter_cons, decide_False by congruence. exact IH.
    - eapply Forall_impl; [exact Hwalk |]. intros v [Hv _]. exact Hv. }
  unfold main. rewrite Hfind. auto.
Qed.

Lemma X19_no_archive_witness :
  exit (main no_archive_world) = Fatal "Архивы не найдены" /\
  report (main no_archive_world) = None /\ warnings (main no_archive_world) = [].
Proof.
  apply (X19_no_archive_no_report no_archive_world).
  repeat constructor.
Defined.

(** X20: an error of the walk is fatal, also when archives were found
    before it: the run ends with [Ошибка поиска архивов] and the error,
    after the first line of output.  Nothing else has happened: no record
    was collected (the grouping map and the resolution map are empty), no
    warning was logged and no report file was created. *)
Theorem X20_walk_error_is_fatal (w : World) before v after e :
  Walk w archiveDir = before ++ v :: after ->
  Forall (fun u => wErr u = None) before -> wErr v = Some e ->
  main w =
    {| exit := Fatal ("Ошибка поиска архивов: " +:+ e);
       stdout := ["Поиск архивов в директории: X:/NETDBS" +:+ nl];
       warnings := [];
       grouping := ∅;
       latestReleases := ∅;
       report := None |}.
Proof.
  intros Hwalk Hok Hv.
  assert (Hfind : findArchiveFiles w archiveDir = Err e).
  { unfold findArchiveFiles. rewrite Hwalk. apply findArchiveFiles_walk_err; assumption. }
  unfold main. rewrite Hfind. reflexivity.
Qed.

Lemma X20_walk_error_witness :
  main unreadable_world =
    {| exit := Fatal ("Ошибка поиска архивов: " +:+
                      "open X:/NETDBS/private: Access is denied.");
       stdout := ["Поиск архивов в директории: X:/NETDBS" +:+ nl];
       warnings := [];
       grouping := ∅;
       latestReleases := ∅;
       report := None |}.
Proof.
  apply (X20_walk_error_is_fatal unreadable_world
           [visit "X:/NETDBS" true; visit "X:/NETDBS/a.zip" false]
           (mkWalkVisit "X:/NETDBS/private" (mkFileInfo true (at_time 0))
              (Some "open X:/NETDBS/private: Access is denied."))
           [visit "X:/NETDBS/b.ZIP" false]).
  - reflexivity.
  - repeat constructor.
  - reflexivity.
Defined.

Lemma lines_of_rows w (rows : list (string * FileRecord)) :
  Forall2 (fun row l => line w row.2 = Some l) rows
    ((fun row : string * FileRecord => default "" (line w row.2)) <$> rows).
Proof.
  induction rows as [| [name record] rows IH]; [constructor |].
  rewrite fmap_cons. constructor; [| exact IH].
  cbn [snd]. destruct (line_is_Some w record) as [l ->]. reflexivity.
Qed.

(** X21: a run that ends with success found archives and wrote the whole
    report.  When [range] visits every entry of the resolution map once,
    the file holds the header, the divider and then one line for every name
    of the resolution map, the line of the record kept for the name, and
    nothing else; every one of these strings was written by one
    [WriteString]. *)
Theorem X21_success_means_complete_report (w : World) :
  (forall l, MapOrder w l ≡ₚ l) ->
  exit (main w) = Success ->
  exists archives file rows lines,
    findArchiveFiles w archiveDir = Ok archives /\ archives <> [] /\
    report (main w) = Some file /\
    rows ≡ₚ map_to_list (latestReleases (main w)) /\
    Forall2 (fun row l => line w row.2 = Some l) rows lines /\
    content file = joined (header :: divider :: lines) /\
    writes file = 2 + size (latestReleases (main w)).
Proof.
  intros Horder Hexit.
  destruct (findArchiveFiles w archiveDir) as [archives | e] eqn:Hfind;
    [| unfold main in Hexit; rewrite Hfind in Hexit; discriminate].
  destruct archives as [| a0 rest] eqn:Ea;
    [unfold main in Hexit; rewrite Hfind in Hexit; discriminate |].
  rewrite <- Ea in *.
  assert (Hne : archives <> []) by (rewrite Ea; discriminate).
  destruct (main_found w archives Hfind Hne) as (latest & allFiles' & _ & Hlatest & _ & _ & Hw).
  exists archives. rewrite Hlatest.
  destruct (writeResultsToFile w outputFile latest) as [out [e |] |] eqn:Hrun.
  - destruct Hw as [Hfatal _]. congruence.
  - destruct (writeResultsToFile_done w outputFile latest out Hrun) as (file & -> & _ & Hc & Hwr).
    destruct Hw as (_ & Hreport & _).
    exists file, (MapOrder w (map_to_list latest)),
      ((fun row : string * FileRecord => default "" (line w row.2)) <$>
         MapOrder w (map_to_list latest)).
    split; [reflexivity | split; [exact Hne | split; [exact Hreport |]]].
    split; [apply Horder | split; [apply lines_of_rows | split; [exact Hc |]]].
    rewrite Hwr. unfold report_pieces. cbn [length]. rewrite length_fmap.
    rewrite (Permutation_length (Horder (map_to_list latest))), length_map_to_list.
    reflexivity.
  - contradiction.
Qed.

Lemma X21_success_witness :
  exists archives file rows lines,
    findArchiveFiles example_world archiveDir = Ok archives /\ archives <> [] /\
    report (main example_world) = Some file /\
    rows ≡ₚ map_to_list (latestReleases (main example_world)) /\
    Forall2 (fun row l => line example_world row.2 = Some l) rows lines /\
    content file = joined (header :: divider :: lines) /\
    writes file = 2 + size (latestReleases (main example_world)).
Proof.
  apply (X21_success_means_complete_report example_world).
  - intros l. reflexivity.
  - vm_compute. reflexivity.
Defined.

(** X22: the record a run keeps for a name is a record of that name from
    an archive that was inspected, and no record of that name from any
    inspected archive is newer. *)
Theorem X22_reported_record_is_a_newest_one (w : World) archives name r :
  findArchiveFiles w archiveDir = Ok archives -> archives <> [] ->
  latestReleases (main w) !! name = Some r ->
  r ∈ inspected w archives /\ Name r = name /\
  forall x, x ∈ inspected w archives -> Name x = name ->
    Before (ModTime r) (ModTime x) = false.
Proof.
  intros Hfind Hne Hr. rewrite (latest_of_run w archives name Hfind Hne) in Hr.
  pose proof (newest_elem _ _ Hr) as Hin. apply list_elem_of_filter in Hin as [Hname Hin].
  split; [exact Hin | split; [exact Hname |]].
  intros x Hx Hxname. apply (newest_max _ r x Hr).
  apply list_elem_of_filter. auto.
Qed.

Lemma X22_reported_record_witness :
  release "lib.dll" "b.ZIP" 2 200 ∈
    inspected example_world ["X:/NETDBS/a.zip"; "X:/NETDBS/b.ZIP"; "X:/NETDBS/c.zip"] /\
  Name (release "lib.dll" "b.ZIP" 2 200) = "lib.dll" /\
  forall x,
    x ∈ inspected example_world ["X:/NETDBS/a.zip"; "X:/NETDBS/b.ZIP"; "X:/NETDBS/c.zip"] ->
    Name x = "lib.dll" ->
    Before (ModTime (release "lib.dll" "b.ZIP" 2 200)) (ModTime x) = false.
Proof.
  apply (X22_reported_record_is_a_newest_one example_world
           ["X:/NETDBS/a.zip"; "X:/NETDBS/b.ZIP"; "X:/NETDBS/c.zip"]).
  - reflexivity.
  - discriminate.
  - vm_compute. reflexivity.
Defined.

(** X23: when a name has at most twelve records over all the archives
    inspected, the record the run keeps for it is, of its records with the
    greatest modification time, the one discovered last. *)
Theorem X23_run_keeps_the_last_discovered_of_the_newest (w : World) archives name r :
  findArchiveFiles w archiveDir = Ok archives -> archives <> [] ->
  latestReleases (main w) !! name = Some r ->
  length (filter (fun x => Name x = name) (inspected w archives)) <= 12 ->
  last_of_newest (filter (fun x => Name x = name) (inspected w archives)) r.
Proof.
  intros Hfind Hne Hr Hsmall. rewrite (latest_of_run w archives name Hfind Hne) in Hr.
  set (versions := filter (fun x => Name x = name) (inspected w archives)) in *.
  destruct (Slice_small byModTime versions Hsmall) as (v' & Hv' & Hlast).
  destruct (Slice_byModTime versions) as (Hrun' & _ & _).
  assert (v' = sorted_versions versions) as -> by congruence.
  unfold newest in Hr. rewrite last_lookup in Hr.
  replace (pred (length (sorted_versions versions)))
    with (length (sorted_versions versions) - 1) in Hr by lia.
  rewrite Hr in Hlast. symmetry in Hlast.
  apply (lastmax_spec byModTime) in Hlast. exact Hlast.
Qed.

Lemma X23_last_discovered_witness :
  last_of_newest
    (filter (fun x => Name x = "lib.dll")
       (inspected example_world ["X:/NETDBS/a.zip"; "X:/NETDBS/b.ZIP"; "X:/NETDBS/c.zip"]))
    (release "lib.dll" "b.ZIP" 2 200).
Proof.
  apply (X23_run_keeps_the_last_discovered_of_the_newest example_world
           ["X:/NETDBS/a.zip"; "X:/NETDBS/b.ZIP"; "X:/NETDBS/c.zip"]).
  - reflexivity.
  - discriminate.
  - vm_compute. reflexivity.
  - vm_compute. lia.
Defined.

(** X24: the names of the resolution map of a run are the names of the
    entries of the archives that were inspected: every name once, and no
    other name. *)
Theorem X24_one_resolved_name_per_entry_name (w : World) archives :
  findArchiveFiles w archiveDir = Ok archives -> archives <> [] ->
  dom (latestReleases (main w)) = names_of (inspected w archives).
Proof. apply latest_dom. Qed.

Lemma X24_names_witness :
  dom (latestReleases (main example_world)) =
    names_of (inspected example_world
                ["X:/NETDBS/a.zip"; "X:/NETDBS/b.ZIP"; "X:/NETDBS/c.zip"]).
Proof.
  apply (X24_one_resolved_name_per_entry_name example_world
           ["X:/NETDBS/a.zip"; "X:/NETDBS/b.ZIP"; "X:/NETDBS/c.zip"]).
  - reflexivity.
  - discriminate.
Defined.

(** X25: what a successful run prints: the directory, the number of
    archives found (those that failed included), the name of the report
    file, and the number of distinct entry names over the archives that
    were inspected. *)
Theorem X25_summary_counts (w : World) archives :
  findArchiveFiles w archiveDir = Ok archives -> exit (main w) = Success ->
  stdout (main w) =
    ["Поиск архивов в директории: X:/NETDBS" +:+ nl;
     "Найдено архивов: " +:+ decimal (Z.of_nat (length archives)) +:+ nl;
     "Результаты сохранены в файл: ./latest_releases.txt" +:+ nl;
     "Обработано уникальных файлов: " +:+
       decimal (Z.of_nat (size (names_of (inspected w archives)))) +:+ nl].
Proof.
  intros Hfind Hexit.
  destruct archives as [| a0 rest] eqn:Ea;
    [unfold main in Hexit; rewrite Hfind in Hexit; discriminate |].
  rewrite <- Ea in *.
  assert (Hne : archives <> []) by (rewrite Ea; discriminate).
  rewrite <- (latest_dom w archives Hfind Hne), size_dom.
  destruct (main_found w archives Hfind Hne) as (latest & allFiles' & _ & Hlatest & _ & _ & Hw).
  rewrite Hlatest.
  destruct (writeResultsToFile w outputFile latest) as [out [e |] |].
  - destruct Hw as [Hfatal _]. congruence.
  - destruct Hw as (_ & _ & ->). reflexivity.
  - contradiction.
Qed.

Lemma X25_summary_witness :
  stdout (main example_world) =
    ["Поиск архивов в директории: X:/NETDBS" +:+ nl;
     "Найдено архивов: " +:+
       decimal (Z.of_nat (length ["X:/NETDBS/a.zip"; "X:/NETDBS/b.ZIP"; "X:/NETDBS/c.zip"])) +:+ nl;
     "Результаты сохранены в файл: ./latest_releases.txt" +:+ nl;
     "Обработано уникальных файлов: " +:+
       decimal (Z.of_nat (size (names_of (inspected example_world
                  ["X:/NETDBS/a.zip"; "X:/NETDBS/b.ZIP"; "X:/NETDBS/c.zip"])))) +:+ nl].
Proof.
  apply (X25_summary_counts example_world
           ["X:/NETDBS/a.zip"; "X:/NETDBS/b.ZIP"; "X:/NETDBS/c.zip"]).
  - reflexivity.
  - vm_compute. reflexivity.
Defined.

(** X26: when no archive yields a record (every archive is corrupt, or
    holds directories only), the run still succeeds once the report file
    can be created and its first two lines written: the resolution map is
    empty and the report is the header and the divider. *)
Theorem X26_no_record_still_a_report (w : World) archives :
  findArchiveFiles w archiveDir = Ok archives -> archives <> [] ->
  inspected w archives = [] ->
  Create w outputFile = None -> WriteError w 0 = None -> WriteError w 1 = None ->
  MapOrder w [] = [] ->
  exit (main w) = Success /\ latestReleases (main w) = ∅ /\
  report (main w) = Some (mkFile (header +:+ divider) 2).
Proof.
  intros Hfind Hne Hnone Hcreate Hw0 Hw1 Horder.
  assert (Hempty : latestReleases (main w) = ∅).
  { apply map_eq. intros name. rewrite (latest_of_run w archives name Hfind Hne), Hnone.
    rewrite lookup_empty. reflexivity. }
  destruct (main_found w archives Hfind Hne) as (latest & allFiles' & _ & Hlatest & _ & _ & Hw).
  rewrite Hempty in Hlatest. subst latest.
  unfold writeResultsToFile in Hw. rewrite Hcreate in Hw. cbv zeta in Hw.
  unfold WriteString in Hw. cbn [writes content] in Hw. rewrite Hw0 in Hw.
  cbn [writes content] in Hw. rewrite Hw1 in Hw.
  rewrite map_to_list_empty, Horder in Hw. cbn in Hw.
  destruct Hw as (Hexit & Hreport & _). auto.
Qed.

Lemma X26_no_record_witness :
  exit (main corrupt_world) = Success /\ latestReleases (main corrupt_world) = ∅ /\
  report (main corrupt_world) = Some (mkFile (header +:+ divider) 2).
Proof.
  apply (X26_no_record_still_a_report corrupt_world
           ["X:/NETDBS/a.zip"; "X:/NETDBS/b.ZIP"; "X:/NETDBS/c.zip"]);
    first [reflexivity | discriminate].
Defined.

(** X27: the report file is created after every archive was inspected.
    When it cannot be created the run ends with the fatal error
    [Ошибка записи результатов] and the error of [os.Create], whatever the
    archives hold; the warnings of the archives that failed were logged
    before. *)
Theorem X27_report_not_created_is_fatal (w : World) archives e :
  findArchiveFiles w archiveDir = Ok archives -> archives <> [] ->
  Create w outputFile = Some e ->
  exit (main w) = Fatal ("Ошибка записи результатов: " +:+ e) /\
  report (main w) = None /\
  warnings (main w) = omap (warning_of w) archives.
Proof.
  intros Hfind Hne Hcreate.
  destruct (main_found w archives Hfind Hne) as (latest & allFiles' & _ & _ & Hwarn & _ & Hw).
  unfold writeResultsToFile in Hw. rewrite Hcreate in Hw. destruct Hw as [Hexit Hreport].
  rewrite Hwarn, main_collect_warnings. auto.
Qed.

Lemma X27_report_not_created_witness :
  exit (main read_only_world) = Fatal ("Ошибка записи результатов: " +:+ "Access is denied.") /\
  report (main read_only_world) = None /\
  warnings (main read_only_world) =
    omap (warning_of read_only_world)
      ["X:/NETDBS/a.zip"; "X:/NETDBS/b.ZIP"; "X:/NETDBS/c.zip"].
Proof.
  apply (X27_report_not_created_is_fatal read_only_world
           ["X:/NETDBS/a.zip"; "X:/NETDBS/b.ZIP"; "X:/NETDBS/c.zip"]).
  - reflexivity.
  - discriminate.
  - reflexivity.
Defined.
